(** * Verification of the chess-ai search engine

    A shallow embedding of [engine/eval.py], [engine/board.py] and
    [engine/search.py]: iterative-deepening negamax with alpha-beta pruning,
    a transposition table, quiescence search and cooperative time control.

    - The rules engine (python-chess) is an external collaborator and enters
      as the interface [Rules]; what the proofs need from it is stated as
      hypotheses ([captures_decrease], [fen_determines_moves], a bound on
      the number of pieces) and holds of the small provider [Toy].
    - Python objects that are mutated in place ([Board] instances, the
      module-level [TRANSPOSITION_TABLE]) live in an explicit store that
      every routine threads through; [time.time()] and the [random] module
      are answered by two oracles.
    - Routines run in a monad of store, exceptions and a nesting budget for
      the recursion of [_quiescence], which Python does not bound. *)

From Stdlib Require Import ZArith List Lia Bool.
From stdpp Require Import base option list gmap strings.

Local Open Scope Z_scope.

(** ** Scores

    Python mixes [int] and [float] here: [MATE_SCORE] is an [int],
    [evaluate] returns [float(score)] of an integer sum, and the search
    windows start at [-math.inf] / [math.inf].  Every finite value that
    occurs is an integer of small magnitude, on which float negation,
    comparison, [max], [min] and multiplication by [+1]/[-1] are exact, so a
    score is an integer or one of the two infinities.  ([0.0] and [-0.0]
    compare equal in Python and are both [Fin 0].) *)

Inductive score : Type :=
  | NInf
  | Fin (z : Z)
  | PInf.

#[global] Instance score_eq_dec : EqDecision score.
Proof. solve_decision. Defined.

(** [-x] *)
Definition sneg (x : score) : score :=
  match x with
  | NInf => PInf
  | Fin z => Fin (- z)
  | PInf => NInf
  end.

(** [x <= y] *)
Definition sle (x y : score) : bool :=
  match x, y with
  | NInf, _ => true
  | _, PInf => true
  | Fin a, Fin b => a <=? b
  | _, _ => false
  end.

(** [x < y] *)
Definition slt (x y : score) : bool :=
  match x, y with
  | PInf, _ => false
  | _, NInf => false
  | Fin a, Fin b => a <? b
  | _, _ => true
  end.

(** Python's [max(a, b)]: the first argument unless the second is larger. *)
Definition smax (a b : score) : score := if slt a b then b else a.

(** Python's [min(a, b)]: the first argument unless the second is smaller. *)
Definition smin (a b : score) : score := if slt b a then b else a.

(** ** The rules provider (python-chess)

    [Pos] is the value of a [chess.Board]; the operations are the ones the
    engine calls on it. *)

Inductive PieceType : Type := PAWN | KNIGHT | BISHOP | ROOK | QUEEN | KING.

(** [chess.WHITE = True], [chess.BLACK = False]. *)
Definition Color : Type := bool.
Definition WHITE : Color := true.
Definition BLACK : Color := false.

Class Rules : Type := {
  Pos : Type;
  Move : Type;
  Move_eq_dec :: EqDecision Move;
  (** [list(b.legal_moves)] *)
  legal_moves : Pos → list Move;
  (** the board after [b.push(move)] *)
  push : Pos → Move → Pos;
  is_checkmate : Pos → bool;
  is_capture : Pos → Move → bool;
  is_game_over : Pos → bool;
  (** [b.result(claim_draw=True)] *)
  result : Pos → string;
  (** [b.turn] *)
  turn : Pos → Color;
  fen : Pos → string;
  (** [b.pieces(piece_type, color)]: the squares, 0 = a1 .. 63 = h8 *)
  pieces : Pos → PieceType → Color → list Z;
}.

(** ** engine/eval.py *)

Definition PIECE_VALUES (pt : PieceType) : Z :=
  match pt with
  | PAWN => 100
  | KNIGHT => 320
  | BISHOP => 330
  | ROOK => 500
  | QUEEN => 900
  | KING => 0
  end.

(** Iteration order of [PIECE_VALUES.items()]. *)
Definition PIECE_TYPES : list PieceType :=
  [PAWN; KNIGHT; BISHOP; ROOK; QUEEN; KING].

Definition MATE_SCORE : Z := 100000.

Definition PAWN_PST : list Z :=
  [   0;   0;   0;   0;   0;   0;   0;   0;
     50;  50;  50;  50;  50;  50;  50;  50;
     10;  10;  20;  30;  30;  20;  10;  10;
      5;   5;  10;  25;  25;  10;   5;   5;
      0;   0;   0;  20;  20;   0;   0;   0;
      5;  -5; -10;   0;   0; -10;  -5;   5;
      5;  10;  10; -20; -20;  10;  10;   5;
      0;   0;   0;   0;   0;   0;   0;   0 ].

Definition KNIGHT_PST : list Z :=
  [ -50; -40; -30; -30; -30; -30; -40; -50;
    -40; -20;   0;   5;   5;   0; -20; -40;
    -30;   5;  10;  15;  15;  10;   5; -30;
    -30;   0;  15;  20;  20;  15;   0; -30;
    -30;   5;  15;  20;  20;  15;   5; -30;
    -30;   0;  10;  15;  15;  10;   0; -30;
    -40; -20;   0;   0;   0;   0; -20; -40;
    -50; -40; -30; -30; -30; -30; -40; -50 ].

Definition BISHOP_PST : list Z :=
  [ -20; -10; -10; -10; -10; -10; -10; -20;
    -10;   5;   0;   0;   0;   0;   5; -10;
    -10;  10;  10;  10;  10;  10;  10; -10;
    -10;   0;  10;  10;  10;  10;   0; -10;
    -10;   5;   5;  10;  10;   5;   5; -10;
    -10;   0;   5;  10;  10;   5;   0; -10;
    -10;   0;   0;   0;   0;   0;   0; -10;
    -20; -10; -10; -10; -10; -10; -10; -20 ].

Definition ROOK_PST : list Z :=
  [   0;   0;   5;  10;  10;   5;   0;   0;
    -10;   0;   0;   0;   0;   0;   0; -10;
    -10;   0;   0;   0;   0;   0;   0; -10;
    -10;   0;   0;   0;   0;   0;   0; -10;
    -10;   0;   0;   0;   0;   0;   0; -10;
    -10;   0;   0;   0;   0;   0;   0; -10;
     10;  10;  10;  10;  10;  10;  10;  10;
      0;   0;   0;   0;   0;   0;   0;   0 ].

Definition QUEEN_PST : list Z :=
  [ -20; -10; -10;  -5;  -5; -10; -10; -20;
    -10;   0;   5;   0;   0;   0;   0; -10;
    -10;   5;   5;   5;   5;   5;   0; -10;
     -5;   0;   5;   5;   5;   5;   0;  -5;
      0;   0;   5;   5;   5;   5;   0;  -5;
    -10;   5;   5;   5;   5;   5;   0; -10;
    -10;   0;   5;   0;   0;   0;   0; -10;
    -20; -10; -10;  -5;  -5; -10; -10; -20 ].

Definition KING_PST_MID : list Z :=
  [ -30; -40; -40; -50; -50; -40; -40; -30;
    -30; -40; -40; -50; -50; -40; -40; -30;
    -30; -40; -40; -50; -50; -40; -40; -30;
    -30; -40; -40; -50; -50; -40; -40; -30;
    -20; -30; -30; -40; -40; -30; -30; -20;
    -10; -20; -20; -20; -20; -20; -20; -10;
     20;  20;   0;   0;   0;   0;  20;  20;
     20;  30;  10;   0;   0;  10;  30;  20 ].

Definition KING_PST_END : list Z :=
  [ -50; -40; -30; -20; -20; -30; -40; -50;
    -30; -20; -10;   0;   0; -10; -20; -30;
    -30; -10;  20;  30;  30;  20; -10; -30;
    -30; -10;  30;  40;  40;  30; -10; -30;
    -30; -10;  30;  40;  40;  30; -10; -30;
    -30; -10;  20;  30;  30;  20; -10; -30;
    -30; -30;   0;   0;   0;   0; -30; -30;
    -50; -30; -30; -30; -30; -30; -30; -50 ].

(** [chess.square_mirror(square)] is [square ^ 0x38]. *)
Definition square_mirror (square : Z) : Z := Z.lxor square 56.

(** [table[idx]]; python-chess only hands out squares in 0..63, for which
    the lookup is in range. *)
Definition table_at (table : list Z) (idx : Z) : Z :=
  nth (Z.to_nat idx) table 0.

(** The final [else: return 0] of the source is for values outside the six
    piece types, which [PieceType] does not have. *)
Definition _pst_value (piece_type : PieceType) (square : Z) (color : Color)
    (endgame : bool) : Z :=
  let table :=
    match piece_type with
    | PAWN => PAWN_PST
    | KNIGHT => KNIGHT_PST
    | BISHOP => BISHOP_PST
    | ROOK => ROOK_PST
    | QUEEN => QUEEN_PST
    | KING => if endgame then KING_PST_END else KING_PST_MID
    end in
  let idx := if color then square else square_mirror square in
  table_at table idx.

Section Eval.
Context `{R : Rules}.

Definition _is_endgame (b : Pos) : bool :=
  let queens := (length (pieces b QUEEN WHITE) + length (pieces b QUEEN BLACK))%nat in
  let rooks := (length (pieces b ROOK WHITE) + length (pieces b ROOK BLACK))%nat in
  (queens =? 0)%nat || ((queens =? 1)%nat && (rooks <=? 1)%nat).

(** The two inner [for square in b.pieces(...)] loops for one piece type,
    started from the running [score]. *)
Definition eval_piece_type (b : Pos) (endgame : bool) (score : Z)
    (piece_type : PieceType) : Z :=
  let value := PIECE_VALUES piece_type in
  let score :=
    fold_left (λ score square,
                 score + value + _pst_value piece_type square WHITE endgame)
              (pieces b piece_type WHITE) score in
  fold_left (λ score square,
               score - value - _pst_value piece_type square BLACK endgame)
            (pieces b piece_type BLACK) score.

Definition evaluate (b : Pos) : Z :=
  if is_game_over b then
    let result := result b in
    if String.eqb result "1-0" then MATE_SCORE
    else if String.eqb result "0-1" then - MATE_SCORE
    else 0
  else
    let endgame := _is_endgame b in
    let score := fold_left (eval_piece_type b endgame) PIECE_TYPES 0 in
    if turn b then score + 10 else score - 10.
End Eval.

(** ** engine/search.py: data *)

Inductive NodeType : Type := EXACT | LOWERBOUND | UPPERBOUND.

#[global] Instance NodeType_eq_dec : EqDecision NodeType.
Proof. solve_decision. Defined.

Record TTEntry `{R : Rules} : Type := mkTTEntry {
  entry_depth : Z;
  entry_score : score;
  entry_node_type : NodeType;
  entry_best_move : option Move;
}.
Arguments mkTTEntry {R} entry_depth entry_score entry_node_type entry_best_move.

(** Which routine a recorded call entered. *)
Inductive routine : Type := NEGAMAX | QUIESCENCE.

(** A [Board] object is a reference into the store. *)
Definition ref : Type := nat.

(** ** The store

    - [heap]: the [Board] objects allocated so far.  A [Board] wrapper and
      the [chess.Board] in its [.board] attribute are created together and
      the attribute is never reassigned afterwards, so one cell holds both.
      [Board.copy] allocates a new cell, [Board.push] updates one in place.
    - [TRANSPOSITION_TABLE]: the module-level dict, keyed by FEN.
    - [ticks], [draws]: how many times [time.time()] and the random
      generator have been consulted; the k-th answers come from the
      oracles [clock] and [rand] below.
    - [calls]: ghost history of the windows with which [_negamax] and
      [_quiescence] were entered (most recent last); nothing reads it. *)
Record state `{R : Rules} : Type := mkState {
  heap : list Pos;
  TRANSPOSITION_TABLE : gmap string TTEntry;
  ticks : nat;
  draws : nat;
  calls : list (routine * score * score);
}.
Arguments mkState {R} heap TRANSPOSITION_TABLE ticks draws calls.

Inductive exn : Type :=
  | IndexError     (* random.choice on an empty sequence *)
  | IllegalMove    (* a move the rules provider does not accept *)
  | InvalidRef.    (* a reference to no allocated Board: cannot happen in Python *)

(** The outcome of running a routine from a store: a value and the new
    store, an uncaught exception, or the recursion budget of the model ran
    out before the routine returned. *)
Inductive outcome `{R : Rules} (A : Type) : Type :=
  | Ok (a : A) (s : state)
  | Raise (e : exn)
  | OutOfFuel.
Arguments Ok {R A} a s.
Arguments Raise {R A} e.
Arguments OutOfFuel {R A}.

Definition M `{R : Rules} (A : Type) : Type := state → outcome A.

Definition ret `{R : Rules} {A} (a : A) : M A := λ s, Ok a s.

Definition bind `{R : Rules} {A B} (m : M A) (k : A → M B) : M B :=
  λ s, match m s with
       | Ok a s' => k a s'
       | Raise e => Raise e
       | OutOfFuel => OutOfFuel
       end.

Definition raise `{R : Rules} {A} (e : exn) : M A := λ _, Raise e.
Definition out_of_fuel `{R : Rules} {A} : M A := λ _, OutOfFuel.

Notation "'let*' x ':=' m 'in' k" := (bind m (λ x, k))
  (at level 10, x pattern, m at level 100, k at level 200,
   format "'[v' 'let*'  x  :=  m  'in'  '/' k ']'").

Section Search.
Context `{R : Rules}.

(** The k-th call of [time.time()] returns [clock k] (in clock ticks);
    the k-th request to the random generator is answered from [rand k]. *)
Variable clock : nat → Z.
Variable rand : nat → nat.

(** *** Primitive effects *)

Definition time_time : M Z :=
  λ s, Ok (clock (ticks s))
          (mkState (heap s) (TRANSPOSITION_TABLE s) (S (ticks s)) (draws s) (calls s)).

(** [random._randbelow(n)], for [n > 0]. *)
Definition randbelow (n : nat) : M nat :=
  λ s, Ok (rand (draws s) mod n)%nat
          (mkState (heap s) (TRANSPOSITION_TABLE s) (ticks s) (S (draws s)) (calls s)).

(** The [chess.Board] held by a [Board]. *)
Definition board_of (board : ref) : M Pos :=
  λ s, match heap s !! board with
       | Some b => Ok b s
       | None => Raise InvalidRef
       end.

(** [Board.copy]: a new object holding a copy of the position. *)
Definition Board_copy (board : ref) : M ref :=
  let* b := board_of board in
  λ s, Ok (length (heap s))
          (mkState (heap s ++ [b]) (TRANSPOSITION_TABLE s) (ticks s) (draws s) (calls s)).

(** [Board.push]: applies the move to the object itself.  python-chess
    does not check the move and promises a result only for a move that can
    be played; here every push of a move that is not legal counts as
    rejected, so a run that returns has pushed legal moves only. *)
Definition Board_push (board : ref) (move : Move) : M unit :=
  let* b := board_of board in
  if bool_decide (move ∈ legal_moves b) then
    λ s, Ok tt
            (mkState (<[board := push b move]> (heap s)) (TRANSPOSITION_TABLE s)
                     (ticks s) (draws s) (calls s))
  else raise IllegalMove.

Definition generate_legal_moves (board : ref) : M (list Move) :=
  let* b := board_of board in ret (legal_moves b).

Definition Board_turn (board : ref) : M Color :=
  let* b := board_of board in ret (turn b).

(** [evaluate(board)] reads the object and changes nothing. *)
Definition evaluate_board (board : ref) : M Z :=
  let* b := board_of board in ret (evaluate b).

Definition tt_get (key : string) : M (option TTEntry) :=
  λ s, Ok (TRANSPOSITION_TABLE s !! key) s.

(** [TRANSPOSITION_TABLE[key] = entry] *)
Definition tt_put (key : string) (entry : TTEntry) : M unit :=
  λ s, Ok tt
          (mkState (heap s) (<[key := entry]> (TRANSPOSITION_TABLE s))
                   (ticks s) (draws s) (calls s)).

Definition clear_tt : M unit :=
  λ s, Ok tt (mkState (heap s) ∅ (ticks s) (draws s) (calls s)).

(** Ghost: record that [f] was entered with the window [(alpha, beta)]. *)
Definition enter (f : routine) (alpha beta : score) : M unit :=
  λ s, Ok tt
          (mkState (heap s) (TRANSPOSITION_TABLE s) (ticks s) (draws s)
                   (calls s ++ [(f, alpha, beta)])).

(** [max_time is not None and time.time() - start_time > max_time];
    the clock is not read when there is no limit. *)
Definition time_is_up (start_time : Z) (max_time : option Z) : M bool :=
  match max_time with
  | None => ret false
  | Some max_time => let* now := time_time in ret (max_time <? now - start_time)
  end.

(** *** The random module *)

(** [x[i], x[j] = x[j], x[i]] *)
Definition swap {A} (x : list A) (i j : nat) : list A :=
  match x !! i, x !! j with
  | Some xi, Some xj => <[j := xi]> (<[i := xj]> x)
  | _, _ => x
  end.

(** [for i in reversed(range(1, n + 1)): j = randbelow(i + 1); swap] *)
Fixpoint shuffle_from {A} (i : nat) (x : list A) : M (list A) :=
  match i with
  | O => ret x
  | S i' => let* j := randbelow (S i) in shuffle_from i' (swap x i j)
  end.

(** [random.shuffle(x)] (Fisher-Yates, from the last index down to 1). *)
Definition shuffle {A} (x : list A) : M (list A) :=
  shuffle_from (length x - 1) x.

(** [random.choice(seq)]: [seq[randbelow(len(seq))]], [IndexError] on an
    empty sequence. *)
Definition choice {A} (seq : list A) : M A :=
  match seq with
  | [] => raise IndexError
  | _ =>
    let* i := randbelow (length seq) in
    match seq !! i with
    | Some x => ret x
    | None => raise IndexError
    end
  end.

(** *** _order_moves *)

Definition is_tt_move (tt_move : option Move) (m : Move) : bool :=
  match tt_move with
  | Some t => bool_decide (m = t)
  | None => false
  end.

Definition _order_moves (board : ref) (moves : list Move)
    (tt_move : option Move) : M (list Move) :=
  let* b := board_of board in
  let rest := filter (λ m, is_tt_move tt_move m = false) moves in
  let captures := filter (λ m, is_capture b m = true) rest in
  let quiets := filter (λ m, is_capture b m = false) rest in
  let* captures := shuffle captures in
  let* quiets := shuffle quiets in
  ret (match tt_move with Some t => [t] | None => [] end ++ captures ++ quiets).

(** *** _quiescence

    Python recursion has no bound of its own; [fuel] bounds the nesting
    of [_quiescence] calls and [OutOfFuel] is the outcome when it does not
    suffice. *)

Section QuiescenceLoop.
(** the recursive call *)
Variable rec : ref → score → score → Z → M score.
Variables (board : ref) (beta : score) (color : Z).

(** [for move in capture_moves: ...], from the current [alpha]. *)
Fixpoint quiescence_loop (alpha : score) (capture_moves : list Move) : M score :=
  match capture_moves with
  | [] => ret alpha
  | move :: capture_moves =>
    let* child := Board_copy board in
    let* _ := Board_push child move in
    let* r := rec child (sneg beta) (sneg alpha) (- color) in
    let score := sneg r in
    if sle beta score then ret score
    else quiescence_loop (if slt alpha score then score else alpha) capture_moves
  end.
End QuiescenceLoop.

Fixpoint _quiescence (fuel : nat) (board : ref) (alpha beta : score) (color : Z)
    (start_time : Z) (max_time : option Z) : M score :=
  match fuel with
  | O => out_of_fuel
  | S fuel =>
    let* _ := enter QUIESCENCE alpha beta in
    let* up := time_is_up start_time max_time in
    if up then
      let* e := evaluate_board board in ret (Fin (color * e))
    else
      let* e := evaluate_board board in
      let stand_pat := Fin (color * e) in
      if sle beta stand_pat then ret stand_pat
      else
        let alpha := if slt alpha stand_pat then stand_pat else alpha in
        let* moves := generate_legal_moves board in
        let* b := board_of board in
        let capture_moves := filter (λ m, is_capture b m = true) moves in
        match capture_moves with
        | [] => ret stand_pat
        | _ =>
          quiescence_loop
            (λ child a b c, _quiescence fuel child a b c start_time max_time)
            board beta color alpha capture_moves
        end
  end.

(** *** _negamax *)

Section NegamaxLoop.
Variable rec : ref → score → score → Z → M score.
Variables (board : ref) (beta : score) (color : Z).

(** [for move in ordered_moves: ...]; returns the final
    [(value, best_move, alpha)]. *)
Fixpoint negamax_loop (value : score) (best_move : option Move) (alpha : score)
    (ordered_moves : list Move) : M (score * option Move * score) :=
  match ordered_moves with
  | [] => ret (value, best_move, alpha)
  | move :: ordered_moves =>
    let* child := Board_copy board in
    let* _ := Board_push child move in
    let* r := rec child (sneg beta) (sneg alpha) (- color) in
    let score := sneg r in
    let '(value, best_move) :=
      if slt value score then (score, Some move) else (value, best_move) in
    let alpha := smax alpha value in
    if sle beta alpha then ret (value, best_move, alpha)
    else negamax_loop value best_move alpha ordered_moves
  end.
End NegamaxLoop.

(** The transposition-table lookup at the head of [_negamax] (the
    [if entry is not None and entry.depth >= depth:] block): [inl v] when
    it returns [v] at once, [inr (alpha, beta)] with the possibly
    tightened window when the routine goes on. *)
Definition tt_probe (entry : option TTEntry) (depth : Z) (alpha beta : score)
    : score + score * score :=
  match entry with
  | Some entry =>
    if depth <=? entry_depth entry then
      match entry_node_type entry with
      | EXACT => inl (entry_score entry)
      | LOWERBOUND =>
        let alpha := smax alpha (entry_score entry) in
        if sle beta alpha then inl (entry_score entry) else inr (alpha, beta)
      | UPPERBOUND =>
        let beta := smin beta (entry_score entry) in
        if sle beta alpha then inl (entry_score entry) else inr (alpha, beta)
      end
    else inr (alpha, beta)
  | None => inr (alpha, beta)
  end.

(** [entry.best_move if entry else None] *)
Definition tt_move_of (entry : option TTEntry) : option Move :=
  match entry with
  | Some e => entry_best_move e
  | None => None
  end.

(** [_negamax] from [legal_moves = board.generate_legal_moves()] to the
    end, for [depth >= 1]; [rec] is [_negamax] at [depth - 1], and
    [alpha], [beta] are the window after the table lookup. *)
Definition negamax_node (rec : ref → score → score → Z → M score)
    (depth : Z) (board : ref) (alpha beta : score) (color : Z)
    (fen_key : string) (tt_move : option Move) : M score :=
  let* legal_moves := generate_legal_moves board in
  match legal_moves with
  | [] =>
    let* b := board_of board in
    if is_checkmate b then ret (Fin (- color * MATE_SCORE))
    else ret (Fin 0)
  | _ =>
    let* ordered_moves := _order_moves board legal_moves tt_move in
    let* (value, best_move, alpha) :=
      negamax_loop rec board beta color NInf None alpha ordered_moves in
    let node_type :=
      if sle value alpha then UPPERBOUND
      else if sle beta value then LOWERBOUND
      else EXACT in
    let* _ := tt_put fen_key (mkTTEntry depth value node_type best_move) in
    ret value
  end.

(** [depth] is a natural number: [search_best_move] starts every root
    search at a depth of at least 1 and [_negamax] stops descending at
    [depth == 0]. *)
Fixpoint _negamax (fuel : nat) (depth : nat) (board : ref) (alpha beta : score)
    (color : Z) (start_time : Z) (max_time : option Z) : M score :=
  let* _ := enter NEGAMAX alpha beta in
  let* up := time_is_up start_time max_time in
  if up then
    let* e := evaluate_board board in ret (Fin (color * e))
  else
    let* b := board_of board in
    let fen_key := fen b in
    let* entry := tt_get fen_key in
    match tt_probe entry (Z.of_nat depth) alpha beta with
    | inl v => ret v
    | inr (alpha, beta) =>
      match depth with
      | O => _quiescence fuel board alpha beta color start_time max_time
      | S depth' =>
        negamax_node
          (λ child a b c, _negamax fuel depth' child a b c start_time max_time)
          (Z.of_nat depth) board alpha beta color fen_key (tt_move_of entry)
      end
    end.

(** *** _negamax_root *)

Section RootLoop.
Variable rec : ref → score → score → Z → M score.
Variables (board : ref) (beta : score) (color : Z).
Variables (start_time : Z) (max_time : option Z).

(** [for move in ordered_moves: ...]; returns the final
    [(best_score, best_move)]. *)
Fixpoint root_loop (best_score : score) (best_move : option Move) (alpha : score)
    (ordered_moves : list Move) : M (score * option Move) :=
  match ordered_moves with
  | [] => ret (best_score, best_move)
  | move :: ordered_moves =>
    let* up := time_is_up start_time max_time in
    if up then ret (best_score, best_move)
    else
      let* child := Board_copy board in
      let* _ := Board_push child move in
      let* r := rec child (sneg beta) (sneg alpha) (- color) in
      let score := sneg r in
      let '(best_score, best_move) :=
        if slt best_score score then (score, Some move)
        else (best_score, best_move) in
      let alpha := smax alpha score in
      if sle beta alpha then ret (best_score, best_move)
      else root_loop best_score best_move alpha ordered_moves
  end.
End RootLoop.

(** Every call made by [search_best_move] has [depth >= 1], so the
    [depth - 1] handed to [_negamax] is a natural number; the properties
    below are stated for such calls. *)
Definition _negamax_root (fuel : nat) (board : ref) (depth : nat)
    (start_time : Z) (max_time : option Z) : M (score * option Move) :=
  let alpha := NInf in
  let beta := PInf in
  let* legal_moves := generate_legal_moves board in
  match legal_moves with
  | [] => let* e := evaluate_board board in ret (Fin e, None)
  | _ =>
    let* ordered_moves := _order_moves board legal_moves None in
    let* t := Board_turn board in
    let color := if t then 1 else -1 in
    root_loop
      (λ child a b c, _negamax fuel (depth - 1) child a b c start_time max_time)
      board beta color start_time max_time NInf None alpha ordered_moves
  end.

(** *** search_best_move *)

Section Deepening.
Variables (fuel : nat) (board : ref) (start_time : Z) (max_time : option Z).

(** [for current_depth in range(1, depth + 1): ...]; returns the final
    [(best_score, best_move)]. *)
Fixpoint deepening_loop (best_score : score) (best_move : option Move)
    (depths : list nat) : M (score * option Move) :=
  match depths with
  | [] => ret (best_score, best_move)
  | current_depth :: depths =>
    let* up := time_is_up start_time max_time in
    if up then ret (best_score, best_move)
    else
      let* (score, move) :=
        _negamax_root fuel board current_depth start_time max_time in
      match move with
      | Some _ => deepening_loop score move depths
      | None => deepening_loop best_score best_move depths
      end
  end.
End Deepening.

Definition search_best_move (fuel : nat) (board : ref) (depth : Z)
    (max_time : option Z) : M (option Move) :=
  let* start_time := time_time in
  let* t := Board_turn board in
  let best_score := if t then NInf else PInf in
  let* (best_score, best_move) :=
    deepening_loop fuel board start_time max_time best_score None
                   (seq 1 (Z.to_nat depth)) in
  match best_move with
  | None =>
    let* legal_moves := generate_legal_moves board in
    match legal_moves with
    | [] => ret None
    | _ => let* m := choice legal_moves in ret (Some m)
    end
  | Some m => ret (Some m)
  end.
End Search.

(** ** A small rules provider

    A game on two squares per side, small enough to run the engine on.
    Each side has up to two men; the side to move, if it still has a man,
    may take any enemy man or make a quiet move; a side without men that
    has to move has lost if the opponent still has men. *)

Module Toy.
Record position : Type := mkPos {
  w1 : bool; w2 : bool;   (* white men on b2 (9) and e4 (28) *)
  b1 : bool; b2 : bool;   (* black men on c6 (42) and h7 (55) *)
  white_to_move : bool;
}.

Inductive move : Type := TakeFirst | TakeSecond | Quiet.

#[global] Instance move_eq_dec : EqDecision move.
Proof. solve_decision. Defined.

Definition has_men (side : Color) (p : position) : bool :=
  if side then w1 p || w2 p else b1 p || b2 p.

Definition toy_legal_moves (p : position) : list move :=
  if has_men (white_to_move p) p then
    let first := if white_to_move p then b1 p else w1 p in
    let second := if white_to_move p then b2 p else w2 p in
    (if first then [TakeFirst] else []) ++ (if second then [TakeSecond] else [])
    ++ [Quiet]
  else [].

Definition toy_push (p : position) (m : move) : position :=
  match m, white_to_move p with
  | TakeFirst, true => mkPos (w1 p) (w2 p) false (b2 p) false
  | TakeSecond, true => mkPos (w1 p) (w2 p) (b1 p) false false
  | TakeFirst, false => mkPos false (w2 p) (b1 p) (b2 p) true
  | TakeSecond, false => mkPos (w1 p) false (b1 p) (b2 p) true
  | Quiet, t => mkPos (w1 p) (w2 p) (b1 p) (b2 p) (negb t)
  end.

Definition toy_is_capture (p : position) (m : move) : bool :=
  match m with Quiet => false | _ => true end.

Definition toy_is_game_over (p : position) : bool :=
  negb (has_men (white_to_move p) p).

Definition toy_is_checkmate (p : position) : bool :=
  negb (has_men (white_to_move p) p) && has_men (negb (white_to_move p)) p.

Definition toy_result (p : position) : string :=
  if toy_is_checkmate p then (if white_to_move p then "0-1" else "1-0")
  else if toy_is_game_over p then "1/2-1/2"
  else "*".

Definition bit (b : bool) : string := if b then "1" else "0".

Definition toy_fen (p : position) : string :=
  bit (w1 p) +:+ bit (w2 p) +:+ bit (b1 p) +:+ bit (b2 p) +:+ bit (white_to_move p).

Definition toy_pieces (p : position) (pt : PieceType) (c : Color) : list Z :=
  match pt with
  | PAWN =>
    if c then (if w1 p then [9] else []) ++ (if w2 p then [28] else [])
    else (if b1 p then [42] else []) ++ (if b2 p then [55] else [])
  | _ => []
  end.

#[global] Instance rules : Rules := {|
  Pos := position;
  Move := move;
  legal_moves := toy_legal_moves;
  push := toy_push;
  is_checkmate := toy_is_checkmate;
  is_capture := toy_is_capture;
  is_game_over := toy_is_game_over;
  result := toy_result;
  turn := white_to_move;
  fen := toy_fen;
    pieces := toy_pieces;
|}.


(** A clock that advances one tick per reading and a random source that
    always answers 0. *)
Definition toy_clock (k : nat) : Z := Z.of_nat k.
Definition toy_rand (k : nat) : nat := 0%nat.

Definition state0 (p : position) : state := mkState [p] ∅ 0%nat 0%nat [].

(** All four men on the board, White to move. *)
Definition full : position := mkPos true true true true true.

(** Black to move without men against two white men: Black is mated. *)
Definition mated_black : position := mkPos true true false false false.

(** A lone white man, White to move: nothing to take. *)
Definition lone_white : position := mkPos true false false false true.

(** A store whose table holds one entry, filed under the key of [p] at
    depth 1, suggesting move [m]. *)
Definition state_with_entry (p : position) (score : score) (bound : NodeType)
    (m : move) : state :=
  mkState [p] {[ toy_fen p := mkTTEntry 1 score bound (Some m) ]} 0%nat 0%nat [].
End Toy.

(** ** Vocabulary of the specifications *)

Section Vocabulary.
Context `{R : Rules}.

(** [wp m s Q]: run from [s], [m] returns (no exception, enough fuel) and
    the result and final store satisfy [Q]. *)
Definition wp {A} (m : M A) (s : state) (Q : A → state → Prop) : Prop :=
  match m s with
  | Ok a s' => Q a s'
  | Raise _ => False
  | OutOfFuel => False
  end.

(** The value a run returned, if it returned. *)
Definition returned {A} (o : outcome A) : option A :=
  match o with
  | Ok a _ => Some a
  | _ => None
  end.

(** *** How a store may change *)

(** A recorded call entered with [alpha < beta]. *)
Definition window_ok (c : routine * score * score) : Prop :=
  slt (c.1.2) (c.2) = true.

(** Every move the table suggests is legal in every position filed under
    its key. *)
Definition tt_legal (s : state) : Prop :=
  ∀ (key : string) (e : TTEntry) (m : Move) (b : Pos),
    TRANSPOSITION_TABLE s !! key = Some e → entry_best_move e = Some m →
    fen b = key → m ∈ legal_moves b.

(** What the search needs from the key: positions with the same FEN have
    the same legal moves. *)
Definition fen_determines_moves : Prop :=
  ∀ b b' : Pos, fen b = fen b' → legal_moves b = legal_moves b'.

(** From [s0] to [s]: the objects of [s0] are untouched (new ones may have
    been allocated after them), the call history has only grown, by calls
    whose windows are proper if [ok] holds, every table entry is either the
    one [s0] had under that key or an [UPPERBOUND] entry, and the table
    still suggests legal moves only if it did. *)
Record evolves (ok : Prop) (s0 s : state) : Prop := mkEvolves {
  ev_heap : heap s0 `prefix_of` heap s;
  ev_calls : ∃ k, calls s = calls s0 ++ k ∧ (ok → Forall window_ok k);
  ev_tt : ∀ key e, TRANSPOSITION_TABLE s !! key = Some e →
            TRANSPOSITION_TABLE s0 !! key = Some e ∨ entry_node_type e = UPPERBOUND;
  ev_legal : tt_legal s0 → tt_legal s;
}.

(** Only the counters of the clock and the random source differ. *)
Definition quiet (s s' : state) : Prop :=
  heap s' = heap s ∧ TRANSPOSITION_TABLE s' = TRANSPOSITION_TABLE s ∧
  calls s' = calls s.

(** What [enter] does to the store. *)
Definition entered (f : routine) (alpha beta : score) (s s' : state) : Prop :=
  heap s' = heap s ∧ TRANSPOSITION_TABLE s' = TRANSPOSITION_TABLE s ∧
  ticks s' = ticks s ∧ draws s' = draws s ∧
  calls s' = calls s ++ [(f, alpha, beta)].

(** [child = board.copy(); child.push(move)]: the new object is the last
    one of the store and holds the position after the move; nothing else
    changes. *)
Definition child_made (b : Pos) (move : Move) (s s' : state) : Prop :=
  heap s' = heap s ++ [push b move] ∧
  TRANSPOSITION_TABLE s' = TRANSPOSITION_TABLE s ∧
  ticks s' = ticks s ∧ draws s' = draws s ∧ calls s' = calls s.

(** What [tt_put] does to the store. *)
Definition stored (key : string) (entry : TTEntry) (s s' : state) : Prop :=
  heap s' = heap s ∧
  TRANSPOSITION_TABLE s' = <[key := entry]> (TRANSPOSITION_TABLE s) ∧
  ticks s' = ticks s ∧ draws s' = draws s ∧ calls s' = calls s.

(** The number of pieces on the board. *)
Definition piece_count (b : Pos) : nat :=
  foldr (λ pt n, length (pieces b pt WHITE) + length (pieces b pt BLACK) + n)%nat
        0%nat PIECE_TYPES.

(** What the search needs from the rules: a legal capture takes a piece
    off the board. *)
Definition captures_decrease : Prop :=
  ∀ (b : Pos) (m : Move),
    m ∈ legal_moves b → is_capture b m = true →
    (piece_count (push b m) < piece_count b)%nat.

(** The outcome of the time check made from store [s]. *)
Definition deadline_passed (clock : nat → Z) (start_time : Z)
    (max_time : option Z) (s : state) : bool :=
  match max_time with
  | None => false
  | Some max_time => max_time <? clock (ticks s) - start_time
  end.

(** The store after [_negamax] has recorded its entry and made its time
    check. *)
Definition after_time_check (f : routine) (alpha beta : score)
    (max_time : option Z) (s : state) : state :=
  mkState (heap s) (TRANSPOSITION_TABLE s)
          (match max_time with Some _ => S (ticks s) | None => ticks s end)
          (draws s) (calls s ++ [(f, alpha, beta)]).

(** [_negamax] after the table lookup, with the window the lookup left
    and the move it suggests. *)
Definition negamax_search (clock : nat → Z) (rand : nat → nat) (fuel depth : nat)
    (board : ref) (alpha beta : score) (color : Z)
    (start_time : Z) (max_time : option Z) (fen_key : string)
    (tt_move : option Move) : M score :=
  match depth with
  | O => _quiescence clock fuel board alpha beta color start_time max_time
  | S depth' =>
    negamax_node rand
      (λ child a b c,
         _negamax clock rand fuel depth' child a b c start_time max_time)
      (Z.of_nat depth) board alpha beta color fen_key tt_move
  end.

(** [m] returns from [s], and every [Board] object of [s] still holds the
    position it held. *)
Definition keeps_boards {A} (m : M A) (s : state) : Prop :=
  ∃ (a : A) (s' : state),
    m s = Ok a s' ∧
    ∀ (board : ref) (b : Pos), heap s !! board = Some b → heap s' !! board = Some b.

(** [m] returns from [s], and each call of [_negamax] or [_quiescence] made
    on the way was entered with [alpha < beta]. *)
Definition proper_windows {A} (m : M A) (s : state) : Prop :=
  ∃ (a : A) (s' : state) (k : list (routine * score * score)),
    m s = Ok a s' ∧ calls s' = calls s ++ k ∧ Forall window_ok k.

(** Whatever [m1] returns, [m2] returns as well, with the same store. *)
Definition refines {A} (m1 m2 : M A) : Prop :=
  ∀ (s : state) (a : A) (s' : state), m1 s = Ok a s' → m2 s = Ok a s'.

End Vocabulary.

(** * The rest of the engine and its callers

    What follows embeds the routines around the search: the remaining parts
    of the evaluator, [engine/bitboard_position.py], [ml/encoding.py],
    [ml/parse_pgn.py], [scripts/trim_pgn.py] and the move choice of
    [scripts/lichess_bot.py]. *)

(** ** engine/eval.py: the tables *)

#[global] Instance PieceType_eq_dec : EqDecision PieceType.
Proof. solve_decision. Defined.

(** The table [_pst_value] selects for a piece type. *)
Definition PST (piece_type : PieceType) (endgame : bool) : list Z :=
  match piece_type with
  | PAWN => PAWN_PST
  | KNIGHT => KNIGHT_PST
  | BISHOP => BISHOP_PST
  | ROOK => ROOK_PST
  | QUEEN => QUEEN_PST
  | KING => if endgame then KING_PST_END else KING_PST_MID
  end.

(** The sum of a list of integers. *)
Definition Zsum (l : list Z) : Z := foldr Z.add 0 l.

(** What one piece of [piece_type] on [square] adds to the score of its
    side: material plus table bonus. *)
Definition piece_worth (piece_type : PieceType) (color : Color) (endgame : bool)
    (square : Z) : Z :=
  PIECE_VALUES piece_type + _pst_value piece_type square color endgame.

(** ** A rules provider without moves

    Positions given by their piece placement only; used to run the
    evaluator and the encoder on concrete boards. *)

Module Layout.
Record position : Type := mkPos {
  white : PieceType → list Z;
  black : PieceType → list Z;
  white_to_move : bool;
}.

Definition rules : Rules := {|
  Pos := position;
  Move := Empty_set;
  legal_moves := λ _, [];
  push := λ p _, p;
  is_checkmate := λ _, false;
  is_capture := λ _ _, false;
  is_game_over := λ _, false;
  result := λ _, "*";
  turn := white_to_move;
  fen := λ _, "";
  pieces := λ p pt (c : Color), if c then white p pt else black p pt;
|}.

Definition only (pt : PieceType) (squares : list Z) (pt' : PieceType) : list Z :=
  if decide (pt = pt') then squares else [].

(** White: pawn e4 (28), queen d1 (3); Black: pawn c6 (42); White to move. *)
Definition sample : position :=
  mkPos (λ pt, only PAWN [28] pt ++ only QUEEN [3] pt) (only PAWN [42]) true.

(** [sample] with the colours swapped and the board flipped. *)
Definition sample_flipped : position :=
  mkPos (only PAWN [18]) (λ pt, only PAWN [36] pt ++ only QUEEN [59] pt) false.
End Layout.

(** Material and table bonuses of all pieces, White minus Black. *)
Definition material_balance `{R : Rules} (b : Pos) (endgame : bool) : Z :=
  Zsum (map (λ pt, Zsum (map (piece_worth pt WHITE endgame) (pieces b pt WHITE))
                   - Zsum (map (piece_worth pt BLACK endgame) (pieces b pt BLACK)))
            PIECE_TYPES).

(** [b'] is [b] with the colours swapped and the board flipped top to
    bottom. *)
Definition colour_flipped `{R : Rules} (b b' : Pos) : Prop :=
  (∀ (pt : PieceType) (c : Color),
     pieces b' pt c ≡ₚ square_mirror <$> pieces b pt (negb c)) ∧
  turn b' = negb (turn b).

(** ** Scores kept in the table

    [math.inf] and [-math.inf] are the initial values of the search; a
    score is finite when it is neither. *)
Definition is_finite (x : score) : bool :=
  match x with
  | Fin _ => true
  | _ => false
  end.

(** Every score cached in the table is finite. *)
Definition tt_finite `{R : Rules} (s : state) : Prop :=
  ∀ (key : string) (e : TTEntry),
    TRANSPOSITION_TABLE s !! key = Some e → is_finite (entry_score e) = true.

(** No key of the table has been removed. *)
Definition keys_kept `{R : Rules} (s s' : state) : Prop :=
  ∀ key : string,
    is_Some (TRANSPOSITION_TABLE s !! key) → is_Some (TRANSPOSITION_TABLE s' !! key).

(** [pwp m s Q]: if the run of [m] from [s] returns, the result and final
    store satisfy [Q]. *)
Definition pwp `{R : Rules} {A} (m : M A) (s : state) (Q : A → state → Prop) : Prop :=
  match m s with
  | Ok a s' => Q a s'
  | Raise _ => True
  | OutOfFuel => True
  end.

(** What a search routine entered with the window [(alpha, beta)] does to
    the table: it removes no key, and from a table of finite scores and a
    proper window it returns a finite score and leaves a table of finite
    scores. *)
Definition table_kept `{R : Rules} (alpha beta : score) (s : state)
    (v : score) (s' : state) : Prop :=
  keys_kept s s' ∧
  (tt_finite s → slt alpha beta = true → is_finite v = true ∧ tt_finite s').

(** ** engine/bitboard_position.py *)

(** What [from_chess_board] and [encode_position] read of a [chess.Board]
    besides its pieces and the side to move: [board.castling_rights],
    [board.ep_square] and the two castling queries. *)
Class BoardState `{R : Rules} : Type := {
  board_castling_rights : Pos → Z;
  board_ep_square : Pos → option Z;
  has_kingside_castling_rights : Pos → Color → bool;
  has_queenside_castling_rights : Pos → Color → bool;
}.

(** [int(square_set)]: the integer with bit [sq] set for each square [sq]
    of the set. *)
Definition square_mask (squares : list Z) : Z :=
  foldr (λ sq mask, Z.lor (Z.shiftl 1 sq) mask) 0 squares.

Record BitboardPosition : Type := mkBitboardPosition {
  white_pawns : Z;
  white_knights : Z;
  white_bishops : Z;
  white_rooks : Z;
  white_queens : Z;
  white_king : Z;
  black_pawns : Z;
  black_knights : Z;
  black_bishops : Z;
  black_rooks : Z;
  black_queens : Z;
  black_king : Z;
  white_to_move : bool;
  castling_rights : Z;
  (* -1 if none, else 0..63 *)
  en_passant_square : Z;
}.

Definition from_chess_board `{B : BoardState} (board : Pos) : BitboardPosition :=
  {| white_pawns := square_mask (pieces board PAWN WHITE);
     white_knights := square_mask (pieces board KNIGHT WHITE);
     white_bishops := square_mask (pieces board BISHOP WHITE);
     white_rooks := square_mask (pieces board ROOK WHITE);
     white_queens := square_mask (pieces board QUEEN WHITE);
     white_king := square_mask (pieces board KING WHITE);
     black_pawns := square_mask (pieces board PAWN BLACK);
     black_knights := square_mask (pieces board KNIGHT BLACK);
     black_bishops := square_mask (pieces board BISHOP BLACK);
     black_rooks := square_mask (pieces board ROOK BLACK);
     black_queens := square_mask (pieces board QUEEN BLACK);
     black_king := square_mask (pieces board KING BLACK);
     white_to_move := turn board;
     castling_rights := board_castling_rights board;
     en_passant_square :=
       match board_ep_square board with
       | Some sq => sq
       | None => -1
       end |}.

(** [Board.to_bitboards] (engine/board.py) *)
Definition to_bitboards `{B : BoardState} (board : ref) : M BitboardPosition :=
  let* b := board_of board in ret (from_chess_board b).

(** ** ml/encoding.py

    A two-dimensional [float32] array is a list of rows; the entries the
    code writes are [0.0] and [1.0], here the integers 0 and 1. *)

Definition BOARD_SIZE : nat := 8.

Abbreviation plane := (list (list Z)) (only parsing).

(** [np.full((rows, cols), v)]; [np.zeros] is [np.full] of [0.0]. *)
Definition np_full (rows cols : nat) (v : Z) : plane := replicate rows (replicate cols v).
Definition np_zeros (rows cols : nat) : plane := np_full rows cols 0.

(** [plane[rank, file]] *)
Definition cell (p : plane) (rank file : nat) : option Z :=
  p !! rank ≫= (λ row, row !! file).

(** [plane[rank, file] = v], for indices inside the array (the code
    computes them as [square // 8] and [square % 8] with [square] in
    [range(64)]). *)
Definition set_cell (p : plane) (rank file : nat) (v : Z) : plane :=
  alter (λ row, <[file := v]> row) rank p.

(** [plane[:, file] = v] *)
Definition set_column (p : plane) (file : nat) (v : Z) : plane :=
  (λ row, <[file := v]> row) <$> p.

Definition bitboard_to_plane (bb : Z) : plane :=
  foldl (λ plane square,
           if Z.land (Z.shiftr bb (Z.of_nat square)) 1 =? 0 then plane
           else
             let rank := (square / 8)%nat in
             let file := (square mod 8)%nat in
             set_cell plane rank file 1)
        (np_zeros BOARD_SIZE BOARD_SIZE) (seq 0 64).

Definition encode_position `{B : BoardState} (board : Pos) : list plane :=
  let bb := from_chess_board board in
  let planes :=
    [ bitboard_to_plane (white_pawns bb);
      bitboard_to_plane (white_knights bb);
      bitboard_to_plane (white_bishops bb);
      bitboard_to_plane (white_rooks bb);
      bitboard_to_plane (white_queens bb);
      bitboard_to_plane (white_king bb);
      bitboard_to_plane (black_pawns bb);
      bitboard_to_plane (black_knights bb);
      bitboard_to_plane (black_bishops bb);
      bitboard_to_plane (black_rooks bb);
      bitboard_to_plane (black_queens bb);
      bitboard_to_plane (black_king bb) ] in
  let stm_plane :=
    np_full BOARD_SIZE BOARD_SIZE (if white_to_move bb then 1 else 0) in
  let planes := planes ++ [stm_plane] in
  let wk := np_full BOARD_SIZE BOARD_SIZE
                    (if has_kingside_castling_rights board WHITE then 1 else 0) in
  let wq := np_full BOARD_SIZE BOARD_SIZE
                    (if has_queenside_castling_rights board WHITE then 1 else 0) in
  let bk := np_full BOARD_SIZE BOARD_SIZE
                    (if has_kingside_castling_rights board BLACK then 1 else 0) in
  let bq := np_full BOARD_SIZE BOARD_SIZE
                    (if has_queenside_castling_rights board BLACK then 1 else 0) in
  let planes := planes ++ [wk; wq; bk; bq] in
  let ep_plane := np_zeros BOARD_SIZE BOARD_SIZE in
  let ep_plane :=
    if en_passant_square bb =? -1 then ep_plane
    else
      let ep_file := Z.to_nat (en_passant_square bb mod 8) in
      set_column ep_plane ep_file 1 in
  planes ++ [ep_plane].

(** The channel of a piece type inside the block of its colour
    (P, N, B, R, Q, K), and the first channel of each colour. *)
Definition piece_channel (piece_type : PieceType) : nat :=
  match piece_type with
  | PAWN => 0
  | KNIGHT => 1
  | BISHOP => 2
  | ROOK => 3
  | QUEEN => 4
  | KING => 5
  end.

Definition colour_channel (color : Color) : nat := if color then 0%nat else 6%nat.

(** An array of [rows] rows of [cols] entries. *)
Definition has_shape (rows cols : nat) (p : plane) : Prop :=
  length p = rows ∧ Forall (λ row, length row = cols) p.

(** The boards of [Layout] with castling rights for White's king side only
    and a given en-passant square. *)
Definition layout_board_state (ep : option Z) : @BoardState Layout.rules :=
  {| board_castling_rights := λ _, 128;
     board_ep_square := λ _, ep;
     has_kingside_castling_rights := λ _ (c : Color), c;
     has_queenside_castling_rights := λ _ _, false |}.

(** ** ml/parse_pgn.py

    A [chess.pgn.Game] as the generator uses it: its headers, the position
    [game.board()] it starts from, and the moves of its main line (the
    moves met by following [node.variation(0)] until [node.is_end()]). *)
Record Game `{R : Rules} : Type := mkGame {
  headers : gmap string string;
  game_board : Pos;
  mainline : list Move;
}.
Arguments mkGame {R} headers game_board mainline.

(** The result from White's perspective, [None] for an unfinished game.
    The values are the floats [1.0], [-1.0] and [0.0], here integers. *)
Definition game_result_value `{R : Rules} (game : Game) : option Z :=
  let res := default "*" (headers game !! "Result") in
  if String.eqb res "1-0" then Some 1
  else if String.eqb res "0-1" then Some (-1)
  else if String.eqb res "1/2-1/2" then Some 0
  else None.

(** A yielded pair [(pos_tensor, pos_value)]. *)
Definition value_sample : Type := list plane * Z.

(** Where the generator stands: still running, with the number of pairs
    yielded so far; ended by the [return] at the cap; ended by an
    exception of [board.push] (as in the search, a push of a move that is
    not legal counts as rejected). *)
Inductive progress : Type :=
  | Running (count : Z)
  | CapReached
  | PushFailed.

Section ParsePgn.
Context `{B : BoardState}.

(** [max_positions is not None and count >= max_positions] *)
Definition cap_reached (max_positions : option Z) (count : Z) : bool :=
  match max_positions with
  | Some max_positions => max_positions <=? count
  | None => false
  end.

(** The [while not node.is_end()] loop over one game: the pairs it yields,
    in order, and where the generator stands after it. *)
Fixpoint game_samples (max_positions : option Z) (game_value_white : Z)
    (board : Pos) (moves : list Move) (count : Z) : list value_sample * progress :=
  match moves with
  | [] => ([], Running count)
  | move :: moves =>
    let pos_value := game_value_white in
    let pos_value := if turn board then pos_value else - pos_value in
    let pos_tensor := encode_position board in
    let count := count + 1 in
    if cap_reached max_positions count then ([(pos_tensor, pos_value)], CapReached)
    else if bool_decide (move ∈ legal_moves board) then
      let '(rest, p) :=
        game_samples max_positions game_value_white (push board move) moves count in
      ((pos_tensor, pos_value) :: rest, p)
    else ([(pos_tensor, pos_value)], PushFailed)
  end.

(** [for game in iterate_games(pgn_path): ...]; [games] are the games
    [iterate_games] yields, that is the games [chess.pgn.read_game]
    returns in turn before it returns [None]. *)
Fixpoint samples_from (max_positions : option Z) (games : list Game) (count : Z)
    : list value_sample * progress :=
  match games with
  | [] => ([], Running count)
  | game :: games =>
    match game_result_value game with
    | None => samples_from max_positions games count
    | Some game_value_white =>
      match game_samples max_positions game_value_white (game_board game)
                         (mainline game) count with
      | (out, Running count) =>
        let '(rest, p) := samples_from max_positions games count in
        (out ++ rest, p)
      | (out, p) => (out, p)
      end
    end
  end.

(** The pairs the generator yields when it is run to its end. *)
Definition generate_value_samples_from_pgn (games : list Game)
    (max_positions : option Z) : list value_sample * progress :=
  samples_from max_positions games 0.
End ParsePgn.

(** The positions of a game before each of its moves: the starting
    position, the position after the first move, and so on, without the
    position after the last move. *)
Fixpoint positions_before `{R : Rules} (board : Pos) (moves : list Move) : list Pos :=
  match moves with
  | [] => []
  | move :: moves => board :: positions_before (push board move) moves
  end.

(** Every move of the main line is legal where it is played. *)
Fixpoint mainline_legal `{R : Rules} (board : Pos) (moves : list Move) : Prop :=
  match moves with
  | [] => True
  | move :: moves => move ∈ legal_moves board ∧ mainline_legal (push board move) moves
  end.

(** The pairs a finished game with value [game_value_white] stands for:
    each position before a move, with the value seen by the side to move. *)
Definition labelled_positions `{B : BoardState} (game : Game) : list value_sample :=
  match game_result_value game with
  | Some game_value_white =>
    (λ board, (encode_position board,
               if turn board then game_value_white else - game_value_white))
      <$> positions_before (game_board game) (mainline game)
  | None => []
  end.

(** The small rules provider has no castling and no en-passant capture. *)
Definition toy_board_state : @BoardState Toy.rules :=
  {| board_castling_rights := λ _, 0;
     board_ep_square := λ _, None;
     has_kingside_castling_rights := λ _ _, false;
     has_queenside_castling_rights := λ _ _, false |}.

Definition toy_game (res : string) : @Game Toy.rules :=
  mkGame {[ "Result" := res ]} Toy.full [Toy.TakeFirst; Toy.Quiet; Toy.TakeSecond].

(** ** scripts/trim_pgn.py *)

Definition newline : string := String (Ascii.ascii_of_nat 10) EmptyString.

Section TrimPgn.
(** The games of the input file, as [chess.pgn.read_game(fin)] returns them
    in turn before it returns [None], and [str(game)]. *)
Context {G : Type}.
Variable str : G → string.

(** [while count < max_games: ...]; returns what is left of the input, the
    text written and the final [count]. *)
Fixpoint trim_loop (max_games : Z) (fin : list G) (fout : string) (count : Z)
    : list G * string * Z :=
  if count <? max_games then
    match fin with
    | [] => (fin, fout, count)
    | game :: fin =>
      let fout := fout +:+ str game in
      let fout := fout +:+ newline +:+ newline in
      trim_loop max_games fin fout (count + 1)
    end
  else (fin, fout, count).

Definition trim_pgn (fin : list G) (max_games : Z) : list G * string * Z :=
  trim_loop max_games fin "" 0.
End TrimPgn.

(** ** scripts/lichess_bot.py *)

(** [chess.Board(fen)] for the strings python-chess accepts as a FEN;
    [pick_move] passes it the FEN of a board. *)
Class FenReader `{R : Rules} : Type := {
  Board_of_fen : string → Pos;
}.

Section LichessBot.
Context `{F : FenReader}.
Variable clock : nat → Z.
Variable rand : nat → nat.

(** [Board(fen)] (engine/board.py): a new object holding
    [chess.Board(fen)]. *)
Definition Board_init (fen : string) : M ref :=
  λ s, Ok (length (heap s))
          (mkState (heap s ++ [Board_of_fen fen]) (TRANSPOSITION_TABLE s)
                   (ticks s) (draws s) (calls s)).

(** [pick_move(board)], for the live [chess.Board] of the game. *)
Definition pick_move (fuel : nat) (board : Pos) : M (option Move) :=
  let* engine_board := Board_init (fen board) in
  search_best_move clock rand fuel engine_board 3 None.
End LichessBot.

(** Reading back the keys of the small rules provider. *)
Definition toy_bit (c : Ascii.ascii) : bool := String.eqb (String c "") "1".

Definition toy_of_fen (s : string) : Toy.position :=
  match s with
  | String a (String b (String c (String d (String e _)))) =>
    Toy.mkPos (toy_bit a) (toy_bit b) (toy_bit c) (toy_bit d) (toy_bit e)
  | _ => Toy.full
  end.

Definition toy_fen_reader : @FenReader Toy.rules :=
  {| Board_of_fen := toy_of_fen |}.

(** ** Classes of scores

    A class [good] of scores, and what it takes for the search to stay
    inside it: the two ends of the window are in the class or still at
    their initial infinity. *)

(** Scores between [-MATE_SCORE] and [MATE_SCORE]. *)
Definition within_mate (x : score) : bool :=
  match x with
  | Fin z => (- MATE_SCORE <=? z) && (z <=? MATE_SCORE)
  | _ => false
  end.

(** Every score cached in the table is in the class. *)
Definition tt_scores `{R : Rules} (good : score → bool) (s : state) : Prop :=
  ∀ (key : string) (e : TTEntry),
    TRANSPOSITION_TABLE s !! key = Some e → good (entry_score e) = true.

Definition lower_ok (good : score → bool) (alpha : score) : Prop :=
  alpha = NInf ∨ good alpha = true.

Definition upper_ok (good : score → bool) (beta : score) : Prop :=
  beta = PInf ∨ good beta = true.

(** What a search routine entered with the window [(alpha, beta)] and the
    perspective [color] does to the table: it removes no key, and from a
    table of scores in the class, a proper window with ends in the class
    and a perspective in [colours], it returns a score in the class and
    leaves a table of scores in the class. *)
Definition scores_kept `{R : Rules} (good : score → bool) (colours : Z → Prop)
    (alpha beta : score) (color : Z) (s : state) (v : score) (s' : state) : Prop :=
  keys_kept s s' ∧
  (tt_scores good s → slt alpha beta = true → colours color →
   lower_ok good alpha → upper_ok good beta →
   good v = true ∧ tt_scores good s').

(** Every entry of the table of [s'] was already there in [s] or has a
    depth from 1 to [D]. *)
Definition stores_upto `{R : Rules} (D : Z) (s s' : state) : Prop :=
  ∀ (key : string) (e : TTEntry),
    TRANSPOSITION_TABLE s' !! key = Some e →
    TRANSPOSITION_TABLE s !! key = Some e ∨ 1 <= entry_depth e <= D.

(** * Properties *)

(** ** The order on scores *)

Lemma slt_not_sle (a b : score) : slt a b = negb (sle b a).
Proof. destruct a, b; simpl; try reflexivity. apply Z.ltb_antisym. Qed.

Lemma sle_refl (a : score) : sle a a = true.
Proof. destruct a; simpl; try reflexivity. apply Z.leb_refl. Qed.

Lemma sle_trans (a b c : score) : sle a b = true → sle b c = true → sle a c = true.
Proof.
  destruct a, b, c; simpl; try congruence.
  rewrite !Z.leb_le. lia.
Qed.

Lemma slt_sle (a b : score) : slt a b = true → sle a b = true.
Proof. destruct a, b; simpl; try congruence. rewrite Z.ltb_lt, Z.leb_le. lia. Qed.

Lemma sle_false_slt (a b : score) : sle a b = false → slt b a = true.
Proof. rewrite slt_not_sle. intros ->. reflexivity. Qed.

Lemma slt_false_sle (a b : score) : slt a b = false → sle b a = true.
Proof. rewrite slt_not_sle. destruct (sle b a); simpl; congruence. Qed.

Lemma sneg_slt (a b : score) : slt (sneg b) (sneg a) = slt a b.
Proof.
  destruct a, b; simpl; try reflexivity.
  destruct (Z.ltb_spec z z0), (Z.ltb_spec (- z0) (- z)); (reflexivity || lia).
Qed.

Lemma sle_smax_l (a b : score) : sle a (smax a b) = true.
Proof.
  unfold smax. destruct (slt a b) eqn:E; [by apply slt_sle | apply sle_refl].
Qed.

Lemma sle_smax_r (a b : score) : sle b (smax a b) = true.
Proof.
  unfold smax. destruct (slt a b) eqn:E; [apply sle_refl | by apply slt_false_sle].
Qed.

(** ** The evaluator on finished games *)

Section EvalFacts.
Context `{R : Rules}.

Lemma evaluate_game_over (b : Pos) :
  is_game_over b = true →
  evaluate b =
    if String.eqb (result b) "1-0" then MATE_SCORE
    else if String.eqb (result b) "0-1" then - MATE_SCORE
    else 0.
Proof. intros H. unfold evaluate. rewrite H. reflexivity. Qed.

(** C7.  On a position where the game is over, [evaluate] is [+MATE_SCORE]
    for a White win ("1-0"), [-MATE_SCORE] for a Black win ("0-1") and [0]
    for a draw ("1/2-1/2"); it looks at nothing but the result, so two
    finished positions with the same result get the same value whatever
    pieces are on the board. *)
Theorem evaluate_terminal (b : Pos) :
  is_game_over b = true →
  (result b = "1-0" → evaluate b = MATE_SCORE) ∧
  (result b = "0-1" → evaluate b = - MATE_SCORE) ∧
  (result b = "1/2-1/2" → evaluate b = 0) ∧
  (∀ b' : Pos, is_game_over b' = true → result b' = result b →
               evaluate b' = evaluate b).
Proof.
  intros Hover. rewrite (evaluate_game_over b Hover).
  repeat split.
  - intros ->. reflexivity.
  - intros ->. reflexivity.
  - intros ->. reflexivity.
  - intros b' Hover' Hres. rewrite (evaluate_game_over b' Hover'), Hres.
    reflexivity.
Qed.
End EvalFacts.

(** ** Rules of the program logic *)

Section Logic.
Context `{R : Rules}.

Lemma wp_ret {A} (a : A) s (Q : A → state → Prop) : Q a s → wp (ret a) s Q.
Proof. intros H. exact H. Qed.

Lemma wp_bind {A B} (m : M A) (k : A → M B) s (Q : B → state → Prop) :
  wp m s (λ a s', wp (k a) s' Q) → wp (bind m k) s Q.
Proof. unfold wp, bind. destruct (m s); auto. Qed.

Lemma wp_mono {A} (m : M A) s (Q Q' : A → state → Prop) :
  wp m s Q → (∀ a s', Q a s' → Q' a s') → wp m s Q'.
Proof. unfold wp. destruct (m s); auto. Qed.

Lemma wp_run {A} (m : M A) s (Q : A → state → Prop) :
  wp m s Q → ∃ a s', m s = Ok a s' ∧ Q a s'.
Proof. unfold wp. destruct (m s) as [a s'| |]; [eauto | tauto | tauto]. Qed.

Lemma quiet_refl s : quiet s s.
Proof. by repeat split. Qed.

Lemma quiet_trans s1 s2 s3 : quiet s1 s2 → quiet s2 s3 → quiet s1 s3.
Proof. intros (?&?&?) (?&?&?). repeat split; congruence. Qed.

Lemma evolves_refl ok s : evolves ok s s.
Proof.
  split; [done | | auto | auto].
  exists []. rewrite app_nil_r. split; [done | by constructor].
Qed.

Lemma evolves_trans ok s1 s2 s3 :
  evolves ok s1 s2 → evolves ok s2 s3 → evolves ok s1 s3.
Proof.
  intros [H1 (k1 & E1 & F1) T1 L1] [H2 (k2 & E2 & F2) T2 L2]. split.
  - by etrans.
  - exists (k1 ++ k2). rewrite E2, E1, app_assoc. split; [done |].
    intros Hok. apply Forall_app. auto.
  - intros key e He. destruct (T2 key e He) as [He1 | ?]; auto.
  - auto.
Qed.

Lemma evolves_weaken (ok ok' : Prop) s1 s2 :
  (ok' → ok) → evolves ok s1 s2 → evolves ok' s1 s2.
Proof.
  intros Himp [H1 (k & E & F) T L]. split; [done | | done | done].
  exists k. auto.
Qed.

Lemma tt_legal_same s s' :
  TRANSPOSITION_TABLE s' = TRANSPOSITION_TABLE s → tt_legal s → tt_legal s'.
Proof. unfold tt_legal. intros ->. auto. Qed.

Lemma quiet_evolves ok s s' : quiet s s' → evolves ok s s'.
Proof.
  intros (Hh & Ht & Hc). split.
  - by rewrite Hh.
  - exists []. rewrite app_nil_r. split; [done | by constructor].
  - intros key e. rewrite Ht. auto.
  - by apply tt_legal_same.
Qed.

Lemma evolves_tt_legal ok s0 s : evolves ok s0 s → tt_legal s0 → tt_legal s.
Proof. intros [_ _ _ L]. exact L. Qed.

Lemma evolves_quiet ok s0 s s' : evolves ok s0 s → quiet s s' → evolves ok s0 s'.
Proof. intros H Hq. eapply evolves_trans; [exact H | by apply quiet_evolves]. Qed.

Lemma evolves_lookup ok s0 s (board : ref) (b : Pos) :
  evolves ok s0 s → heap s0 !! board = Some b → heap s !! board = Some b.
Proof. intros [H _ _] Hb. by eapply prefix_lookup_Some. Qed.

Lemma quiet_lookup s s' (board : ref) (b : Pos) :
  quiet s s' → heap s !! board = Some b → heap s' !! board = Some b.
Proof. intros (-> & _ & _). done. Qed.
End Logic.

(** ** The primitive effects *)

Section Primitives.
Context `{R : Rules}.
Variable clock : nat → Z.
Variable rand : nat → nat.

Lemma wp_board_of (board : ref) (b : Pos) s (Q : Pos → state → Prop) :
  heap s !! board = Some b → Q b s → wp (board_of board) s Q.
Proof. intros Hb HQ. unfold wp, board_of. by rewrite Hb. Qed.

Lemma wp_evaluate_board (board : ref) (b : Pos) s (Q : Z → state → Prop) :
  heap s !! board = Some b → Q (evaluate b) s → wp (evaluate_board board) s Q.
Proof.
  intros Hb HQ. apply wp_bind, (wp_board_of _ b); [done |]. by apply wp_ret.
Qed.

Lemma wp_generate_legal_moves (board : ref) (b : Pos) s
    (Q : list Move → state → Prop) :
  heap s !! board = Some b → Q (legal_moves b) s →
  wp (generate_legal_moves board) s Q.
Proof.
  intros Hb HQ. apply wp_bind, (wp_board_of _ b); [done |]. by apply wp_ret.
Qed.

Lemma wp_Board_turn (board : ref) (b : Pos) s (Q : Color → state → Prop) :
  heap s !! board = Some b → Q (turn b) s → wp (Board_turn board) s Q.
Proof.
  intros Hb HQ. apply wp_bind, (wp_board_of _ b); [done |]. by apply wp_ret.
Qed.

Lemma wp_time_time s (Q : Z → state → Prop) :
  (∀ now s', quiet s s' → Q now s') → wp (time_time clock) s Q.
Proof. intros HQ. apply HQ. by repeat split. Qed.

Lemma wp_time_is_up start_time max_time s (Q : bool → state → Prop) :
  (∀ up s', quiet s s' → Q up s') → wp (time_is_up clock start_time max_time) s Q.
Proof.
  intros HQ. destruct max_time as [mt|]; simpl.
  - apply wp_bind, wp_time_time. intros now s' Hq. by apply wp_ret, HQ.
  - apply wp_ret, HQ, quiet_refl.
Qed.

Lemma wp_randbelow n s (Q : nat → state → Prop) :
  (∀ s', quiet s s' → Q (rand (draws s) mod n)%nat s') → wp (randbelow rand n) s Q.
Proof. intros HQ. apply HQ. by repeat split. Qed.

Lemma wp_enter f alpha beta s (Q : unit → state → Prop) :
  (∀ s', entered f alpha beta s s' → Q tt s') → wp (enter f alpha beta) s Q.
Proof. intros HQ. apply HQ. by repeat split. Qed.

Lemma entered_evolves f alpha beta s s' :
  entered f alpha beta s s' → evolves (slt alpha beta = true) s s'.
Proof.
  intros (Hh & Ht & _ & _ & Hc). split.
  - by rewrite Hh.
  - eexists. split; [exact Hc |]. intros Hok. by repeat constructor.
  - intros key e. rewrite Ht. auto.
  - by apply tt_legal_same.
Qed.

Lemma entered_lookup f alpha beta s s' (board : ref) (b : Pos) :
  entered f alpha beta s s' → heap s !! board = Some b → heap s' !! board = Some b.
Proof. intros (-> & _). done. Qed.

Lemma wp_copy_push {A} (board : ref) (b : Pos) (move : Move) (k : ref → M A) s
    (Q : A → state → Prop) :
  heap s !! board = Some b →
  move ∈ legal_moves b →
  (∀ s', child_made b move s s' → wp (k (length (heap s))) s' Q) →
  wp (let* child := Board_copy board in
      let* _ := Board_push child move in k child) s Q.
Proof.
  intros Hb Hlegal HQ. unfold Board_copy.
  apply wp_bind, wp_bind, (wp_board_of _ b); [done |].
  unfold wp at 1. unfold Board_push.
  apply wp_bind, wp_bind, (wp_board_of _ b).
  { simpl. by rewrite lookup_app_r, Nat.sub_diag. }
  rewrite bool_decide_eq_true_2 by done.
  unfold wp at 1. apply HQ. repeat split; simpl.
  replace (length (heap s)) with (length (heap s) + 0)%nat at 1 by lia.
  by rewrite insert_app_r.
Qed.

Lemma child_made_evolves ok b move s s' : child_made b move s s' → evolves ok s s'.
Proof.
  intros (Hh & Ht & _ & _ & Hc). split.
  - rewrite Hh. by apply prefix_app_r.
  - exists []. rewrite app_nil_r. split; [done | by constructor].
  - intros key e. rewrite Ht. auto.
  - by apply tt_legal_same.
Qed.

Lemma child_made_lookup b move s s' :
  child_made b move s s' → heap s' !! length (heap s) = Some (push b move).
Proof. intros (-> & _). by rewrite lookup_app_r, Nat.sub_diag. Qed.

Lemma wp_tt_get key s (Q : option TTEntry → state → Prop) :
  Q (TRANSPOSITION_TABLE s !! key) s → wp (tt_get key) s Q.
Proof. intros HQ. exact HQ. Qed.

(** *** Shuffling keeps the elements *)

Lemma elem_of_insert_inv {A} (l : list A) i x y :
  y ∈ <[i:=x]> l → y = x ∨ y ∈ l.
Proof.
  intros [j Hj]%list_elem_of_lookup.
  apply list_lookup_insert_Some in Hj as [(_ & -> & _) | (_ & Hj)]; [by left |].
  right. by eapply list_elem_of_lookup_2.
Qed.

Lemma elem_of_swap {A} (x : list A) i j y : y ∈ swap x i j → y ∈ x.
Proof.
  unfold swap. destruct (x !! i) as [xi|] eqn:Hi; [| done].
  destruct (x !! j) as [xj|] eqn:Hj; [| done].
  intros [-> | [-> | H]%elem_of_insert_inv]%elem_of_insert_inv;
    [by eapply list_elem_of_lookup_2 | by eapply list_elem_of_lookup_2 | done].
Qed.

Lemma wp_shuffle_from {A} (i : nat) (x : list A) s (Q : list A → state → Prop) :
  (∀ x' s', quiet s s' → (∀ y, y ∈ x' → y ∈ x) → Q x' s') →
  wp (shuffle_from rand i x) s Q.
Proof.
  revert x s Q. induction i as [|i IH]; intros x s Q HQ; simpl.
  - apply wp_ret, HQ; [apply quiet_refl | auto].
  - apply wp_bind, wp_randbelow. intros s1 Hq1.
    apply IH. intros x' s' Hq Hsub. apply HQ.
    + by eapply quiet_trans.
    + intros y Hy. eapply elem_of_swap. eauto.
Qed.

Lemma wp_shuffle {A} (x : list A) s (Q : list A → state → Prop) :
  (∀ x' s', quiet s s' → (∀ y, y ∈ x' → y ∈ x) → Q x' s') →
  wp (shuffle rand x) s Q.
Proof. apply wp_shuffle_from. Qed.

(** [_order_moves] returns moves of the list it was given, and the table
    move if there is one; it changes no object and no table entry. *)
Lemma wp_order_moves (board : ref) (b : Pos) moves tt_move s
    (Q : list Move → state → Prop) :
  heap s !! board = Some b →
  (∀ ordered s', quiet s s' →
     (∀ m, m ∈ ordered → m ∈ moves ∨ tt_move = Some m) → Q ordered s') →
  wp (_order_moves rand board moves tt_move) s Q.
Proof.
  intros Hb HQ. unfold _order_moves.
  apply wp_bind, (wp_board_of _ b); [done |].
  apply wp_bind, wp_shuffle. intros cs s1 Hq1 Hcs.
  apply wp_bind, wp_shuffle. intros qs s2 Hq2 Hqs.
  apply wp_ret, HQ; [by eapply quiet_trans |].
  intros m [Hm | [Hm | Hm]%elem_of_app]%elem_of_app.
  - destruct tt_move as [t|]; [| by apply not_elem_of_nil in Hm].
    apply list_elem_of_singleton in Hm as ->. by right.
  - left. apply Hcs in Hm.
    apply list_elem_of_filter in Hm as [_ Hm].
    by apply list_elem_of_filter in Hm as [_ Hm].
  - left. apply Hqs in Hm.
    apply list_elem_of_filter in Hm as [_ Hm].
    by apply list_elem_of_filter in Hm as [_ Hm].
Qed.

(** [random.choice] on a non-empty sequence returns one of its elements. *)
Lemma wp_choice {A} (seq : list A) s (Q : A → state → Prop) :
  seq ≠ [] →
  (∀ x s', quiet s s' → x ∈ seq → Q x s') →
  wp (choice rand seq) s Q.
Proof.
  intros Hne HQ. unfold choice. destruct seq as [|a seq']; [done |].
  set (l := a :: seq') in *.
  apply wp_bind, wp_randbelow. intros s' Hq.
  assert (rand (draws s) mod length l < length l)%nat as Hlt.
  { apply Nat.mod_upper_bound. simpl. lia. }
  apply lookup_lt_is_Some_2 in Hlt as [x Hx]. rewrite Hx.
  apply wp_ret, HQ; [done |]. by eapply list_elem_of_lookup_2.
Qed.
End Primitives.

(** ** Quiescence search *)

Section QuiescenceFacts.
Context `{R : Rules}.
Variable clock : nat → Z.

Lemma quiescence_loop_spec (rec : ref → score → score → Z → M score)
    (board : ref) (b : Pos) (beta : score) (color : Z) (sp : score) (n : nat) :
  (∀ child b' a bt c s,
     heap s !! child = Some b' → (piece_count b' < n)%nat →
     wp (rec child a bt c) s (λ _ s', evolves (slt a bt = true) s s')) →
  ∀ (moves : list Move) (alpha : score) (s : state) (ok : Prop),
    heap s !! board = Some b →
    Forall (λ m, m ∈ legal_moves b ∧ (piece_count (push b m) < n)%nat) moves →
    (ok → slt alpha beta = true) →
    sle sp alpha = true → slt sp beta = true →
    wp (quiescence_loop rec board beta color alpha moves) s
       (λ v s', evolves ok s s' ∧ sle sp v = true).
Proof.
  intros Hrec moves. induction moves as [|move moves IH];
    intros alpha s ok Hb Hmoves Hok Hsp Hspb; simpl.
  - apply wp_ret. split; [apply evolves_refl | done].
  - apply Forall_cons in Hmoves as [[Hlegal Hmove] Hmoves].
    apply (wp_copy_push _ b); [done | done |]. intros s1 Hs1.
    apply wp_bind.
    eapply wp_mono;
      [apply (Hrec _ (push b move)); [by eapply child_made_lookup | done] |].
    intros r s2 Hs2. simpl.
    assert (evolves ok s s2) as Hev.
    { eapply evolves_trans; [by eapply child_made_evolves |].
      eapply evolves_weaken; [| exact Hs2]. rewrite sneg_slt. exact Hok. }
    destruct (sle beta (sneg r)) eqn:Hcut.
    + apply wp_ret. split; [done |].
      eapply sle_trans; [by apply slt_sle | done].
    + eapply wp_mono.
      * apply (IH _ s2 ok); [by eapply evolves_lookup | done | | | done].
        -- intros Hk. destruct (slt alpha (sneg r)); [by apply sle_false_slt | auto].
        -- destruct (slt alpha (sneg r)) eqn:Hlt; [| done].
           eapply sle_trans; [exact Hsp | by apply slt_sle].
      * intros v s3 [Hs3 Hv]. split; [by eapply evolves_trans | done].
Qed.

Hypothesis captures_take_a_piece : captures_decrease.

(** [_quiescence] returns as soon as its budget exceeds the number of
    pieces; the objects present before the call are untouched, every call
    below a proper window has a proper window, and the value is at least
    the stand-pat value. *)
Lemma quiescence_spec (start_time : Z) (max_time : option Z) :
  ∀ (fuel : nat) (board : ref) (b : Pos) (alpha beta : score) (color : Z) s,
    heap s !! board = Some b →
    (piece_count b < fuel)%nat →
    wp (_quiescence clock fuel board alpha beta color start_time max_time) s
       (λ v s', evolves (slt alpha beta = true) s s' ∧
                sle (Fin (color * evaluate b)) v = true).
Proof.
  induction fuel as [|fuel IH]; intros board b alpha beta color s Hb Hfuel;
    [lia |].
  simpl. apply wp_bind, wp_enter. intros s1 Hs1.
  apply wp_bind, wp_time_is_up. intros up s2 Hs2.
  assert (heap s2 !! board = Some b) as Hb2.
  { eapply quiet_lookup; [done |]. by eapply entered_lookup. }
  assert (evolves (slt alpha beta = true) s s2) as Hev.
  { eapply evolves_quiet; [by eapply entered_evolves | done]. }
  destruct up.
  { apply wp_bind, (wp_evaluate_board _ b); [done |].
    apply wp_ret. split; [done | exact (sle_refl (Fin (color * evaluate b)))]. }
  apply wp_bind, (wp_evaluate_board _ b); [done |].
  set (sp := Fin (color * evaluate b)).
  destruct (sle beta sp) eqn:Hcut.
  { apply wp_ret. split; [done | exact (sle_refl (Fin (color * evaluate b)))]. }
  apply wp_bind, (wp_generate_legal_moves _ b); [done |].
  apply wp_bind, (wp_board_of _ b); [done |].
  destruct (filter (λ m, is_capture b m = true) (legal_moves b))
    as [|move moves] eqn:Hcaps.
  { apply wp_ret. split; [done | exact (sle_refl (Fin (color * evaluate b)))]. }
  rewrite <- Hcaps.
  eapply wp_mono.
  - apply (quiescence_loop_spec _ board b beta color sp fuel).
    + intros child b' a bt c s' Hb' Hlt.
      eapply wp_mono; [by apply (IH child b') |]. by intros v s'' [? _].
    + exact Hb2.
    + apply Forall_forall. intros m [Hcap Hm]%list_elem_of_filter.
      split; [done |].
      specialize (captures_take_a_piece b m Hm Hcap). lia.
    + instantiate (1 := slt alpha beta = true). intros Hok.
      destruct (slt alpha sp); [by apply sle_false_slt | done].
    + destruct (slt alpha sp) eqn:Hlt; [apply sle_refl | by apply slt_false_sle].
    + by apply sle_false_slt.
  - intros v s3 [Hs3 Hv]. split; [by eapply evolves_trans | done].
Qed.
End QuiescenceFacts.

(** ** Negamax *)

Section NegamaxFacts.
Context `{R : Rules}.
Variable clock : nat → Z.
Variable rand : nat → nat.

Lemma wp_tt_put key entry s (Q : unit → state → Prop) :
  (∀ s', stored key entry s s' → Q tt s') → wp (tt_put key entry) s Q.
Proof. intros HQ. apply HQ. by repeat split. Qed.

Lemma stored_evolves ok key entry s s' :
  stored key entry s s' →
  entry_node_type entry = UPPERBOUND →
  (∀ m b, entry_best_move entry = Some m → fen b = key → m ∈ legal_moves b) →
  evolves ok s s'.
Proof.
  intros (Hh & Ht & _ & _ & Hc) Hub Hbest. split.
  - by rewrite Hh.
  - exists []. rewrite app_nil_r. split; [done | by constructor].
  - intros k e. rewrite Ht. destruct (decide (key = k)) as [-> | Hne].
    + rewrite lookup_insert_eq. intros [= <-]. by right.
    + rewrite lookup_insert_ne by done. auto.
  - intros Hlegal k e m b. rewrite Ht. destruct (decide (key = k)) as [-> | Hne].
    + rewrite lookup_insert_eq. intros [= <-]. apply Hbest.
    + rewrite lookup_insert_ne by done. apply Hlegal.
Qed.

(** The table lookup keeps a proper window proper. *)
Lemma tt_probe_window entry depth alpha beta alpha' beta' :
  tt_probe entry depth alpha beta = inr (alpha', beta') →
  slt alpha beta = true → slt alpha' beta' = true.
Proof.
  unfold tt_probe. destruct entry as [e|]; [| by intros [= <- <-]].
  destruct (depth <=? entry_depth e); [| by intros [= <- <-]].
  destruct (entry_node_type e); [done | |].
  - destruct (sle beta (smax alpha (entry_score e))) eqn:E; [done |].
    intros [= <- <-] _. by apply sle_false_slt.
  - destruct (sle (smin beta (entry_score e)) alpha) eqn:E; [done |].
    intros [= <- <-] _. by apply sle_false_slt.
Qed.

(** With the running maximum [value] never above [alpha] on entry, the
    move loop ends with [value <= alpha]: [alpha] has been raised to every
    value seen.  The best move it reports is one of the moves it was
    given. *)
Lemma negamax_loop_spec (rec : ref → score → score → Z → M score)
    (board : ref) (b : Pos) (beta : score) (color : Z) :
  (∀ child b' a bt c s,
     heap s !! child = Some b' → tt_legal s →
     wp (rec child a bt c) s (λ _ s', evolves (slt a bt = true) s s')) →
  ∀ (moves : list Move) (value : score) (best : option Move) (alpha : score)
    (s : state) (ok : Prop),
    heap s !! board = Some b →
    tt_legal s →
    (∀ m, m ∈ moves → m ∈ legal_moves b) →
    (∀ m, best = Some m → m ∈ legal_moves b) →
    (ok → slt alpha beta = true) →
    sle value alpha = true →
    wp (negamax_loop rec board beta color value best alpha moves) s
       (λ r s', evolves ok s s' ∧ sle (r.1.1) (r.2) = true ∧
                ∀ m, r.1.2 = Some m → m ∈ legal_moves b).
Proof.
  intros Hrec moves. induction moves as [|move moves IH];
    intros value best alpha s ok Hb Htt Hmoves Hbest Hok Hva; simpl.
  - apply wp_ret. split; [apply evolves_refl | done].
  - assert (move ∈ legal_moves b) as Hmove by (apply Hmoves; by left).
    apply (wp_copy_push _ b); [done | done |]. intros s1 Hs1.
    apply wp_bind.
    eapply wp_mono.
    { apply (Hrec _ (push b move)); [by eapply child_made_lookup |].
      eapply (evolves_tt_legal True); [by eapply child_made_evolves | done]. }
    intros r s2 Hs2. simpl.
    assert (evolves ok s s2) as Hev.
    { eapply evolves_trans; [by eapply child_made_evolves |].
      eapply evolves_weaken; [| exact Hs2]. rewrite sneg_slt. exact Hok. }
    set (vb := if slt value (sneg r) then (sneg r, Some move) else (value, best)).
    assert (∀ m, vb.2 = Some m → m ∈ legal_moves b) as Hvb.
    { subst vb. destruct (slt value (sneg r)); simpl; [| done]. by intros m [= <-]. }
    destruct vb as [value' best'].
    destruct (sle beta (smax alpha value')) eqn:Hcut.
    + apply wp_ret. split; [done |]. split; [apply sle_smax_r | done].
    + eapply wp_mono.
      * apply (IH value' best' (smax alpha value') s2 ok);
          [by eapply evolves_lookup | by eapply evolves_tt_legal | | done | |
           apply sle_smax_r].
        -- intros m Hm. apply Hmoves. by right.
        -- intros _. by apply sle_false_slt.
      * intros v s3 (Hs3 & Hv & Hm). split; [by eapply evolves_trans | done].
Qed.

Hypothesis same_fen_same_moves : fen_determines_moves.

Lemma negamax_node_spec (rec : ref → score → score → Z → M score)
    (depth : Z) (board : ref) (b : Pos) (alpha beta : score) (color : Z)
    (tt_move : option Move) (s : state) (ok : Prop) :
  (∀ child b' a bt c s,
     heap s !! child = Some b' → tt_legal s →
     wp (rec child a bt c) s (λ _ s', evolves (slt a bt = true) s s')) →
  heap s !! board = Some b →
  tt_legal s →
  (∀ m, tt_move = Some m → m ∈ legal_moves b) →
  (ok → slt alpha beta = true) →
  wp (negamax_node rand rec depth board alpha beta color (fen b) tt_move) s
     (λ v s', evolves ok s s' ∧
              (legal_moves b ≠ [] →
               ∃ best, TRANSPOSITION_TABLE s' !! fen b =
                         Some (mkTTEntry depth v UPPERBOUND best))).
Proof.
  intros Hrec Hb Htt Hmove Hok. unfold negamax_node.
  apply wp_bind, (wp_generate_legal_moves _ b); [done |].
  destruct (legal_moves b) as [|m0 ms] eqn:Hlegal.
  { apply wp_bind, (wp_board_of _ b); [done |].
    destruct (is_checkmate b); apply wp_ret; (split; [apply evolves_refl | done]). }
  rewrite <- Hlegal in *.
  apply wp_bind, (wp_order_moves _ _ b); [done |].
  intros ordered s1 Hs1 Hord.
  apply wp_bind. eapply wp_mono.
  { apply (negamax_loop_spec rec board b beta color Hrec ordered NInf None alpha s1 ok);
      [by eapply quiet_lookup | eapply (evolves_tt_legal True); [by eapply quiet_evolves | done]
       | | done | done | done].
    intros m Hm. destruct (Hord m Hm); auto. }
  intros [[value best] alpha'] s2 (Hs2 & Hva & Hbest). simpl in Hva, Hbest.
  rewrite Hva.
  apply wp_bind, wp_tt_put. intros s3 Hs3. apply wp_ret. split.
  - eapply evolves_trans; [by apply quiet_evolves |].
    eapply evolves_trans; [exact Hs2 |].
    eapply stored_evolves; [done | done |].
    simpl. intros m b' Hm Hfen. rewrite (same_fen_same_moves b' b Hfen). auto.
  - intros _. exists best. destruct Hs3 as (_ & -> & _).
    by rewrite lookup_insert_eq.
Qed.

Lemma negamax_unfold fuel depth board alpha beta color start_time max_time :
  _negamax clock rand fuel depth board alpha beta color start_time max_time =
  (let* _ := enter NEGAMAX alpha beta in
   let* up := time_is_up clock start_time max_time in
   if up then
     let* e := evaluate_board board in ret (Fin (color * e))
   else
     let* b := board_of board in
     let fen_key := fen b in
     let* entry := tt_get fen_key in
     match tt_probe entry (Z.of_nat depth) alpha beta with
     | inl v => ret v
     | inr (alpha, beta) =>
       match depth with
       | O => _quiescence clock fuel board alpha beta color start_time max_time
       | S depth' =>
         negamax_node rand
           (λ child a b c,
              _negamax clock rand fuel depth' child a b c start_time max_time)
           (Z.of_nat depth) board alpha beta color fen_key (tt_move_of entry)
       end
     end).
Proof. destruct depth; reflexivity. Qed.

Lemma tt_move_of_legal s (b : Pos) :
  tt_legal s →
  ∀ m, tt_move_of (TRANSPOSITION_TABLE s !! fen b) = Some m → m ∈ legal_moves b.
Proof.
  intros Htt m. destruct (TRANSPOSITION_TABLE s !! fen b) as [e|] eqn:He; [| done].
  simpl. intros Hm. by eapply Htt.
Qed.

Hypothesis captures_take_a_piece : captures_decrease.

(** The board is finite: no position has more than [max_pieces] pieces. *)
Variable max_pieces : nat.
Hypothesis pieces_bounded : ∀ b : Pos, (piece_count b ≤ max_pieces)%nat.

Lemma negamax_spec (fuel : nat) (start_time : Z) (max_time : option Z) :
  (max_pieces < fuel)%nat →
  ∀ (depth : nat) (board : ref) (b : Pos) (alpha beta : score) (color : Z) s,
    heap s !! board = Some b →
    tt_legal s →
    wp (_negamax clock rand fuel depth board alpha beta color start_time max_time) s
       (λ _ s', evolves (slt alpha beta = true) s s').
Proof.
  intros Hfuel. induction depth as [|depth IH];
    intros board b alpha beta color s Hb Htt; rewrite negamax_unfold.
  all: apply wp_bind, wp_enter; intros s1 Hs1.
  all: apply wp_bind, wp_time_is_up; intros up s2 Hs2.
  all: assert (heap s2 !! board = Some b) as Hb2
         by (eapply quiet_lookup; [done |]; by eapply entered_lookup).
  all: assert (evolves (slt alpha beta = true) s s2) as Hev
         by (eapply evolves_quiet; [by eapply entered_evolves | done]).
  all: assert (tt_legal s2) as Htt2 by by eapply evolves_tt_legal.
  all: destruct up;
    [apply wp_bind, (wp_evaluate_board _ b); [done |]; by apply wp_ret |].
  all: apply wp_bind, (wp_board_of _ b); [done |].
  all: apply wp_bind, wp_tt_get.
  all: match goal with
       | |- context [tt_probe ?e ?d ?a ?bt] =>
         destruct (tt_probe e d a bt) as [v | [alpha' beta']] eqn:Hprobe
       end; [by apply wp_ret |].
  all: pose proof (tt_probe_window _ _ _ _ _ _ Hprobe) as Hwin.
  - eapply wp_mono.
    + apply (quiescence_spec clock captures_take_a_piece start_time max_time
               fuel board b alpha' beta' color s2 Hb2).
      specialize (pieces_bounded b). lia.
    + intros v s3 [Hs3 _]. eapply evolves_trans; [exact Hev |].
      eapply evolves_weaken; [| exact Hs3]. exact Hwin.
  - eapply wp_mono.
    + apply (negamax_node_spec _ _ board b alpha' beta' color _ s2
               (slt alpha beta = true)); [| done | done | | done].
      * intros child b' a bt c s' Hb' Htt'. by apply (IH child b').
      * by apply tt_move_of_legal.
    + intros v s3 [Hs3 _]. by eapply evolves_trans.
Qed.
End NegamaxFacts.

(** ** The root search and the iterative-deepening driver *)

Section RootFacts.
Context `{R : Rules}.
Variable clock : nat → Z.
Variable rand : nat → nat.

Lemma root_loop_spec (rec : ref → score → score → Z → M score)
    (board : ref) (b : Pos) (beta : score) (color : Z)
    (start_time : Z) (max_time : option Z) :
  (∀ child b' a bt c s,
     heap s !! child = Some b' → tt_legal s →
     wp (rec child a bt c) s (λ _ s', evolves (slt a bt = true) s s')) →
  ∀ (moves : list Move) (best_score : score) (best : option Move)
    (alpha : score) (s : state),
    heap s !! board = Some b →
    tt_legal s →
    slt alpha beta = true →
    (∀ m, best = Some m → m ∈ legal_moves b) →
    (∀ m, m ∈ moves → m ∈ legal_moves b) →
    wp (root_loop clock rec board beta color start_time max_time
                  best_score best alpha moves) s
       (λ r s', evolves True s s' ∧ ∀ m, r.2 = Some m → m ∈ legal_moves b).
Proof.
  intros Hrec moves. induction moves as [|move moves IH];
    intros best_score best alpha s Hb Htt Hwin Hbest Hmoves; simpl.
  - apply wp_ret. split; [apply evolves_refl | done].
  - apply wp_bind, wp_time_is_up. intros up s0 Hs0.
    destruct up.
    { apply wp_ret. split; [by apply quiet_evolves | done]. }
    assert (move ∈ legal_moves b) as Hmove by (apply Hmoves; by left).
    apply (wp_copy_push _ b); [by eapply quiet_lookup | done |]. intros s1 Hs1.
    assert (evolves True s s1) as Hev1.
    { eapply evolves_trans; [by apply quiet_evolves | by eapply child_made_evolves]. }
    apply wp_bind.
    eapply wp_mono.
    { apply (Hrec _ (push b move)); [by eapply child_made_lookup |].
      by eapply evolves_tt_legal. }
    intros r s2 Hs2. simpl.
    assert (evolves True s s2) as Hev.
    { eapply evolves_trans; [exact Hev1 |].
      eapply evolves_weaken; [| exact Hs2]. intros _. by rewrite sneg_slt. }
    set (sb := if slt best_score (sneg r) then (sneg r, Some move)
               else (best_score, best)).
    assert (∀ m, sb.2 = Some m → m ∈ legal_moves b) as Hsb.
    { subst sb. destruct (slt best_score (sneg r)); simpl; [| done].
      by intros m [= <-]. }
    destruct sb as [best_score' best'].
    destruct (sle beta (smax alpha (sneg r))) eqn:Hcut.
    + apply wp_ret. split; done.
    + eapply wp_mono.
      * apply (IH best_score' best' (smax alpha (sneg r)) s2);
          [by eapply evolves_lookup | by eapply evolves_tt_legal
           | by apply sle_false_slt | done |].
        intros m Hm. apply Hmoves. by right.
      * intros v s3 [Hs3 Hv]. split; [by eapply evolves_trans | done].
Qed.

Hypothesis same_fen_same_moves : fen_determines_moves.
Hypothesis captures_take_a_piece : captures_decrease.
Variable max_pieces : nat.
Hypothesis pieces_bounded : ∀ b : Pos, (piece_count b ≤ max_pieces)%nat.

Lemma negamax_root_spec (fuel : nat) (board : ref) (b : Pos) (depth : nat)
    (start_time : Z) (max_time : option Z) s :
  (max_pieces < fuel)%nat →
  heap s !! board = Some b →
  tt_legal s →
  wp (_negamax_root clock rand fuel board depth start_time max_time) s
     (λ r s', evolves True s s' ∧ ∀ m, r.2 = Some m → m ∈ legal_moves b).
Proof.
  intros Hfuel Hb Htt. unfold _negamax_root.
  apply wp_bind, (wp_generate_legal_moves _ b); [done |].
  destruct (legal_moves b) as [|m0 ms] eqn:Hlegal.
  { apply wp_bind, (wp_evaluate_board _ b); [done |].
    apply wp_ret. split; [apply evolves_refl | done]. }
  rewrite <- Hlegal in *.
  apply wp_bind, (wp_order_moves _ _ b); [done |].
  intros ordered s1 Hs1 Hord.
  apply wp_bind, (wp_Board_turn _ b); [by eapply quiet_lookup |].
  eapply wp_mono.
  - apply (root_loop_spec _ board b PInf _ start_time max_time).
    + intros child b' a bt c s' Hb' Htt'.
      by apply (negamax_spec clock rand same_fen_same_moves captures_take_a_piece
                  max_pieces pieces_bounded fuel start_time max_time Hfuel
                  _ child b').
    + by eapply quiet_lookup.
    + eapply (evolves_tt_legal True); [by apply quiet_evolves | done].
    + done.
    + done.
    + intros m Hm. by destruct (Hord m Hm).
  - intros r s2 [Hs2 Hr]. split; [| done].
    eapply evolves_trans; [by apply quiet_evolves | done].
Qed.

Lemma deepening_loop_spec (fuel : nat) (board : ref) (b : Pos)
    (start_time : Z) (max_time : option Z) :
  (max_pieces < fuel)%nat →
  ∀ (depths : list nat) (best_score : score) (best : option Move) s,
    heap s !! board = Some b →
    tt_legal s →
    (∀ m, best = Some m → m ∈ legal_moves b) →
    wp (deepening_loop clock rand fuel board start_time max_time
                       best_score best depths) s
       (λ r s', evolves True s s' ∧ ∀ m, r.2 = Some m → m ∈ legal_moves b).
Proof.
  intros Hfuel depths. induction depths as [|d depths IH];
    intros best_score best s Hb Htt Hbest; simpl.
  - apply wp_ret. split; [apply evolves_refl | done].
  - apply wp_bind, wp_time_is_up. intros up s0 Hs0.
    destruct up.
    { apply wp_ret. split; [by apply quiet_evolves | done]. }
    apply wp_bind. eapply wp_mono.
    { apply (negamax_root_spec fuel board b d start_time max_time s0 Hfuel);
        [by eapply quiet_lookup |].
      eapply (evolves_tt_legal True); [by apply quiet_evolves | done]. }
    intros [score move] s1 [Hs1 Hmove]. simpl in Hmove.
    assert (evolves True s s1) as Hev.
    { eapply evolves_trans; [by apply quiet_evolves | done]. }
    assert (heap s1 !! board = Some b) as Hb1 by by eapply evolves_lookup.
    assert (tt_legal s1) as Htt1 by by eapply evolves_tt_legal.
    destruct move as [m|].
    + eapply wp_mono; [by apply (IH score (Some m) s1) |].
      intros r s2 [Hs2 Hr]. split; [by eapply evolves_trans | done].
    + eapply wp_mono; [by apply (IH best_score best s1) |].
      intros r s2 [Hs2 Hr]. split; [by eapply evolves_trans | done].
Qed.

Lemma search_best_move_spec (fuel : nat) (board : ref) (b : Pos) (depth : Z)
    (max_time : option Z) s :
  (max_pieces < fuel)%nat →
  heap s !! board = Some b →
  tt_legal s →
  wp (search_best_move clock rand fuel board depth max_time) s
     (λ r s', evolves True s s' ∧
              match r with
              | Some m => m ∈ legal_moves b
              | None => legal_moves b = []
              end).
Proof.
  intros Hfuel Hb Htt. unfold search_best_move.
  apply wp_bind, wp_time_time. intros start_time s0 Hs0.
  apply wp_bind, (wp_Board_turn _ b); [by eapply quiet_lookup |].
  apply wp_bind. eapply wp_mono.
  { apply (deepening_loop_spec fuel board b start_time max_time Hfuel
             (seq 1 (Z.to_nat depth)) _ None s0);
      [by eapply quiet_lookup | | done].
    eapply (evolves_tt_legal True); [by apply quiet_evolves | done]. }
  intros [best_score best] s1 [Hs1 Hbest]. simpl in Hbest.
  assert (evolves True s s1) as Hev.
  { eapply evolves_trans; [by apply quiet_evolves | done]. }
  destruct best as [m|].
  { apply wp_ret. split; [done | by apply Hbest]. }
  apply wp_bind, (wp_generate_legal_moves _ b); [by eapply evolves_lookup |].
  destruct (legal_moves b) as [|m0 ms] eqn:Hlegal.
  { apply wp_ret. split; done. }
  apply wp_bind, wp_choice; [done |]. intros m s2 Hs2 Hm.
  apply wp_ret. split; [by eapply evolves_quiet | done].
Qed.
End RootFacts.

(** ** The head of [_negamax]: time check and table lookup *)

Section NegamaxHead.
Context `{R : Rules}.
Variable clock : nat → Z.
Variable rand : nat → nat.

Lemma wp_returned {A} (m : M A) s (x : A) :
  wp m s (λ v _, v = x) → returned (m s) = Some x.
Proof. unfold wp, returned. destruct (m s); [by intros -> | done | done]. Qed.

Lemma time_is_up_run start_time max_time s f alpha beta :
  time_is_up clock start_time max_time
    (mkState (heap s) (TRANSPOSITION_TABLE s) (ticks s) (draws s)
             (calls s ++ [(f, alpha, beta)])) =
  Ok (deadline_passed clock start_time max_time s)
     (after_time_check f alpha beta max_time s).
Proof. destruct max_time; reflexivity. Qed.

(** With the deadline passed, [_negamax] returns the static value seen from
    the side to move. *)
Lemma negamax_run_timeout fuel depth board b alpha beta color start_time max_time s :
  heap s !! board = Some b →
  deadline_passed clock start_time max_time s = true →
  _negamax clock rand fuel depth board alpha beta color start_time max_time s =
  Ok (Fin (color * evaluate b)) (after_time_check NEGAMAX alpha beta max_time s).
Proof.
  intros Hb Hup. rewrite negamax_unfold.
  unfold bind at 1. unfold enter at 1. unfold bind at 1.
  rewrite time_is_up_run, Hup.
  unfold evaluate_board, bind, board_of, ret. simpl. by rewrite Hb.
Qed.

(** Otherwise it looks the position up and either returns the cached score
    or goes on to search with the window the lookup left. *)
Lemma negamax_run_head fuel depth board b alpha beta color start_time max_time s :
  heap s !! board = Some b →
  deadline_passed clock start_time max_time s = false →
  _negamax clock rand fuel depth board alpha beta color start_time max_time s =
  match tt_probe (TRANSPOSITION_TABLE s !! fen b) (Z.of_nat depth) alpha beta with
  | inl v => Ok v (after_time_check NEGAMAX alpha beta max_time s)
  | inr (alpha', beta') =>
    negamax_search clock rand fuel depth board alpha' beta' color
                   start_time max_time (fen b)
                   (tt_move_of (TRANSPOSITION_TABLE s !! fen b))
                   (after_time_check NEGAMAX alpha beta max_time s)
  end.
Proof.
  intros Hb Hup. rewrite negamax_unfold.
  unfold bind at 1. unfold enter at 1. unfold bind at 1.
  rewrite time_is_up_run, Hup.
  unfold bind at 1. unfold board_of at 1. simpl. rewrite Hb.
  unfold bind at 1. unfold tt_get at 1. simpl.
  destruct (tt_probe _ _ alpha beta) as [v | [alpha' beta']]; [done |].
  by destruct depth.
Qed.

Lemma tt_probe_unusable (entry : option TTEntry) depth alpha beta :
  (∀ e, entry = Some e → entry_depth e < depth) →
  tt_probe entry depth alpha beta = inr (alpha, beta).
Proof.
  intros Hun. unfold tt_probe. destruct entry as [e|]; [| done].
  specialize (Hun e eq_refl).
  destruct (Z.leb_spec depth (entry_depth e)); [lia | done].
Qed.

(** A node without legal moves: mate or stalemate. *)
Lemma negamax_node_no_moves rec depth board b alpha beta color fen_key tt_move s :
  heap s !! board = Some b →
  legal_moves b = [] →
  negamax_node rand rec depth board alpha beta color fen_key tt_move s =
  Ok (if is_checkmate b then Fin (- color * MATE_SCORE) else Fin 0) s.
Proof.
  intros Hb Hnone.
  unfold negamax_node, generate_legal_moves, bind, board_of, ret.
  rewrite Hb, Hnone, Hb. by destruct (is_checkmate b).
Qed.

Lemma quiescence_no_captures_wp fuel board b alpha beta color start_time max_time s :
  heap s !! board = Some b →
  filter (λ m, is_capture b m = true) (legal_moves b) = [] →
  wp (_quiescence clock (S fuel) board alpha beta color start_time max_time) s
     (λ v _, v = Fin (color * evaluate b)).
Proof.
  intros Hb Hcaps. simpl.
  apply wp_bind, wp_enter. intros s1 Hs1.
  apply wp_bind, wp_time_is_up. intros up s2 Hs2.
  assert (heap s2 !! board = Some b) as Hb2.
  { eapply quiet_lookup; [done |]. by eapply entered_lookup. }
  destruct up.
  { apply wp_bind, (wp_evaluate_board _ b); [done |]. by apply wp_ret. }
  apply wp_bind, (wp_evaluate_board _ b); [done |].
  destruct (sle beta (Fin (color * evaluate b))); [by apply wp_ret |].
  apply wp_bind, (wp_generate_legal_moves _ b); [done |].
  apply wp_bind, (wp_board_of _ b); [done |].
  rewrite Hcaps. by apply wp_ret.
Qed.

Lemma negamax_leaf_no_captures_wp fuel board b alpha beta color start_time max_time s :
  heap s !! board = Some b →
  filter (λ m, is_capture b m = true) (legal_moves b) = [] →
  (∀ e, TRANSPOSITION_TABLE s !! fen b = Some e → entry_depth e < 0) →
  wp (_negamax clock rand (S fuel) 0 board alpha beta color start_time max_time) s
     (λ v _, v = Fin (color * evaluate b)).
Proof.
  intros Hb Hcaps Hun. rewrite negamax_unfold.
  apply wp_bind, wp_enter. intros s1 Hs1.
  apply wp_bind, wp_time_is_up. intros up s2 Hs2.
  assert (heap s2 !! board = Some b) as Hb2.
  { eapply quiet_lookup; [done |]. by eapply entered_lookup. }
  assert (TRANSPOSITION_TABLE s2 = TRANSPOSITION_TABLE s) as Htt.
  { destruct Hs2 as (_ & -> & _). by destruct Hs1 as (_ & -> & _). }
  destruct up.
  { apply wp_bind, (wp_evaluate_board _ b); [done |]. by apply wp_ret. }
  apply wp_bind, (wp_board_of _ b); [done |].
  apply wp_bind, wp_tt_get. rewrite Htt.
  rewrite (tt_probe_unusable _ (Z.of_nat 0) alpha beta Hun).
  by apply quiescence_no_captures_wp.
Qed.
End NegamaxHead.

(** ** The small rules provider satisfies what the search assumes *)

Lemma toy_captures_decrease : @captures_decrease Toy.rules.
Proof.
  intros b m Hin Hcap. apply list_elem_of_In in Hin.
  destruct b as [[] [] [] [] []], m; cbn in *;
    try discriminate; try lia; intuition discriminate.
Qed.

Lemma toy_pieces_bounded (b : Toy.position) : (@piece_count Toy.rules b ≤ 4)%nat.
Proof. destruct b as [[] [] [] [] []]; cbn; lia. Qed.

(** ** The driver's fallback *)

Section Fallback.
Context `{R : Rules}.
Variable clock : nat → Z.
Variable rand : nat → nat.


End Fallback.

(** ** The nesting budget is only a bound

    A run that returns with some budget returns the same value and store
    with any larger one. *)

Section Budget.
Context `{R : Rules}.
Variable clock : nat → Z.
Variable rand : nat → nat.

Lemma refines_refl {A} (m : M A) : refines m m.
Proof. by intros s a s'. Qed.

Lemma refines_bind {A B} (m1 m2 : M A) (k1 k2 : A → M B) :
  refines m1 m2 → (∀ a, refines (k1 a) (k2 a)) →
  refines (bind m1 k1) (bind m2 k2).
Proof.
  intros Hm Hk s b s'. unfold bind.
  destruct (m1 s) as [a s1| |] eqn:E; [| done | done].
  rewrite (Hm s a s1 E). apply Hk.
Qed.

Lemma refines_bind_r {A B} (m : M A) (k1 k2 : A → M B) :
  (∀ a, refines (k1 a) (k2 a)) → refines (bind m k1) (bind m k2).
Proof. apply refines_bind, refines_refl. Qed.

Lemma quiescence_loop_refines (rec1 rec2 : ref → score → score → Z → M score)
    board beta color :
  (∀ child a bt c, refines (rec1 child a bt c) (rec2 child a bt c)) →
  ∀ moves alpha,
    refines (quiescence_loop rec1 board beta color alpha moves)
            (quiescence_loop rec2 board beta color alpha moves).
Proof.
  intros Hrec moves. induction moves as [|move moves IH]; intros alpha; simpl.
  - apply refines_refl.
  - apply refines_bind_r. intros child. apply refines_bind_r. intros _.
    apply refines_bind; [apply Hrec |]. intros r.
    destruct (sle beta (sneg r)); [apply refines_refl | apply IH].
Qed.

Lemma negamax_loop_refines (rec1 rec2 : ref → score → score → Z → M score)
    board beta color :
  (∀ child a bt c, refines (rec1 child a bt c) (rec2 child a bt c)) →
  ∀ moves value best alpha,
    refines (negamax_loop rec1 board beta color value best alpha moves)
            (negamax_loop rec2 board beta color value best alpha moves).
Proof.
  intros Hrec moves. induction moves as [|move moves IH];
    intros value best alpha; simpl.
  - apply refines_refl.
  - apply refines_bind_r. intros child. apply refines_bind_r. intros _.
    apply refines_bind; [apply Hrec |]. intros r.
    destruct (slt value (sneg r));
      match goal with
      | |- context [sle beta ?a] => destruct (sle beta a)
      end; apply refines_refl || apply IH.
Qed.

Lemma root_loop_refines (rec1 rec2 : ref → score → score → Z → M score)
    board beta color start_time max_time :
  (∀ child a bt c, refines (rec1 child a bt c) (rec2 child a bt c)) →
  ∀ moves best_score best alpha,
    refines (root_loop clock rec1 board beta color start_time max_time
                       best_score best alpha moves)
            (root_loop clock rec2 board beta color start_time max_time
                       best_score best alpha moves).
Proof.
  intros Hrec moves. induction moves as [|move moves IH];
    intros best_score best alpha; simpl.
  - apply refines_refl.
  - apply refines_bind_r. intros [|]; [apply refines_refl |].
    apply refines_bind_r. intros child. apply refines_bind_r. intros _.
    apply refines_bind; [apply Hrec |]. intros r.
    destruct (slt best_score (sneg r));
      destruct (sle beta (smax alpha (sneg r))); apply refines_refl || apply IH.
Qed.

Lemma quiescence_unfold fuel board alpha beta color start_time max_time :
  _quiescence clock (S fuel) board alpha beta color start_time max_time =
  (let* _ := enter QUIESCENCE alpha beta in
   let* up := time_is_up clock start_time max_time in
   if up then
     let* e := evaluate_board board in ret (Fin (color * e))
   else
     let* e := evaluate_board board in
     let stand_pat := Fin (color * e) in
     if sle beta stand_pat then ret stand_pat
     else
       let alpha := if slt alpha stand_pat then stand_pat else alpha in
       let* moves := generate_legal_moves board in
       let* b := board_of board in
       let capture_moves := filter (λ m, is_capture b m = true) moves in
       match capture_moves with
       | [] => ret stand_pat
       | _ =>
         quiescence_loop
           (λ child a b c, _quiescence clock fuel child a b c start_time max_time)
           board beta color alpha capture_moves
       end).
Proof. reflexivity. Qed.

Lemma quiescence_budget_step start_time max_time :
  ∀ fuel board alpha beta color,
    refines (_quiescence clock fuel board alpha beta color start_time max_time)
            (_quiescence clock (S fuel) board alpha beta color start_time max_time).
Proof.
  induction fuel as [|fuel IH]; intros board alpha beta color; [done |].
  rewrite (quiescence_unfold (S fuel)), (quiescence_unfold fuel).
  apply refines_bind_r. intros _. apply refines_bind_r.
  intros [|]; [apply refines_refl |].
  apply refines_bind_r. intros e. cbn zeta.
  destruct (sle beta (Fin (color * e))); [apply refines_refl |].
  apply refines_bind_r. intros moves. apply refines_bind_r. intros b.
  destruct (filter _ moves) as [|m ms]; [apply refines_refl |].
  apply quiescence_loop_refines. intros child a bt c. apply IH.
Qed.

Lemma negamax_budget_step start_time max_time fuel :
  ∀ depth board alpha beta color,
    refines (_negamax clock rand fuel depth board alpha beta color
                      start_time max_time)
            (_negamax clock rand (S fuel) depth board alpha beta color
                      start_time max_time).
Proof.
  induction depth as [|depth IH]; intros board alpha beta color;
    rewrite !negamax_unfold.
  all: apply refines_bind_r; intros _; apply refines_bind_r.
  all: intros [|]; [apply refines_refl |].
  all: apply refines_bind_r; intros b; cbn zeta.
  all: apply refines_bind_r; intros entry.
  all: destruct (tt_probe _ _ alpha beta) as [v | [alpha' beta']];
    [apply refines_refl |].
  - apply quiescence_budget_step.
  - unfold negamax_node. apply refines_bind_r. intros [|m ms]; [apply refines_refl |].
    apply refines_bind_r. intros ordered.
    apply refines_bind; [| intros r; apply refines_refl].
    apply negamax_loop_refines. intros child a bt c. apply IH.
Qed.

Lemma negamax_root_budget_step fuel board depth start_time max_time :
  refines (_negamax_root clock rand fuel board depth start_time max_time)
          (_negamax_root clock rand (S fuel) board depth start_time max_time).
Proof.
  unfold _negamax_root. apply refines_bind_r. intros [|m ms]; [apply refines_refl |].
  apply refines_bind_r. intros ordered. apply refines_bind_r. intros t.
  apply root_loop_refines. intros child a bt c. apply negamax_budget_step.
Qed.

Lemma search_best_move_budget_step fuel board depth max_time :
  refines (search_best_move clock rand fuel board depth max_time)
          (search_best_move clock rand (S fuel) board depth max_time).
Proof.
  unfold search_best_move. apply refines_bind_r. intros start_time.
  apply refines_bind_r. intros t.
  apply refines_bind; [| intros r; apply refines_refl].
  generalize (if t then NInf else PInf) (@None Move).
  induction (seq 1 (Z.to_nat depth)) as [|d depths IH]; intros best_score best; simpl.
  - apply refines_refl.
  - apply refines_bind_r. intros [|]; [apply refines_refl |].
    apply refines_bind; [apply negamax_root_budget_step |].
    intros [score [m|]]; apply IH.
Qed.

Lemma budget_steps {A} (f : nat → M A) :
  (∀ fuel, refines (f fuel) (f (S fuel))) →
  ∀ fuel fuel', (fuel ≤ fuel')%nat → refines (f fuel) (f fuel').
Proof.
  intros Hstep fuel fuel' Hle. induction Hle as [|fuel' Hle IH].
  - apply refines_refl.
  - intros s a s' Hrun. by apply Hstep, IH.
Qed.

Lemma quiescence_budget fuel fuel' board alpha beta color start_time max_time :
  (fuel ≤ fuel')%nat →
  refines (_quiescence clock fuel board alpha beta color start_time max_time)
          (_quiescence clock fuel' board alpha beta color start_time max_time).
Proof.
  apply (budget_steps
           (λ n, _quiescence clock n board alpha beta color start_time max_time)).
  intros n. apply quiescence_budget_step.
Qed.

Lemma search_best_move_budget fuel fuel' board depth max_time :
  (fuel ≤ fuel')%nat →
  refines (search_best_move clock rand fuel board depth max_time)
          (search_best_move clock rand fuel' board depth max_time).
Proof.
  apply (budget_steps (λ n, search_best_move clock rand n board depth max_time)).
  intros n. apply search_best_move_budget_step.
Qed.
End Budget.

(** ** The first move a node searches *)

Section FirstChild.
Context `{R : Rules}.
Variable clock : nat → Z.
Variable rand : nat → nat.

(** With a table move, [_order_moves] returns it at the head of the list. *)
Lemma wp_order_moves_head (board : ref) (b : Pos) (moves : list Move) (t : Move) s
    (Q : list Move → state → Prop) :
  heap s !! board = Some b →
  (∀ rest s', quiet s s' → (∀ m, m ∈ rest → m ∈ moves) → Q (t :: rest) s') →
  wp (_order_moves rand board moves (Some t)) s Q.
Proof.
  intros Hb HQ. unfold _order_moves.
  apply wp_bind, (wp_board_of _ b); [done |].
  apply wp_bind, wp_shuffle. intros cs s1 Hq1 Hcs.
  apply wp_bind, wp_shuffle. intros qs s2 Hq2 Hqs.
  apply wp_ret. simpl. apply HQ; [by eapply quiet_trans |].
  intros m [Hm | Hm]%elem_of_app.
  - apply Hcs in Hm. apply list_elem_of_filter in Hm as [_ Hm].
    by apply list_elem_of_filter in Hm as [_ Hm].
  - apply Hqs in Hm. apply list_elem_of_filter in Hm as [_ Hm].
    by apply list_elem_of_filter in Hm as [_ Hm].
Qed.

(** The first child the move loop creates is the position after the first
    move of the list. *)
Lemma negamax_loop_first_child (rec : ref → score → score → Z → M score)
    (board : ref) (b : Pos) (beta : score) (color : Z) :
  (∀ child b' a bt c s,
     heap s !! child = Some b' → tt_legal s →
     wp (rec child a bt c) s (λ _ s', evolves (slt a bt = true) s s')) →
  ∀ (move : Move) (moves : list Move) (value : score) (best : option Move)
    (alpha : score) (s : state),
    heap s !! board = Some b →
    tt_legal s →
    (∀ m, m ∈ move :: moves → m ∈ legal_moves b) →
    (∀ m, best = Some m → m ∈ legal_moves b) →
    wp (negamax_loop rec board beta color value best alpha (move :: moves)) s
       (λ r s', heap s ++ [push b move] `prefix_of` heap s').
Proof.
  intros Hrec move moves value best alpha s Hb Htt Hmoves Hbest.
  cbn [negamax_loop].
  assert (move ∈ legal_moves b) as Hmove by (apply Hmoves; by left).
  apply (wp_copy_push _ b); [done | done |]. intros s1 Hs1.
  assert (heap s1 = heap s ++ [push b move]) as Hheap by by destruct Hs1.
  apply wp_bind. eapply wp_mono.
  { apply (Hrec _ (push b move)); [by eapply child_made_lookup |].
    eapply (evolves_tt_legal True); [by eapply child_made_evolves | done]. }
  intros r s2 Hs2. simpl.
  assert (heap s ++ [push b move] `prefix_of` heap s2) as Hpre.
  { rewrite <- Hheap. by destruct Hs2. }
  set (vb := if slt value (sneg r) then (sneg r, Some move) else (value, best)).
  assert (∀ m, vb.2 = Some m → m ∈ legal_moves b) as Hvb.
  { subst vb. destruct (slt value (sneg r)); simpl; [| done]. by intros m [= <-]. }
  destruct vb as [value' best'].
  destruct (sle beta (smax alpha value')) eqn:Hcut; [by apply wp_ret |].
  eapply wp_mono.
  - apply (negamax_loop_spec rec board b beta color Hrec moves value' best'
             (smax alpha value') s2 False).
    + eapply evolves_lookup; [| exact Hb].
      eapply evolves_trans; [by eapply (child_made_evolves False) |].
      eapply evolves_weaken; [| exact Hs2]. done.
    + eapply evolves_tt_legal; [exact Hs2 |].
      eapply (evolves_tt_legal True); [by eapply child_made_evolves | done].
    + intros m Hm. apply Hmoves. by right.
    + done.
    + done.
    + apply sle_smax_r.
  - intros v s3 [Hs3 _]. etrans; [exact Hpre | by destruct Hs3].
Qed.

Hypothesis same_fen_same_moves : fen_determines_moves.
Hypothesis captures_take_a_piece : captures_decrease.
Variable max_pieces : nat.
Hypothesis pieces_bounded : ∀ b : Pos, (piece_count b ≤ max_pieces)%nat.

(** A node below which the search goes on at a depth of at least 1
    searches the move of the table first. *)
Lemma negamax_search_first_child (fuel depth : nat) (board : ref) (b : Pos)
    (alpha beta : score) (color : Z) (start_time : Z) (max_time : option Z)
    (t : Move) (s : state) :
  (max_pieces < fuel)%nat →
  (1 ≤ depth)%nat →
  heap s !! board = Some b →
  tt_legal s →
  t ∈ legal_moves b →
  wp (negamax_search clock rand fuel depth board alpha beta color
                     start_time max_time (fen b) (Some t)) s
     (λ _ s', heap s ++ [push b t] `prefix_of` heap s').
Proof.
  intros Hfuel Hdepth Hb Htt Ht. destruct depth as [|depth']; [lia |].
  unfold negamax_search, negamax_node.
  apply wp_bind, (wp_generate_legal_moves _ b); [done |].
  destruct (legal_moves b) as [|m0 ms] eqn:Hlegal.
  { by apply not_elem_of_nil in Ht. }
  rewrite <- Hlegal in *.
  apply wp_bind, (wp_order_moves_head _ b); [done |].
  intros rest s1 Hs1 Hrest.
  assert (heap s1 = heap s) as Hheap by by destruct Hs1.
  apply wp_bind. eapply wp_mono.
  { apply (negamax_loop_first_child _ board b beta color).
    - intros child b' a bt c s' Hb' Htt'.
      by apply (negamax_spec clock rand same_fen_same_moves captures_take_a_piece
                  max_pieces pieces_bounded fuel start_time max_time Hfuel
                  depth' child b').
    - by eapply quiet_lookup.
    - eapply (evolves_tt_legal True); [by apply quiet_evolves | done].
    - intros m [-> | Hm]%elem_of_cons; [done | by apply Hrest].
    - done. }
  intros [[value best] alpha'] s2 Hs2. rewrite Hheap in Hs2.
  apply wp_bind, wp_tt_put. intros s3 (Hs3 & _). apply wp_ret.
  by rewrite Hs3.
Qed.
End FirstChild.

(** * The claims *)

Section Claims.
Context `{R : Rules}.
Variable clock : nat → Z.
Variable rand : nat → nat.

Lemma evolves_keeps_boards {A} (m : M A) s (ok : Prop) (Q : A → state → Prop) :
  wp m s (λ a s', evolves ok s s' ∧ Q a s') → keeps_boards m s.
Proof.
  intros (a & s' & Hrun & Hev & _)%wp_run. exists a, s'. split; [done |].
  intros board b. by apply (evolves_lookup ok).
Qed.

Lemma evolves_proper_windows {A} (m : M A) s (ok : Prop) (Q : A → state → Prop) :
  ok → wp m s (λ a s', evolves ok s s' ∧ Q a s') → proper_windows m s.
Proof.
  intros Hok (a & s' & Hrun & [_ (k & Hk & Hall) _] & _)%wp_run.
  exists a, s', k. auto.
Qed.

(** C2.  What the code does on a mated side to move when that side is
    Black ([color = -1]): at [depth >= 1] the mate branch returns
    [+MATE_SCORE], the best score there is, while the leaf path of the same
    routine ([depth = 0], through [_quiescence]) returns [-MATE_SCORE] for
    the same position. *)
Theorem negamax_mated_black_scores_plus_mate (fuel d : nat) (board : ref) (b : Pos)
    (alpha beta : score) (start_time : Z) (max_time : option Z) (s : state) :
  heap s !! board = Some b →
  deadline_passed clock start_time max_time s = false →
  TRANSPOSITION_TABLE s !! fen b = None →
  legal_moves b = [] →
  is_checkmate b = true →
  returned (_negamax clock rand fuel (S d) board alpha beta (-1)
                     start_time max_time s) = Some (Fin MATE_SCORE) ∧
  (is_game_over b = true → result b = "1-0" →
   returned (_negamax clock rand (S fuel) 0 board alpha beta (-1)
                      start_time max_time s) = Some (Fin (- MATE_SCORE))).
Proof.
  intros Hb Hup Htt Hnone Hmate. split.
  - rewrite (negamax_run_head clock rand fuel (S d) board b) by done.
    rewrite Htt. cbn [tt_probe tt_move_of negamax_search].
    rewrite (negamax_node_no_moves rand _ _ board b) by done.
    by rewrite Hmate.
  - intros Hover Hres.
    rewrite (wp_returned _ _ (Fin (-1 * evaluate b))).
    + by rewrite (evaluate_game_over b Hover), Hres.
    + apply negamax_leaf_no_captures_wp; [done | by rewrite Hnone |].
      intros e. by rewrite Htt.
Qed.

(** The same node for either colour, and for stalemate. *)
Lemma negamax_no_legal_moves (fuel d : nat) (board : ref) (b : Pos)
    (alpha beta : score) (color : Z) (start_time : Z) (max_time : option Z)
    (s : state) :
  heap s !! board = Some b →
  deadline_passed clock start_time max_time s = false →
  TRANSPOSITION_TABLE s !! fen b = None →
  legal_moves b = [] →
  returned (_negamax clock rand fuel (S d) board alpha beta color
                     start_time max_time s) =
    Some (if is_checkmate b then Fin (- color * MATE_SCORE) else Fin 0).
Proof.
  intros Hb Hup Htt Hnone.
  rewrite (negamax_run_head clock rand fuel (S d) board b) by done.
  rewrite Htt. cbn [tt_probe tt_move_of negamax_search].
  by rewrite (negamax_node_no_moves rand _ _ board b).
Qed.

(** C3.  What the code stores: a node of [_negamax] that runs its move loop
    always files its value as [UPPERBOUND], whatever the window it was
    entered with and wherever the value lies relative to that window. *)
Theorem negamax_stores_upperbound (max_pieces fuel d : nat) (board : ref) (b : Pos)
    (alpha beta : score) (color : Z) (start_time : Z) (max_time : option Z)
    (s : state) :
  fen_determines_moves →
  captures_decrease →
  (∀ b' : Pos, (piece_count b' ≤ max_pieces)%nat) →
  (max_pieces < fuel)%nat →
  heap s !! board = Some b →
  tt_legal s →
  deadline_passed clock start_time max_time s = false →
  TRANSPOSITION_TABLE s !! fen b = None →
  legal_moves b ≠ [] →
  ∃ (v : score) (s' : state) (best : option Move),
    _negamax clock rand fuel (S d) board alpha beta color start_time max_time s
      = Ok v s' ∧
    TRANSPOSITION_TABLE s' !! fen b =
      Some (mkTTEntry (Z.of_nat (S d)) v UPPERBOUND best).
Proof.
  intros Hfen Hcap Hbound Hfuel Hb Hwf Hup Htt Hlegal.
  rewrite (negamax_run_head clock rand fuel (S d) board b) by done.
  rewrite Htt. cbn [tt_probe tt_move_of negamax_search].
  set (s1 := after_time_check NEGAMAX alpha beta max_time s).
  set (rec := λ child a bt c,
                _negamax clock rand fuel d child a bt c start_time max_time).
  assert (wp (negamax_node rand rec (Z.of_nat (S d)) board alpha beta color
                           (fen b) None) s1
             (λ v s', evolves (slt alpha beta = true) s1 s' ∧
                      (legal_moves b ≠ [] →
                       ∃ best, TRANSPOSITION_TABLE s' !! fen b =
                                 Some (mkTTEntry (Z.of_nat (S d)) v UPPERBOUND best))))
    as (v & s' & Hrun & _ & Hstored)%wp_run.
  { apply (negamax_node_spec rand Hfen); [| done | done | done | done].
    intros child b' a bt c s' Hb' Hwf'.
    by apply (negamax_spec clock rand Hfen Hcap max_pieces Hbound fuel
                start_time max_time Hfuel d child b'). }
  destruct (Hstored Hlegal) as [best Hbest].
  by exists v, s', best.
Qed.

(** C4.  Every call of [_negamax] and [_quiescence] made by a search from
    the root is entered with [alpha < beta]; the same holds below any call
    of either routine that is itself entered with [alpha < beta].  A child
    is searched with the window [(-beta, -alpha)], so no loop goes on to
    another move once [alpha >= beta]. *)
Theorem search_windows_proper (max_pieces fuel : nat) (board : ref) (b : Pos)
    (start_time : Z) (max_time : option Z) (s : state) :
  fen_determines_moves →
  captures_decrease →
  (∀ b' : Pos, (piece_count b' ≤ max_pieces)%nat) →
  (max_pieces < fuel)%nat →
  heap s !! board = Some b →
  tt_legal s →
  (∀ depth : Z,
     proper_windows (search_best_move clock rand fuel board depth max_time) s) ∧
  (∀ depth : nat,
     proper_windows
       (_negamax_root clock rand fuel board (S depth) start_time max_time) s) ∧
  (∀ (depth : nat) (alpha beta : score) (color : Z),
     slt alpha beta = true →
     proper_windows
       (_negamax clock rand fuel depth board alpha beta color start_time max_time) s) ∧
  (∀ (alpha beta : score) (color : Z),
     slt alpha beta = true →
     proper_windows
       (_quiescence clock fuel board alpha beta color start_time max_time) s).
Proof.
  intros Hfen Hcap Hbound Hfuel Hb Htt. repeat split.
  - intros depth. eapply (evolves_proper_windows _ _ True); [done |].
    by apply (search_best_move_spec clock rand Hfen Hcap max_pieces Hbound fuel board b).
  - intros depth. eapply (evolves_proper_windows _ _ True); [done |].
    by apply (negamax_root_spec clock rand Hfen Hcap max_pieces Hbound fuel board b).
  - intros depth alpha beta color Hwin.
    eapply (evolves_proper_windows _ _ _ (λ _ _, True) Hwin).
    eapply wp_mono;
      [by apply (negamax_spec clock rand Hfen Hcap max_pieces Hbound fuel start_time
                   max_time Hfuel depth board b alpha beta color) |].
    by intros v s' Hev.
  - intros alpha beta color Hwin.
    eapply (evolves_proper_windows _ _ _ _ Hwin).
    apply (quiescence_spec clock Hcap start_time max_time fuel board b); [done |].
    specialize (Hbound b). lia.
Qed.

(** C5 (as the code has it).  After the time check, [_negamax] consults the
    entry cached under the position's key.  Its score and bound are used
    only when its depth is at least the requested depth: an [EXACT] score is
    returned at once, a [LOWERBOUND] raises [alpha] to [max(alpha, score)],
    an [UPPERBOUND] lowers [beta] to [min(beta, score)], and the score is
    returned without search exactly when the tightened window has
    [alpha >= beta].  An entry of insufficient depth leaves the window as it
    was.  Whenever the routine goes on, the entry's best move, whatever the
    entry's depth, is handed on with the window.  At a requested depth of 0
    the routine goes on with [_quiescence], which does not look at the
    move.  At a requested depth of at least 1, from a table that suggests
    legal moves only, the move handed on is searched first: the first child
    position the node creates is the position after it. *)
Theorem negamax_table_lookup (fuel depth : nat) (board : ref) (b : Pos)
    (alpha beta : score) (color : Z) (start_time : Z) (max_time : option Z)
    (s : state) :
  heap s !! board = Some b →
  deadline_passed clock start_time max_time s = false →
  let run :=
    _negamax clock rand fuel depth board alpha beta color start_time max_time s in
  let s1 := after_time_check NEGAMAX alpha beta max_time s in
  let search alpha' beta' tt_move :=
    negamax_search clock rand fuel depth board alpha' beta' color
                   start_time max_time (fen b) tt_move s1 in
  (TRANSPOSITION_TABLE s !! fen b = None → run = search alpha beta None) ∧
  (∀ e : TTEntry,
     TRANSPOSITION_TABLE s !! fen b = Some e →
     (entry_depth e < Z.of_nat depth →
      run = search alpha beta (entry_best_move e)) ∧
     (Z.of_nat depth <= entry_depth e →
      match entry_node_type e with
      | EXACT => run = Ok (entry_score e) s1
      | LOWERBOUND =>
        let alpha' := smax alpha (entry_score e) in
        if sle beta alpha' then run = Ok (entry_score e) s1
        else run = search alpha' beta (entry_best_move e)
      | UPPERBOUND =>
        let beta' := smin beta (entry_score e) in
        if sle beta' alpha then run = Ok (entry_score e) s1
        else run = search alpha beta' (entry_best_move e)
      end)) ∧
  (depth = 0%nat →
   ∀ (alpha' beta' : score) (tt_move : option Move),
     search alpha' beta' tt_move =
     _quiescence clock fuel board alpha' beta' color start_time max_time s1) ∧
  (∀ (max_pieces : nat) (t : Move) (alpha' beta' : score),
     (1 ≤ depth)%nat →
     fen_determines_moves →
     captures_decrease →
     (∀ b' : Pos, (piece_count b' ≤ max_pieces)%nat) →
     (max_pieces < fuel)%nat →
     tt_legal s →
     t ∈ legal_moves b →
     ∃ (v : score) (s' : state),
       search alpha' beta' (Some t) = Ok v s' ∧
       heap s ++ [push b t] `prefix_of` heap s').
Proof.
  intros Hb Hup run s1 search. subst run.
  rewrite (negamax_run_head clock rand fuel depth board b) by done.
  split; [| split; [| split]].
  - intros ->. reflexivity.
  - intros e ->. split.
    + intros Hlt. rewrite tt_probe_unusable; [done |]. by intros e' [= <-].
    + intros Hge. unfold tt_probe.
      destruct (Z.leb_spec (Z.of_nat depth) (entry_depth e)); [| lia].
      destruct (entry_node_type e); [done | |]; cbn zeta.
      * by destruct (sle beta (smax alpha (entry_score e))).
      * by destruct (sle (smin beta (entry_score e)) alpha).
  - intros ->. reflexivity.
  - intros max_pieces t alpha' beta' Hdepth Hfen Hcap Hbound Hfuel Htt Ht.
    subst search. cbv beta.
    apply (wp_run (negamax_search clock rand fuel depth board alpha' beta' color
                                  start_time max_time (fen b) (Some t)) s1).
    apply (negamax_search_first_child clock rand Hfen Hcap max_pieces Hbound
             fuel depth board b alpha' beta' color start_time max_time t s1);
      [done | done | done | by apply (tt_legal_same s) | done].
Qed.

(** C6.  On a position without legal captures [_quiescence] returns exactly
    the stand-pat value [color * evaluate(position)], whether or not the
    deadline has passed; so does [_negamax] at [depth = 0] when no cached
    entry is usable. *)
Theorem stand_pat_without_captures (fuel : nat) (board : ref) (b : Pos)
    (alpha beta : score) (color : Z) (start_time : Z) (max_time : option Z)
    (s : state) :
  heap s !! board = Some b →
  filter (λ m, is_capture b m = true) (legal_moves b) = [] →
  returned (_quiescence clock (S fuel) board alpha beta color
                        start_time max_time s) = Some (Fin (color * evaluate b)) ∧
  ((∀ e, TRANSPOSITION_TABLE s !! fen b = Some e → entry_depth e < 0) →
   returned (_negamax clock rand (S fuel) 0 board alpha beta color
                      start_time max_time s) = Some (Fin (color * evaluate b))).
Proof.
  intros Hb Hcaps. split.
  - by apply wp_returned, quiescence_no_captures_wp.
  - intros Hun. by apply wp_returned, negamax_leaf_no_captures_wp.
Qed.

(** C8.  [_quiescence] returns on every position: each nested call is made
    on a copy to which a legal capture has been applied, a capture takes a
    piece off the board, and so the nesting never goes deeper than the
    number of pieces: every nesting budget above that number gives the same
    value and the same final store. *)
Theorem quiescence_terminates (fuel : nat) (board : ref) (b : Pos)
    (alpha beta : score) (color : Z) (start_time : Z) (max_time : option Z)
    (s : state) :
  captures_decrease →
  heap s !! board = Some b →
  (piece_count b < fuel)%nat →
  ∃ (v : score) (s' : state),
    ∀ fuel' : nat, (fuel ≤ fuel')%nat →
      _quiescence clock fuel' board alpha beta color start_time max_time s = Ok v s'.
Proof.
  intros Hcap Hb Hfuel.
  destruct (wp_run _ _ _
              (quiescence_spec clock Hcap start_time max_time fuel board b
                 alpha beta color s Hb Hfuel)) as (v & s' & Hrun & _).
  exists v, s'. intros fuel' Hle.
  by apply (quiescence_budget clock fuel fuel').
Qed.

(** C9.  [search_best_move] and the routines under it return with every
    [Board] object that existed on entry, the caller's among them, holding
    the position it held: moves are pushed only onto objects made by
    [Board.copy] during the call. *)
Theorem search_keeps_boards (max_pieces fuel : nat) (board : ref) (b : Pos)
    (start_time : Z) (max_time : option Z) (s : state) :
  fen_determines_moves →
  captures_decrease →
  (∀ b' : Pos, (piece_count b' ≤ max_pieces)%nat) →
  (max_pieces < fuel)%nat →
  heap s !! board = Some b →
  tt_legal s →
  (∀ depth : Z,
     keeps_boards (search_best_move clock rand fuel board depth max_time) s) ∧
  (∀ depth : nat,
     keeps_boards
       (_negamax_root clock rand fuel board (S depth) start_time max_time) s) ∧
  (∀ (depth : nat) (alpha beta : score) (color : Z),
     keeps_boards
       (_negamax clock rand fuel depth board alpha beta color start_time max_time) s) ∧
  (∀ (alpha beta : score) (color : Z),
     keeps_boards
       (_quiescence clock fuel board alpha beta color start_time max_time) s) ∧
  keeps_boards (evaluate_board board) s ∧
  (∀ (moves : list Move) (tt_move : option Move),
     keeps_boards (_order_moves rand board moves tt_move) s).
Proof.
  intros Hfen Hcap Hbound Hfuel Hb Htt. repeat split.
  - intros depth. eapply (evolves_keeps_boards _ _ True).
    by apply (search_best_move_spec clock rand Hfen Hcap max_pieces Hbound fuel board b).
  - intros depth. eapply (evolves_keeps_boards _ _ True).
    by apply (negamax_root_spec clock rand Hfen Hcap max_pieces Hbound fuel board b).
  - intros depth alpha beta color.
    eapply (evolves_keeps_boards _ _ (slt alpha beta = true) (λ _ _, True)).
    eapply wp_mono;
      [by apply (negamax_spec clock rand Hfen Hcap max_pieces Hbound fuel start_time
                   max_time Hfuel depth board b alpha beta color) |].
    by intros v s' Hev.
  - intros alpha beta color. eapply evolves_keeps_boards.
    apply (quiescence_spec clock Hcap start_time max_time fuel board b); [done |].
    specialize (Hbound b). lia.
  - eapply (evolves_keeps_boards _ _ True (λ _ _, True)).
    apply (wp_evaluate_board _ b); [done |]. split; [apply evolves_refl | done].
  - intros moves tt_move. eapply (evolves_keeps_boards _ _ True (λ _ _, True)).
    apply (wp_order_moves _ _ b); [done |].
    intros ordered s' Hq _. split; [by apply quiet_evolves | done].
Qed.

(** C10.  Whatever the window, the perspective and the state of the clock,
    the value [_quiescence] returns is at least the stand-pat value
    [color * evaluate(position)]. *)
Theorem quiescence_at_least_stand_pat (fuel : nat) (board : ref) (b : Pos)
    (alpha beta : score) (color : Z) (start_time : Z) (max_time : option Z)
    (s : state) :
  captures_decrease →
  heap s !! board = Some b →
  (piece_count b < fuel)%nat →
  ∃ (v : score) (s' : state),
    _quiescence clock fuel board alpha beta color start_time max_time s = Ok v s' ∧
    sle (Fin (color * evaluate b)) v = true.
Proof.
  intros Hcap Hb Hfuel.
  destruct (wp_run _ _ _
              (quiescence_spec clock Hcap start_time max_time fuel board b
                 alpha beta color s Hb Hfuel)) as (v & s' & Hrun & _ & Hv).
  by exists v, s'.
Qed.
End Claims.

(** * The claims on the small rules provider *)

Lemma toy_fen_determines_moves : @fen_determines_moves Toy.rules.
Proof.
  intros [a1 a2 a3 a4 a5] [c1 c2 c3 c4 c5] Hfen.
  assert (a1 = c1 ∧ a2 = c2 ∧ a3 = c3 ∧ a4 = c4 ∧ a5 = c5) as (-> & -> & -> & -> & ->).
  { destruct a1, a2, a3, a4, a5, c1, c2, c3, c4, c5; cbn in Hfen;
      first [discriminate Hfen | by repeat split]. }
  reflexivity.
Qed.

Lemma tt_legal_empty `{R : Rules} (s : state) :
  TRANSPOSITION_TABLE s = ∅ → tt_legal s.
Proof. intros Hempty key e m b. by rewrite Hempty, lookup_empty. Qed.

Lemma toy_tt_legal_entry (p : Toy.position) sc bound (m : Toy.move) :
  m ∈ Toy.toy_legal_moves p →
  @tt_legal Toy.rules (Toy.state_with_entry p sc bound m).
Proof.
  intros Hm key e m' b. unfold Toy.state_with_entry. cbn [TRANSPOSITION_TABLE].
  intros [<- <-]%lookup_singleton_Some [= <-] Hfen.
  by rewrite (toy_fen_determines_moves b p Hfen).
Qed.

Lemma negamax_mated_black_scores_plus_mate_witness :
  returned (_negamax Toy.toy_clock Toy.toy_rand 5 1 0%nat NInf PInf (-1) 0 None
                     (Toy.state0 Toy.mated_black)) = Some (Fin MATE_SCORE) ∧
  returned (_negamax Toy.toy_clock Toy.toy_rand 5 0 0%nat NInf PInf (-1) 0 None
                     (Toy.state0 Toy.mated_black)) = Some (Fin (- MATE_SCORE)).
Proof.
  destruct (negamax_mated_black_scores_plus_mate (R := Toy.rules)
              Toy.toy_clock Toy.toy_rand 4 0 0%nat Toy.mated_black NInf PInf 0 None
              (Toy.state0 Toy.mated_black)) as [Hdeep Hleaf];
    [reflexivity | reflexivity | reflexivity | reflexivity | reflexivity |].
  split; [| apply Hleaf; reflexivity].
  apply (negamax_mated_black_scores_plus_mate (R := Toy.rules)
           Toy.toy_clock Toy.toy_rand 5 0 0%nat Toy.mated_black NInf PInf 0 None
           (Toy.state0 Toy.mated_black)); reflexivity.
Defined.

Lemma negamax_stores_upperbound_witness :
  ∃ v s' best,
    _negamax Toy.toy_clock Toy.toy_rand 5 1 0%nat NInf PInf 1 0 None
             (Toy.state0 Toy.full) = Ok v s' ∧
    TRANSPOSITION_TABLE s' !! Toy.toy_fen Toy.full =
      Some (mkTTEntry 1 v UPPERBOUND best).
Proof.
  apply (negamax_stores_upperbound (R := Toy.rules) Toy.toy_clock Toy.toy_rand
           4 5 0 0%nat Toy.full NInf PInf 1 0 None (Toy.state0 Toy.full)).
  - apply toy_fen_determines_moves.
  - apply toy_captures_decrease.
  - apply toy_pieces_bounded.
  - lia.
  - reflexivity.
  - apply tt_legal_empty. reflexivity.
  - reflexivity.
  - reflexivity.
  - discriminate.
Defined.

(** On the full window the value is strictly inside it, and it is filed as
    an upper bound all the same; on the window (0, 100) the value reaches
    [beta] and is filed as an upper bound as well. *)
Example negamax_files_inside_value_as_upperbound :
  (let run := _negamax Toy.toy_clock Toy.toy_rand 5 1 0%nat NInf PInf 1 0 None
                       (Toy.state0 Toy.full) in
   returned run = Some (Fin 145) ∧
   match run with
   | Ok _ s' => entry_node_type <$> TRANSPOSITION_TABLE s' !! Toy.toy_fen Toy.full
   | _ => None
   end = Some UPPERBOUND) ∧
  (let run := _negamax Toy.toy_clock Toy.toy_rand 5 1 0%nat (Fin 0) (Fin 100) 1 0 None
                       (Toy.state0 Toy.full) in
   returned run = Some (Fin 100) ∧
   match run with
   | Ok _ s' => entry_node_type <$> TRANSPOSITION_TABLE s' !! Toy.toy_fen Toy.full
   | _ => None
   end = Some UPPERBOUND).
Proof. vm_compute. repeat split. Qed.

Lemma search_windows_proper_witness :
  proper_windows (search_best_move Toy.toy_clock Toy.toy_rand 5 0%nat 2 None)
                 (Toy.state0 Toy.full).
Proof.
  destruct (search_windows_proper (R := Toy.rules) Toy.toy_clock Toy.toy_rand
              4 5 0%nat Toy.full 0 None (Toy.state0 Toy.full)) as (Hsearch & _).
  - apply toy_fen_determines_moves.
  - apply toy_captures_decrease.
  - apply toy_pieces_bounded.
  - lia.
  - reflexivity.
  - apply tt_legal_empty. reflexivity.
  - apply Hsearch.
Defined.

(** C5, as stated, fails: an entry filed at depth 1 is of insufficient depth
    for a search to depth 2, yet with it the node returns 135 where it
    returns 165 without it, because the move the entry suggests is searched
    first and cuts the node off. *)
Lemma shallow_entry_changes_negamax_result :
  entry_depth (mkTTEntry (R := Toy.rules) 1 (Fin 0) EXACT (Some Toy.TakeFirst)) < 2 ∧
  returned (_negamax Toy.toy_clock Toy.toy_rand 5 2 0%nat NInf (Fin 50) 1 0 None
                     (Toy.state0 Toy.full)) = Some (Fin 165) ∧
  returned (_negamax Toy.toy_clock Toy.toy_rand 5 2 0%nat NInf (Fin 50) 1 0 None
                     (Toy.state_with_entry Toy.full (Fin 0) EXACT Toy.TakeFirst))
    = Some (Fin 135).
Proof. vm_compute. repeat split. Qed.

Lemma negamax_table_lookup_witness :
  _negamax Toy.toy_clock Toy.toy_rand 5 2 0%nat NInf (Fin 50) 1 0 None
           (Toy.state_with_entry Toy.full (Fin 0) EXACT Toy.TakeFirst) =
  negamax_search Toy.toy_clock Toy.toy_rand 5 2 0%nat NInf (Fin 50) 1 0 None
                 (Toy.toy_fen Toy.full) (Some Toy.TakeFirst)
                 (after_time_check NEGAMAX NInf (Fin 50) None
                    (Toy.state_with_entry Toy.full (Fin 0) EXACT Toy.TakeFirst)) ∧
  ∃ v s',
    negamax_search Toy.toy_clock Toy.toy_rand 5 2 0%nat NInf (Fin 50) 1 0 None
                   (Toy.toy_fen Toy.full) (Some Toy.TakeFirst)
                   (after_time_check NEGAMAX NInf (Fin 50) None
                      (Toy.state_with_entry Toy.full (Fin 0) EXACT Toy.TakeFirst))
      = Ok v s' ∧
    [Toy.full; Toy.toy_push Toy.full Toy.TakeFirst] `prefix_of` heap s'.
Proof.
  destruct (negamax_table_lookup (R := Toy.rules) Toy.toy_clock Toy.toy_rand
              5 2 0%nat Toy.full NInf (Fin 50) 1 0 None
              (Toy.state_with_entry Toy.full (Fin 0) EXACT Toy.TakeFirst))
    as (_ & Hentry & _ & Hfirst); [reflexivity | reflexivity |].
  destruct (Hentry (mkTTEntry (R := Toy.rules) 1 (Fin 0) EXACT (Some Toy.TakeFirst)))
    as [Hshallow _];
    [reflexivity |].
  split; [apply Hshallow; reflexivity |].
  apply (Hfirst 4%nat Toy.TakeFirst NInf (Fin 50)).
  - lia.
  - apply toy_fen_determines_moves.
  - apply toy_captures_decrease.
  - apply toy_pieces_bounded.
  - lia.
  - apply toy_tt_legal_entry. apply (bool_decide_unpack _). by vm_compute.
  - apply (bool_decide_unpack _). by vm_compute.
Defined.

Lemma stand_pat_without_captures_witness :
  returned (_quiescence Toy.toy_clock 1 0%nat NInf PInf 1 0 None
                        (Toy.state0 Toy.lone_white))
    = Some (Fin (1 * evaluate Toy.lone_white)).
Proof.
  destruct (stand_pat_without_captures (R := Toy.rules) Toy.toy_clock Toy.toy_rand
              0 0%nat Toy.lone_white NInf PInf 1 0 None (Toy.state0 Toy.lone_white))
    as [Hq _]; [reflexivity | reflexivity |].
  exact Hq.
Defined.

Lemma evaluate_terminal_witness : evaluate Toy.mated_black = MATE_SCORE.
Proof.
  destruct (evaluate_terminal (R := Toy.rules) Toy.mated_black) as (Hwhite & _);
    [reflexivity |].
  apply Hwhite. reflexivity.
Defined.

Lemma quiescence_terminates_witness :
  ∃ v s',
    ∀ fuel' : nat, (5 ≤ fuel')%nat →
      _quiescence Toy.toy_clock fuel' 0%nat NInf PInf 1 0 None (Toy.state0 Toy.full)
        = Ok v s'.
Proof.
  apply (quiescence_terminates (R := Toy.rules) Toy.toy_clock 5 0%nat Toy.full).
  - apply toy_captures_decrease.
  - reflexivity.
  - vm_compute. lia.
Defined.

Lemma search_keeps_boards_witness :
  keeps_boards (search_best_move Toy.toy_clock Toy.toy_rand 5 0%nat 2 None)
               (Toy.state0 Toy.full).
Proof.
  destruct (search_keeps_boards (R := Toy.rules) Toy.toy_clock Toy.toy_rand
              4 5 0%nat Toy.full 0 None (Toy.state0 Toy.full)) as (Hsearch & _).
  - apply toy_fen_determines_moves.
  - apply toy_captures_decrease.
  - apply toy_pieces_bounded.
  - lia.
  - reflexivity.
  - apply tt_legal_empty. reflexivity.
  - apply Hsearch.
Defined.

Lemma quiescence_at_least_stand_pat_witness :
  ∃ v s',
    _quiescence Toy.toy_clock 5 0%nat (Fin 300) (Fin 200) 1 0 None
                (Toy.state0 Toy.full) = Ok v s' ∧
    sle (Fin (1 * evaluate Toy.full)) v = true.
Proof.
  apply (quiescence_at_least_stand_pat (R := Toy.rules) Toy.toy_clock 5 0%nat Toy.full).
  - apply toy_captures_decrease.
  - reflexivity.
  - vm_compute. lia.
Defined.

(** * Further properties *)

(** ** The evaluator *)

Lemma forall_squares (P : Z → bool) :
  forallb P (map Z.of_nat (seq 0 64)) = true →
  ∀ sq, 0 <= sq < 64 → P sq = true.
Proof.
  intros Hall sq Hsq. rewrite forallb_forall in Hall. apply Hall.
  apply in_map_iff. exists (Z.to_nat sq). split; [lia |].
  apply in_seq. lia.
Qed.

Lemma square_mirror_flips_rank (sq : Z) :
  0 <= sq < 64 → square_mirror sq = 8 * (7 - sq / 8) + sq mod 8.
Proof.
  intros Hsq. apply Z.eqb_eq.
  by apply (forall_squares (λ sq, square_mirror sq =? 8 * (7 - sq / 8) + sq mod 8)).
Qed.

Lemma square_mirror_involutive (sq : Z) : square_mirror (square_mirror sq) = sq.
Proof.
  unfold square_mirror. by rewrite Z.lxor_assoc, Z.lxor_nilpotent, Z.lxor_0_r.
Qed.

Lemma PST_length (pt : PieceType) (endgame : bool) : length (PST pt endgame) = 64%nat.
Proof. by destruct pt, endgame. Qed.

Lemma pst_value_table (pt : PieceType) (sq : Z) (color : Color) (endgame : bool) :
  _pst_value pt sq color endgame =
  table_at (PST pt endgame) (if color then sq else square_mirror sq).
Proof. by destruct pt. Qed.

(** X1.  For a square of the board (0..63) [_pst_value] reads a table entry
    that exists: every table has 64 entries; for White the entry of the
    square itself, for Black the entry of the square with the same file on
    the rank counted from the other side. *)
Theorem pst_value_in_table (pt : PieceType) (sq : Z) (color : Color)
    (endgame : bool) :
  0 <= sq < 64 →
  let idx := if color then sq else 8 * (7 - sq / 8) + sq mod 8 in
  0 <= idx < 64 ∧
  length (PST pt endgame) = 64%nat ∧
  PST pt endgame !! Z.to_nat idx = Some (_pst_value pt sq color endgame).
Proof.
  intros Hsq idx.
  assert (0 <= idx < 64) as Hidx.
  { subst idx. destruct color; [done |].
    assert (0 <= sq / 8 < 8) by (split; [apply Z.div_pos | apply Z.div_lt_upper_bound]; lia).
    pose proof (Z.mod_pos_bound sq 8). lia. }
  split; [done |]. split; [apply PST_length |].
  rewrite pst_value_table.
  replace (if color then sq else square_mirror sq) with idx
    by (subst idx; destruct color; [done | by rewrite square_mirror_flips_rank]).
  unfold table_at. rewrite nth_lookup.
  destruct (lookup_lt_is_Some_2 (PST pt endgame) (Z.to_nat idx)) as [v ->]; [| done].
  rewrite PST_length. lia.
Qed.

Lemma pst_value_in_table_witness :
  PST KNIGHT false !! 61%nat = Some (_pst_value KNIGHT 5 BLACK false).
Proof.
  destruct (pst_value_in_table KNIGHT 5 BLACK false) as (_ & _ & Hlookup); [lia |].
  exact Hlookup.
Defined.

Lemma piece_worth_bounds (pt : PieceType) (color : Color) (endgame : bool) (sq : Z) :
  -50 <= piece_worth pt color endgame sq <= 905.
Proof.
  unfold piece_worth. rewrite pst_value_table. unfold table_at.
  set (n := Z.to_nat _). clearbody n.
  assert (forallb (λ v, (-50 <=? PIECE_VALUES pt + v) && (PIECE_VALUES pt + v <=? 905))
                  (0 :: PST pt endgame) = true) as Hall
    by (by destruct pt, endgame).
  rewrite forallb_forall in Hall.
  assert (In (nth n (PST pt endgame) 0) (0 :: PST pt endgame)) as Hin.
  { destruct (nth_in_or_default n (PST pt endgame) 0) as [Hin | ->];
      [by right | by left]. }
  apply Hall in Hin. apply andb_true_iff in Hin as [Hlo Hhi]. lia.
Qed.

Lemma Zsum_bounds (f : Z → Z) (lo hi : Z) (l : list Z) :
  (∀ x, lo <= f x <= hi) →
  lo * Z.of_nat (length l) <= Zsum (map f l) <= hi * Z.of_nat (length l).
Proof.
  intros Hf. induction l as [|x l IH]; simpl; [lia |].
  specialize (Hf x). lia.
Qed.

Lemma Zsum_Permutation (l l' : list Z) : l ≡ₚ l' → Zsum l = Zsum l'.
Proof. induction 1; simpl; lia. Qed.

Section EvalSum.
Context `{R : Rules}.

Lemma eval_piece_type_sum (b : Pos) (endgame : bool) (score : Z) (pt : PieceType) :
  eval_piece_type b endgame score pt =
  score + Zsum (map (piece_worth pt WHITE endgame) (pieces b pt WHITE))
        - Zsum (map (piece_worth pt BLACK endgame) (pieces b pt BLACK)).
Proof.
  unfold eval_piece_type.
  assert (∀ l s, fold_left (λ score sq, score + PIECE_VALUES pt
                                         + _pst_value pt sq WHITE endgame) l s
                 = s + Zsum (map (piece_worth pt WHITE endgame) l)) as Hw.
  { induction l as [|x l IH]; intros s; simpl; [lia |].
    rewrite IH. unfold piece_worth. lia. }
  assert (∀ l s, fold_left (λ score sq, score - PIECE_VALUES pt
                                         - _pst_value pt sq BLACK endgame) l s
                 = s - Zsum (map (piece_worth pt BLACK endgame) l)) as Hb.
  { induction l as [|x l IH]; intros s; simpl; [lia |].
    rewrite IH. unfold piece_worth. lia. }
  by rewrite Hb, Hw.
Qed.

(** While the game is on, [evaluate] is the balance of material and table
    bonuses plus 10 for the side to move, however the pieces are listed. *)
Lemma evaluate_sum (b : Pos) :
  is_game_over b = false →
  evaluate b = material_balance b (_is_endgame b) + (if turn b then 10 else -10).
Proof.
  intros Hon. unfold evaluate. rewrite Hon.
  unfold material_balance, PIECE_TYPES. cbn [fold_left map Zsum foldr].
  rewrite !eval_piece_type_sum. destruct (turn b); lia.
Qed.

(** No piece is worth more than 905 to either side. *)
Lemma material_balance_bound (b : Pos) (endgame : bool) :
  Z.abs (material_balance b endgame) <= 905 * Z.of_nat (piece_count b).
Proof.
  unfold material_balance, piece_count, PIECE_TYPES. cbn [map Zsum foldr].
  pose proof (λ pt c, Zsum_bounds (piece_worth pt c endgame) (-50) 905 (pieces b pt c)
                        (piece_worth_bounds pt c endgame)) as Hb.
  pose proof (Hb PAWN WHITE). pose proof (Hb PAWN BLACK).
  pose proof (Hb KNIGHT WHITE). pose proof (Hb KNIGHT BLACK).
  pose proof (Hb BISHOP WHITE). pose proof (Hb BISHOP BLACK).
  pose proof (Hb ROOK WHITE). pose proof (Hb ROOK BLACK).
  pose proof (Hb QUEEN WHITE). pose proof (Hb QUEEN BLACK).
  pose proof (Hb KING WHITE). pose proof (Hb KING BLACK).
  clear Hb. lia.
Qed.

Lemma evaluate_within_mate (b : Pos) :
  (piece_count b ≤ 64)%nat → - MATE_SCORE <= evaluate b <= MATE_SCORE.
Proof.
  intros Hcount. destruct (is_game_over b) eqn:Hover.
  - rewrite (evaluate_game_over b Hover). unfold MATE_SCORE.
    destruct (String.eqb _ "1-0"); [lia |]. destruct (String.eqb _ "0-1"); lia.
  - rewrite (evaluate_sum b Hover).
    pose proof (material_balance_bound b (_is_endgame b)) as Hbal.
    unfold MATE_SCORE. destruct (turn b); lia.
Qed.

(** X2.  The mate score dominates: while the game is on, [evaluate] stays
    within 905 per piece plus the 10 for the move, so on a board of at most
    64 pieces it is strictly between [-MATE_SCORE] and [+MATE_SCORE]; on a
    finished game it is one of [-MATE_SCORE], [0], [+MATE_SCORE]. *)
Theorem evaluate_below_mate (b : Pos) :
  (piece_count b ≤ 64)%nat →
  (is_game_over b = false →
   Z.abs (evaluate b) <= 905 * Z.of_nat (piece_count b) + 10 ∧
   - MATE_SCORE < evaluate b < MATE_SCORE) ∧
  (is_game_over b = true →
   evaluate b = MATE_SCORE ∨ evaluate b = - MATE_SCORE ∨ evaluate b = 0).
Proof.
  intros Hcount. split.
  - intros Hon. rewrite (evaluate_sum b Hon).
    pose proof (material_balance_bound b (_is_endgame b)) as Hbal.
    unfold MATE_SCORE. destruct (turn b); lia.
  - intros Hover. rewrite (evaluate_game_over b Hover).
    destruct (String.eqb _ "1-0"); [by left |].
    destruct (String.eqb _ "0-1"); [by right; left | by right; right].
Qed.

Lemma is_endgame_flipped (b b' : Pos) :
  colour_flipped b b' → _is_endgame b' = _is_endgame b.
Proof.
  intros [Hpieces _]. unfold _is_endgame.
  assert (∀ pt c, length (pieces b' pt c) = length (pieces b pt (negb c))) as Hlen.
  { intros pt c. by rewrite (Permutation_length (Hpieces pt c)), length_fmap. }
  rewrite !Hlen. cbn [negb WHITE BLACK].
  by rewrite (Nat.add_comm (length (pieces b QUEEN false))),
             (Nat.add_comm (length (pieces b ROOK false))).
Qed.

Lemma worth_flipped (b b' : Pos) (pt : PieceType) (c : Color) (endgame : bool) :
  colour_flipped b b' →
  Zsum (map (piece_worth pt c endgame) (pieces b' pt c)) =
  Zsum (map (piece_worth pt (negb c) endgame) (pieces b pt (negb c))).
Proof.
  intros [Hpieces _].
  rewrite (Zsum_Permutation _ _ (Permutation_map _ (Hpieces pt c))).
  f_equal. rewrite <- list_fmap_compose. apply map_ext. intros sq.
  unfold piece_worth, compose. rewrite !pst_value_table.
  destruct c; cbn [negb]; by rewrite ?square_mirror_involutive.
Qed.

(** X3.  [evaluate] is fair to the two sides: swapping the colours and
    flipping the board (so that it is the other side's move) negates the
    score of a position in play. *)
Theorem evaluate_colour_flipped (b b' : Pos) :
  colour_flipped b b' →
  is_game_over b = false → is_game_over b' = false →
  evaluate b' = - evaluate b.
Proof.
  intros Hflip Hon Hon'.
  rewrite (evaluate_sum b Hon), (evaluate_sum b' Hon').
  rewrite (is_endgame_flipped b b' Hflip).
  unfold material_balance, PIECE_TYPES. cbn [map Zsum foldr].
  rewrite !(worth_flipped b b' _ WHITE), !(worth_flipped b b' _ BLACK) by done.
  unfold WHITE, BLACK. cbn [negb].
  destruct Hflip as [_ ->]. destruct (turn b); cbn [negb]; lia.
Qed.
End EvalSum.

Lemma layout_sample_flipped :
  @colour_flipped Layout.rules Layout.sample Layout.sample_flipped.
Proof. split; [| done]. intros pt c. by destruct pt, c. Qed.

Lemma evaluate_below_mate_witness :
  - MATE_SCORE < @evaluate Layout.rules Layout.sample < MATE_SCORE.
Proof.
  destruct (evaluate_below_mate (R := Layout.rules) Layout.sample) as [Hon _].
  - vm_compute. lia.
  - apply Hon. reflexivity.
Defined.

Lemma evaluate_colour_flipped_witness :
  @evaluate Layout.rules Layout.sample_flipped = - @evaluate Layout.rules Layout.sample.
Proof.
  apply (evaluate_colour_flipped (R := Layout.rules)).
  - apply layout_sample_flipped.
  - reflexivity.
  - reflexivity.
Defined.

(** ** Move ordering *)

Lemma swap_head_Permutation {A} (t : list A) (j : nat) (h b : A) :
  t !! j = Some b → b :: <[j := h]> t ≡ₚ h :: t.
Proof.
  revert j. induction t as [|x t IH]; intros [|j] Hj; simplify_eq/=.
  - apply Permutation_swap.
  - etrans; [apply Permutation_swap |]. rewrite (IH j Hj). apply Permutation_swap.
Qed.

Lemma swap_Permutation {A} (x : list A) (i j : nat) : swap x i j ≡ₚ x.
Proof.
  unfold swap. destruct (x !! i) as [xi|] eqn:Hi; [| done].
  destruct (x !! j) as [xj|] eqn:Hj; [| done].
  revert i j Hi Hj. induction x as [|h t IH]; intros [|i] [|j] Hi Hj; simplify_eq/=.
  - done.
  - by apply swap_head_Permutation.
  - by apply swap_head_Permutation.
  - by rewrite (IH i j).
Qed.

Section OrderFacts.
Context `{R : Rules}.
Variable rand : nat → nat.

(** Shuffling rearranges the list and consults only the random source. *)
Lemma wp_shuffle_from_perm {A} (i : nat) (x : list A) s (Q : list A → state → Prop) :
  (∀ x' s', quiet s s' → ticks s' = ticks s → x' ≡ₚ x → Q x' s') →
  wp (shuffle_from rand i x) s Q.
Proof.
  revert x s Q. induction i as [|i IH]; intros x s Q HQ; simpl.
  - apply wp_ret, HQ; [apply quiet_refl | done | done].
  - apply wp_bind. unfold wp at 1, randbelow.
    apply IH. intros x' s' Hq Hticks Hperm. apply HQ.
    + eapply quiet_trans; [| exact Hq]. by repeat split.
    + by rewrite Hticks.
    + by rewrite Hperm, swap_Permutation.
Qed.

Lemma filter_only (t : Move) (moves : list Move) :
  NoDup moves → t ∈ moves → filter (λ m, m = t) moves = [t].
Proof.
  induction 1 as [|m moves Hm Hnd IH]; [by intros ?%not_elem_of_nil |].
  rewrite filter_cons. intros [-> | Hin]%elem_of_cons.
  - rewrite decide_True by done. f_equal.
    induction moves as [|m' moves IH']; [done |].
    rewrite filter_cons, decide_False.
    + apply IH'; [by apply not_elem_of_cons in Hm as [_ ?] | by apply NoDup_cons in Hnd as [_ ?] |].
      intros Hin. exfalso. apply Hm. by right.
    + intros ->. apply Hm. by left.
  - rewrite decide_False; [by apply IH |]. by intros ->.
Qed.

Lemma filter_none (t : Move) (moves : list Move) :
  t ∉ moves → filter (λ m, is_tt_move (Some t) m = false) moves = moves.
Proof.
  induction moves as [|m moves IH]; [done |].
  intros [Hne Hnot]%not_elem_of_cons. rewrite filter_cons, decide_True, IH; [done.. |].
  simpl. by apply bool_decide_eq_false_2.
Qed.

(** The moves after the table move are a rearrangement of the moves given
    other than the table move; only the random source is consulted. *)
Lemma order_moves_permutation (board : ref) (b : Pos) (moves : list Move)
    (tt_move : option Move) (s : state) :
  heap s !! board = Some b →
  ∃ (ordered : list Move) (s' : state),
    _order_moves rand board moves tt_move s = Ok ordered s' ∧
    (quiet s s' ∧ ticks s' = ticks s) ∧
    match tt_move with
    | None => ordered ≡ₚ moves
    | Some t => ∃ rest, ordered = t :: rest ∧ rest ≡ₚ filter (λ m, m ≠ t) moves
    end.
Proof.
  intros Hb. apply wp_run. unfold _order_moves.
  apply wp_bind, (wp_board_of _ b); [done |].
  set (rest := filter (λ m, is_tt_move tt_move m = false) moves).
  apply wp_bind, wp_shuffle_from_perm. intros cs s1 Hq1 Ht1 Hcs.
  apply wp_bind, wp_shuffle_from_perm. intros qs s2 Hq2 Ht2 Hqs.
  apply wp_ret. split; [split; [by eapply quiet_trans | congruence] |].
  assert (cs ++ qs ≡ₚ rest) as Hrest.
  { assert (filter (λ m, is_capture b m = false) rest
            = filter (λ m, ¬ is_capture b m = true) rest) as Hq.
    { apply list_filter_iff. intros m. by destruct (is_capture b m). }
    rewrite Hcs, Hqs, Hq. apply filter_app_complement. }
  destruct tt_move as [t|]; simpl.
  - exists (cs ++ qs). split; [done |]. rewrite Hrest. subst rest.
    erewrite list_filter_iff; [done |]. intros m. simpl.
    by rewrite bool_decide_eq_false.
  - rewrite Hrest. subst rest. simpl. clear.
    induction moves as [|m moves IH]; [done |].
    by rewrite filter_cons, decide_True, IH.
Qed.

(** X4.  [_order_moves] loses and repeats nothing: without a table move the
    result is a rearrangement of the moves given; with one, the table move
    followed by a rearrangement of the other moves.  So it is a
    rearrangement of the moves given when the table move is one of them (and
    they are distinct), and has the table move as one move more when it is
    not: the code does not look whether the table move is in the list. *)
Theorem order_moves_rearranges (board : ref) (b : Pos) (moves : list Move)
    (tt_move : option Move) (s : state) :
  heap s !! board = Some b →
  ∃ (ordered : list Move) (s' : state),
    _order_moves rand board moves tt_move s = Ok ordered s' ∧
    match tt_move with
    | None => ordered ≡ₚ moves
    | Some t =>
      (∃ rest, ordered = t :: rest ∧ rest ≡ₚ filter (λ m, m ≠ t) moves) ∧
      (NoDup moves → t ∈ moves → ordered ≡ₚ moves) ∧
      (t ∉ moves → ordered ≡ₚ t :: moves)
    end.
Proof.
  intros Hb. apply wp_run. unfold _order_moves.
  apply wp_bind, (wp_board_of _ b); [done |].
  set (rest := filter (λ m, is_tt_move tt_move m = false) moves).
  apply wp_bind, wp_shuffle_from_perm. intros cs s1 _ _ Hcs.
  apply wp_bind, wp_shuffle_from_perm. intros qs s2 _ _ Hqs.
  apply wp_ret.
  assert (cs ++ qs ≡ₚ rest) as Hrest.
  { assert (filter (λ m, is_capture b m = false) rest
            = filter (λ m, ¬ is_capture b m = true) rest) as Hq.
    { apply list_filter_iff. intros m. by destruct (is_capture b m). }
    rewrite Hcs, Hqs, Hq. apply filter_app_complement. }
  destruct tt_move as [t|]; simpl.
  - assert (rest = filter (λ m, m ≠ t) moves) as Hfilter.
    { subst rest. apply list_filter_iff. intros m. simpl.
      by rewrite bool_decide_eq_false. }
    split; [exists (cs ++ qs); by rewrite <- Hfilter |]. split.
    + intros Hnd Hin. rewrite Hrest, Hfilter.
      etrans; [| apply (filter_app_complement (λ m, m = t) moves)].
      by rewrite (filter_only t moves Hnd Hin).
    + intros Hnot. rewrite Hrest. subst rest. by rewrite filter_none.
  - rewrite Hrest. subst rest. simpl. clear.
    induction moves as [|m moves IH]; [done |].
    by rewrite filter_cons, decide_True, IH.
Qed.

(** X5.  The order [_order_moves] produces: the table move if there is one,
    then captures only, then quiet moves only; the table move is not
    repeated among them. *)
Theorem order_moves_captures_first (board : ref) (b : Pos) (moves : list Move)
    (tt_move : option Move) (s : state) :
  heap s !! board = Some b →
  ∃ (captures quiets : list Move) (s' : state),
    _order_moves rand board moves tt_move s =
      Ok (match tt_move with Some t => [t] | None => [] end ++ captures ++ quiets) s' ∧
    Forall (λ m, is_capture b m = true ∧ m ∈ moves ∧ tt_move ≠ Some m) captures ∧
    Forall (λ m, is_capture b m = false ∧ m ∈ moves ∧ tt_move ≠ Some m) quiets.
Proof.
  intros Hb.
  cut (wp (_order_moves rand board moves tt_move) s
          (λ ordered _,
             ∃ captures quiets,
               ordered = match tt_move with Some t => [t] | None => [] end
                         ++ captures ++ quiets ∧
               Forall (λ m, is_capture b m = true ∧ m ∈ moves ∧ tt_move ≠ Some m)
                      captures ∧
               Forall (λ m, is_capture b m = false ∧ m ∈ moves ∧ tt_move ≠ Some m)
                      quiets)).
  { intros (ordered & s' & Hrun & cs & qs & -> & Hcs & Hqs)%wp_run.
    by exists cs, qs, s'. }
  unfold _order_moves.
  apply wp_bind, (wp_board_of _ b); [done |].
  apply wp_bind, wp_shuffle. intros cs s1 _ Hcs.
  apply wp_bind, wp_shuffle. intros qs s2 _ Hqs.
  apply wp_ret. exists cs, qs. split; [done |].
  assert (∀ m, is_tt_move tt_move m = false → tt_move ≠ Some m) as Hnot.
  { intros m Hm [= ->]. simpl in Hm. by rewrite bool_decide_eq_true_2 in Hm. }
  split; apply Forall_forall; intros m Hm.
  - apply Hcs in Hm. apply list_elem_of_filter in Hm as [Hcap Hm].
    apply list_elem_of_filter in Hm as [Htt Hm]. auto.
  - apply Hqs in Hm. apply list_elem_of_filter in Hm as [Hcap Hm].
    apply list_elem_of_filter in Hm as [Htt Hm]. auto.
Qed.
End OrderFacts.

Lemma order_moves_rearranges_witness :
  ∃ ordered s',
    _order_moves Toy.toy_rand 0%nat (Toy.toy_legal_moves Toy.full) (Some Toy.Quiet)
                 (Toy.state0 Toy.full) = Ok ordered s' ∧
    ordered ≡ₚ Toy.toy_legal_moves Toy.full.
Proof.
  destruct (order_moves_rearranges (R := Toy.rules) Toy.toy_rand 0%nat Toy.full
              (Toy.toy_legal_moves Toy.full) (Some Toy.Quiet) (Toy.state0 Toy.full))
    as (ordered & s' & Hrun & _ & Hperm & _); [reflexivity |].
  exists ordered, s'. split; [exact Hrun |]. apply Hperm.
  - apply (bool_decide_unpack _). by vm_compute.
  - apply (bool_decide_unpack _). by vm_compute.
Defined.

Lemma order_moves_captures_first_witness :
  ∃ captures quiets s',
    _order_moves Toy.toy_rand 0%nat (Toy.toy_legal_moves Toy.full) None
                 (Toy.state0 Toy.full) = Ok (captures ++ quiets) s' ∧
    Forall (λ m, Toy.toy_is_capture Toy.full m = true) captures ∧
    Forall (λ m, Toy.toy_is_capture Toy.full m = false) quiets.
Proof.
  destruct (order_moves_captures_first (R := Toy.rules) Toy.toy_rand 0%nat Toy.full
              (Toy.toy_legal_moves Toy.full) None (Toy.state0 Toy.full))
    as (cs & qs & s' & Hrun & Hcs & Hqs); [reflexivity |].
  exists cs, qs, s'. split; [exact Hrun |].
  split; (eapply Forall_impl; [eassumption |]); by intros m (? & _).
Defined.

(** ** What the search does to the transposition table *)

Section Partial.
Context `{R : Rules}.

Lemma pwp_ret {A} (a : A) s (Q : A → state → Prop) : Q a s → pwp (ret a) s Q.
Proof. intros H. exact H. Qed.

Lemma pwp_bind {A B} (m : M A) (k : A → M B) s (Q : B → state → Prop) :
  pwp m s (λ a s', pwp (k a) s' Q) → pwp (bind m k) s Q.
Proof. unfold pwp, bind. destruct (m s); auto. Qed.

Lemma pwp_mono {A} (m : M A) s (Q Q' : A → state → Prop) :
  pwp m s Q → (∀ a s', Q a s' → Q' a s') → pwp m s Q'.
Proof. unfold pwp. destruct (m s); auto. Qed.

Lemma wp_pwp {A} (m : M A) s (Q : A → state → Prop) : wp m s Q → pwp m s Q.
Proof. unfold wp, pwp. destruct (m s); auto. Qed.

Lemma wp_and_pwp {A} (m : M A) s (Q Q' : A → state → Prop) :
  wp m s Q → pwp m s Q' → wp m s (λ a s', Q a s' ∧ Q' a s').
Proof. unfold wp, pwp. destruct (m s); auto. Qed.

Lemma pwp_board_of (board : ref) s (Q : Pos → state → Prop) :
  (∀ b, heap s !! board = Some b → Q b s) → pwp (board_of board) s Q.
Proof. intros HQ. unfold pwp, board_of. destruct (heap s !! board); auto. Qed.

Lemma pwp_evaluate_board (board : ref) s (Q : Z → state → Prop) :
  (∀ e, Q e s) → pwp (evaluate_board board) s Q.
Proof.
  intros HQ. apply pwp_bind, pwp_board_of. intros b _. apply pwp_ret, HQ.
Qed.

Lemma pwp_generate_legal_moves (board : ref) s (Q : list Move → state → Prop) :
  (∀ b, heap s !! board = Some b → Q (legal_moves b) s) →
  pwp (generate_legal_moves board) s Q.
Proof.
  intros HQ. apply pwp_bind, pwp_board_of. intros b Hb. by apply pwp_ret, HQ.
Qed.

Lemma pwp_copy_push {A} (board : ref) (move : Move) (k : ref → M A) s
    (Q : A → state → Prop) :
  (∀ child s',
     TRANSPOSITION_TABLE s' = TRANSPOSITION_TABLE s → pwp (k child) s' Q) →
  pwp (let* child := Board_copy board in
       let* _ := Board_push child move in k child) s Q.
Proof.
  intros HQ. unfold Board_copy.
  apply pwp_bind, pwp_bind, pwp_board_of. intros b Hb.
  unfold pwp at 1. unfold Board_push.
  apply pwp_bind, pwp_bind, pwp_board_of. intros b' Hb'.
  destruct (bool_decide (move ∈ legal_moves b')); [| done].
  unfold pwp at 1. by apply HQ.
Qed.

Lemma keys_kept_refl s : keys_kept s s.
Proof. by intros key. Qed.

Lemma keys_kept_trans s1 s2 s3 : keys_kept s1 s2 → keys_kept s2 s3 → keys_kept s1 s3.
Proof. intros H1 H2 key Hk. auto. Qed.

Lemma keys_kept_same s s' :
  TRANSPOSITION_TABLE s' = TRANSPOSITION_TABLE s → keys_kept s s'.
Proof. intros Ht key. by rewrite Ht. Qed.

Lemma tt_finite_same s s' :
  TRANSPOSITION_TABLE s' = TRANSPOSITION_TABLE s → tt_finite s → tt_finite s'.
Proof. unfold tt_finite. intros ->. auto. Qed.

Lemma is_finite_sneg (x : score) : is_finite (sneg x) = is_finite x.
Proof. by destruct x. Qed.

Lemma slt_not_PInf (a b : score) : slt a b = true → a ≠ PInf.
Proof. by intros H ->. Qed.

Lemma tt_probe_inl (entry : option TTEntry) depth alpha beta v :
  tt_probe entry depth alpha beta = inl v →
  ∃ e, entry = Some e ∧ v = entry_score e.
Proof.
  unfold tt_probe. destruct entry as [e|]; [| done].
  destruct (depth <=? entry_depth e); [| done].
  destruct (entry_node_type e).
  - intros [= <-]. eauto.
  - destruct (sle beta _); [| done]. intros [= <-]. eauto.
  - destruct (sle _ alpha); [| done]. intros [= <-]. eauto.
Qed.
End Partial.

Section TableHelpers.
Context `{R : Rules}.
Variable clock : nat → Z.
Variable rand : nat → nat.

Lemma order_moves_nonempty (board : ref) (moves : list Move) (tt_move : option Move) s :
  pwp (_order_moves rand board moves tt_move) s
      (λ ordered s', TRANSPOSITION_TABLE s' = TRANSPOSITION_TABLE s ∧
                     (moves ≠ [] → ordered ≠ [])).
Proof.
  destruct (heap s !! board) as [b|] eqn:Hb.
  - destruct (order_moves_permutation rand board b moves tt_move s Hb)
      as (ordered & s' & Hrun & [Hq _] & Hperm).
    unfold pwp. rewrite Hrun. split; [by destruct Hq as (_ & ? & _) |].
    intros Hne ->. destruct tt_move as [t|]; [by destruct Hperm as (? & ? & _) |].
    apply Permutation_nil_l in Hperm. simpl in Hperm. by subst.
  - unfold pwp, _order_moves, bind, board_of. by rewrite Hb.
Qed.

Lemma pwp_time_is_up start_time max_time s (Q : bool → state → Prop) :
  (∀ up s', TRANSPOSITION_TABLE s' = TRANSPOSITION_TABLE s →
            (max_time = None → up = false) → Q up s') →
  pwp (time_is_up clock start_time max_time) s Q.
Proof.
  intros HQ. destruct max_time as [mt|]; simpl.
  - apply pwp_bind, wp_pwp, wp_time_time. intros now s' (_ & Ht & _).
    by apply pwp_ret, HQ.
  - by apply pwp_ret, HQ.
Qed.
End TableHelpers.

Section ScoreInvariant.
Context `{R : Rules}.
Variable clock : nat → Z.
Variable rand : nat → nat.

(** A class of finite scores, closed under negation, that holds the values
    of the leaves for the perspectives in [colours]. *)
Variable good : score → bool.
Variable colours : Z → Prop.
Hypothesis good_finite : ∀ x, good x = true → is_finite x = true.
Hypothesis good_sneg : ∀ x, good (sneg x) = good x.
Hypothesis colours_neg : ∀ c, colours c → colours (- c).
Hypothesis colours_white : colours 1.
Hypothesis good_static : ∀ (b : Pos) c, colours c → good (Fin (c * evaluate b)) = true.
Hypothesis good_mate : ∀ c, colours c → good (Fin (- c * MATE_SCORE)) = true.
Hypothesis good_draw : good (Fin 0) = true.

Lemma lower_ok_sneg (beta : score) : upper_ok good beta → lower_ok good (sneg beta).
Proof. intros [-> | H]; [by left | right; by rewrite good_sneg]. Qed.

Lemma upper_ok_sneg (alpha : score) : lower_ok good alpha → upper_ok good (sneg alpha).
Proof. intros [-> | H]; [by left | right; by rewrite good_sneg]. Qed.

Lemma good_raise (alpha v : score) :
  lower_ok good alpha → good v = true →
  good (if slt alpha v then v else alpha) = true.
Proof.
  intros [-> | Halpha] Hv; [| by destruct (slt alpha v)].
  apply good_finite in Hv as Hfin. by destruct v.
Qed.

Lemma good_lower (alpha v : score) :
  upper_ok good alpha → good v = true →
  good (if slt v alpha then v else alpha) = true.
Proof.
  intros [-> | Halpha] Hv; [| by destruct (slt v alpha)].
  apply good_finite in Hv as Hfin. by destruct v.
Qed.

Lemma tt_scores_same s s' :
  TRANSPOSITION_TABLE s' = TRANSPOSITION_TABLE s → tt_scores good s → tt_scores good s'.
Proof. unfold tt_scores. intros ->. auto. Qed.

Lemma tt_probe_bounds (entry : option TTEntry) depth alpha beta alpha' beta' :
  tt_probe entry depth alpha beta = inr (alpha', beta') →
  (∀ e, entry = Some e → good (entry_score e) = true) →
  lower_ok good alpha → upper_ok good beta →
  lower_ok good alpha' ∧ upper_ok good beta'.
Proof.
  unfold tt_probe. destruct entry as [e|]; [| by intros [= <- <-]].
  destruct (depth <=? entry_depth e); [| by intros [= <- <-]].
  intros Hprobe He Ha Hb. specialize (He e eq_refl).
  destruct (entry_node_type e); [done | |].
  - destruct (sle beta _); [done |]. injection Hprobe as <- <-.
    split; [| done]. right. by apply good_raise.
  - destruct (sle _ alpha); [done |]. injection Hprobe as <- <-.
    split; [done |]. right. by apply good_lower.
Qed.

Lemma pwp_static_value (board : ref) (color : Z) s (Q : Z → state → Prop) :
  (∀ b, heap s !! board = Some b → Q (evaluate b) s) →
  pwp (evaluate_board board) s Q.
Proof.
  intros HQ. apply pwp_bind, pwp_board_of. intros b Hb. by apply pwp_ret, HQ.
Qed.

(** *** Quiescence *)

Lemma quiescence_loop_scores (rec : ref → score → score → Z → M score)
    (board : ref) (beta : score) (color : Z) :
  (∀ child a bt c s,
     pwp (rec child a bt c) s
         (λ v s', TRANSPOSITION_TABLE s' = TRANSPOSITION_TABLE s ∧
                  (colours c → lower_ok good a → bt = NInf ∨ upper_ok good bt →
                   good v = true))) →
  ∀ (moves : list Move) (alpha : score) (s : state),
    pwp (quiescence_loop rec board beta color alpha moves) s
        (λ v s', TRANSPOSITION_TABLE s' = TRANSPOSITION_TABLE s ∧
                 (colours color → upper_ok good beta → good alpha = true →
                  good v = true)).
Proof.
  intros Hrec moves. induction moves as [|move moves IH]; intros alpha s; simpl.
  - by apply pwp_ret.
  - apply pwp_copy_push. intros child s1 Hs1.
    apply pwp_bind. eapply pwp_mono; [apply Hrec |].
    intros r s2 [Hs2 Hr]. simpl.
    assert (colours color → upper_ok good beta → good alpha = true →
            good (sneg r) = true) as Hscore.
    { intros Hc Hbeta Halpha. rewrite good_sneg. apply Hr.
      - by apply colours_neg.
      - by apply lower_ok_sneg.
      - right. apply upper_ok_sneg. by right. }
    destruct (sle beta (sneg r)) eqn:Hcut.
    + apply pwp_ret. split; [congruence | done].
    + eapply pwp_mono; [apply IH |].
      intros v s3 [Hs3 Hv]. split; [congruence |].
      intros Hc Hbeta Halpha. apply Hv; [done | done |].
      apply good_raise; [by right | by apply Hscore].
Qed.

(** [_quiescence] does not touch the table; its value is in the class
    when the ends of the window are. *)
Lemma quiescence_scores (start_time : Z) (max_time : option Z) :
  ∀ (fuel : nat) (board : ref) (alpha beta : score) (color : Z) s,
    pwp (_quiescence clock fuel board alpha beta color start_time max_time) s
        (λ v s', TRANSPOSITION_TABLE s' = TRANSPOSITION_TABLE s ∧
                 (colours color → lower_ok good alpha →
                  beta = NInf ∨ upper_ok good beta → good v = true)).
Proof.
  induction fuel as [|fuel IH]; intros board alpha beta color s; [done |].
  simpl. apply pwp_bind, wp_pwp, wp_enter. intros s1 (_ & Hs1 & _).
  apply pwp_bind, wp_pwp, wp_time_is_up. intros up s2 (_ & Hs2 & _).
  assert (TRANSPOSITION_TABLE s2 = TRANSPOSITION_TABLE s) as Ht by congruence.
  destruct up.
  { apply pwp_bind, (pwp_static_value _ color). intros b _. apply pwp_ret.
    split; [done |]. intros Hc _ _. by apply good_static. }
  apply pwp_bind, (pwp_static_value _ color). intros b0 _.
  destruct (sle beta (Fin (color * evaluate b0))) eqn:Hcut.
  { apply pwp_ret. split; [done |]. intros Hc _ _. by apply good_static. }
  apply pwp_bind, pwp_generate_legal_moves. intros b Hb.
  apply pwp_bind, pwp_board_of. intros b' Hb'.
  destruct (filter _ (legal_moves b)) as [|move moves].
  { apply pwp_ret. split; [done |]. intros Hc _ _. by apply good_static. }
  eapply pwp_mono.
  { apply (quiescence_loop_scores _ board beta color).
    intros child a bt c s'. apply IH. }
  intros v s3 [Hs3 Hv]. split; [congruence |].
  intros Hc Halpha [-> | Hbeta]; [done |].
  apply Hv; [done | done |]. apply good_raise; [done | by apply good_static].
Qed.

(** *** Negamax *)

Lemma negamax_loop_scores (rec : ref → score → score → Z → M score)
    (board : ref) (beta : score) (color : Z) :
  (∀ child a bt c s, pwp (rec child a bt c) s (scores_kept good colours a bt c s)) →
  ∀ (moves : list Move) (value : score) (best : option Move) (alpha : score)
    (s : state),
    pwp (negamax_loop rec board beta color value best alpha moves) s
        (λ r s',
           keys_kept s s' ∧
           (tt_scores good s → slt alpha beta = true → colours color →
            lower_ok good alpha → upper_ok good beta → lower_ok good value →
            tt_scores good s' ∧ lower_ok good (r.1.1) ∧
            (moves ≠ [] ∨ value ≠ NInf → good (r.1.1) = true))).
Proof.
  intros Hrec moves. induction moves as [|move moves IH];
    intros value best alpha s; simpl.
  - apply pwp_ret. split; [apply keys_kept_refl |].
    intros Hfin _ _ _ _ Hv. split; [done |]. split; [done |].
    intros [? | Hne]; [done |]. by destruct Hv.
  - apply pwp_copy_push. intros child s1 Hs1.
    apply pwp_bind. eapply pwp_mono; [apply Hrec |].
    intros r s2 [Hk2 Hr]. simpl.
    assert (keys_kept s s2) as Hk.
    { apply (keys_kept_trans _ s1); [by apply keys_kept_same | done]. }
    set (vb := if slt value (sneg r) then (sneg r, Some move) else (value, best)).
    assert (tt_scores good s → slt alpha beta = true → colours color →
            lower_ok good alpha → upper_ok good beta → lower_ok good value →
            good (vb.1) = true ∧ tt_scores good s2) as Hvb.
    { intros Hfin Hwin Hc Ha Hb Hv.
      destruct Hr as [Hr Hfin2];
        [by eapply tt_scores_same | by rewrite sneg_slt | by apply colours_neg
         | by apply lower_ok_sneg | by apply upper_ok_sneg |].
      split; [| done].
      pose proof (good_raise value (sneg r) Hv) as Hraise.
      rewrite good_sneg in Hraise. specialize (Hraise Hr).
      subst vb. by destruct (slt value (sneg r)). }
    destruct vb as [value' best']. simpl in Hvb.
    destruct (sle beta (smax alpha value')) eqn:Hcut.
    + apply pwp_ret. split; [done |].
      intros Hfin Hwin Hc Ha Hb Hv.
      destruct (Hvb Hfin Hwin Hc Ha Hb Hv) as [Hv' Hfin2].
      split; [done |]. simpl. split; [by right | done].
    + eapply pwp_mono; [apply IH |].
      intros v s3 [Hk3 Hv3]. split; [by eapply keys_kept_trans |].
      intros Hfin Hwin Hc Ha Hb Hv.
      destruct (Hvb Hfin Hwin Hc Ha Hb Hv) as [Hv' Hfin2].
      destruct Hv3 as (Hfin3 & Hlow & Hres);
        [done | by apply sle_false_slt | done
         | right; by apply good_raise | done | by right |].
      split; [done |]. split; [done |].
      intros _. apply Hres. right. intros ->. by apply good_finite in Hv'.
Qed.

Lemma negamax_node_scores (rec : ref → score → score → Z → M score)
    (depth : Z) (board : ref) (alpha beta : score) (color : Z)
    (fen_key : string) (tt_move : option Move) (s : state) :
  (∀ child a bt c s, pwp (rec child a bt c) s (scores_kept good colours a bt c s)) →
  pwp (negamax_node rand rec depth board alpha beta color fen_key tt_move) s
      (scores_kept good colours alpha beta color s).
Proof.
  intros Hrec. unfold negamax_node.
  apply pwp_bind, pwp_generate_legal_moves. intros b Hb.
  destruct (legal_moves b) as [|m0 ms] eqn:Hlegal.
  { apply pwp_bind, pwp_board_of. intros b' _.
    destruct (is_checkmate b'); apply pwp_ret;
      (split; [apply keys_kept_refl |]); intros Hfin _ Hc _ _;
      (split; [| done]); [by apply good_mate | done]. }
  apply pwp_bind. eapply pwp_mono; [apply order_moves_nonempty |].
  intros ordered s1 [Hs1 Hord]. simpl.
  apply pwp_bind. eapply pwp_mono; [by apply negamax_loop_scores |].
  intros [[value best] alpha'] s2 [Hk2 Hv2]. simpl in Hv2.
  apply pwp_bind, wp_pwp, wp_tt_put. intros s3 (_ & Hs3 & _).
  apply pwp_ret. split.
  - intros key Hkey. rewrite Hs3.
    destruct (decide (fen_key = key)) as [-> | Hne].
    + by rewrite lookup_insert_eq.
    + rewrite lookup_insert_ne by done. apply Hk2. by rewrite Hs1.
  - intros Hfin Hwin Hc Ha Hbt.
    destruct Hv2 as (Hfin2 & _ & Hval);
      [by eapply tt_scores_same | done | done | done | done | by left |].
    assert (good value = true) as Hvalue by (apply Hval; left; by apply Hord).
    split; [done |]. intros key e. rewrite Hs3.
    destruct (decide (fen_key = key)) as [-> | Hne].
    + rewrite lookup_insert_eq. by intros [= <-].
    + rewrite lookup_insert_ne by done. apply Hfin2.
Qed.

Lemma negamax_scores (fuel : nat) (start_time : Z) (max_time : option Z) :
  ∀ (depth : nat) (board : ref) (alpha beta : score) (color : Z) s,
    pwp (_negamax clock rand fuel depth board alpha beta color start_time max_time) s
        (scores_kept good colours alpha beta color s).
Proof.
  induction depth as [|depth IH]; intros board alpha beta color s;
    rewrite negamax_unfold.
  all: apply pwp_bind, wp_pwp, wp_enter; intros s1 (_ & Hs1 & _).
  all: apply pwp_bind, wp_pwp, wp_time_is_up; intros up s2 (_ & Hs2 & _).
  all: assert (TRANSPOSITION_TABLE s2 = TRANSPOSITION_TABLE s) as Ht by congruence.
  all: destruct up;
    [apply pwp_bind, (pwp_static_value _ color); intros b0 _; apply pwp_ret;
     split; [by apply keys_kept_same |]; intros Hfin _ Hc _ _;
     split; [by apply good_static | by eapply tt_scores_same] |].
  all: apply pwp_bind, pwp_board_of; intros b Hb.
  all: apply pwp_bind, wp_pwp, wp_tt_get.
  all: match goal with
       | |- context [tt_probe ?e ?d ?a ?bt] =>
         destruct (tt_probe e d a bt) as [v | [alpha' beta']] eqn:Hprobe
       end.
  all: try (apply pwp_ret; split; [by apply keys_kept_same |];
            intros Hfin _ _ _ _; split; [| by eapply tt_scores_same];
            apply tt_probe_inl in Hprobe as (e & He & ->);
            rewrite Ht in He; by eapply Hfin).
  all: pose proof (tt_probe_window _ _ _ _ _ _ Hprobe) as Hwin.
  all: assert (tt_scores good s → lower_ok good alpha → upper_ok good beta →
               lower_ok good alpha' ∧ upper_ok good beta') as Hbounds
         by (intros Hfin; apply (tt_probe_bounds _ _ _ _ _ _ Hprobe);
             intros e He; rewrite Ht in He; by eapply Hfin).
  - eapply pwp_mono; [apply quiescence_scores |].
    intros v s3 [Hs3 Hv]. split; [apply keys_kept_same; congruence |].
    intros Hfin Hok Hc Ha Hb'. destruct (Hbounds Hfin Ha Hb') as [Ha' Hb''].
    split; [apply Hv; auto |].
    eapply tt_scores_same; [| exact Hfin]. congruence.
  - eapply pwp_mono.
    + apply negamax_node_scores. intros child a bt c s'. apply IH.
    + intros v s3 [Hk3 Hv]. split.
      * apply (keys_kept_trans _ s2); [by apply keys_kept_same | done].
      * intros Hfin Hok Hc Ha Hb'. destruct (Hbounds Hfin Ha Hb') as [Ha' Hb''].
        apply Hv; [by eapply tt_scores_same | by apply Hwin | done | done | done].
Qed.

(** *** The root search and the driver *)

Lemma root_loop_scores (rec : ref → score → score → Z → M score)
    (board : ref) (beta : score) (color : Z)
    (start_time : Z) (max_time : option Z) :
  (∀ child a bt c s, pwp (rec child a bt c) s (scores_kept good colours a bt c s)) →
  ∀ (moves : list Move) (best_score : score) (best : option Move)
    (alpha : score) (s : state),
    pwp (root_loop clock rec board beta color start_time max_time
                   best_score best alpha moves) s
        (λ r s',
           keys_kept s s' ∧
           (tt_scores good s → slt alpha beta = true → colours color →
            lower_ok good alpha → upper_ok good beta →
            tt_scores good s' ∧
            (max_time = None →
             best_score = NInf ∧ moves ≠ [] ∨
               good best_score = true ∧ is_Some best →
             good (r.1) = true ∧ is_Some (r.2)))).
Proof.
  intros Hrec moves. induction moves as [|move moves IH];
    intros best_score best alpha s; simpl.
  - apply pwp_ret. split; [apply keys_kept_refl |].
    intros Hfin _ _ _ _. split; [done |]. by intros _ [[_ ?] | ?].
  - apply pwp_bind, pwp_time_is_up. intros up s0 Hs0 Hup.
    destruct up.
    { apply pwp_ret. split; [by apply keys_kept_same |].
      intros Hfin _ _ _ _. split; [by eapply tt_scores_same |].
      intros Hnone. by specialize (Hup Hnone). }
    apply pwp_copy_push. intros child s1 Hs1.
    apply pwp_bind. eapply pwp_mono; [apply Hrec |].
    intros r s2 [Hk2 Hr]. simpl.
    assert (keys_kept s s2) as Hk.
    { apply (keys_kept_trans _ s1); [apply keys_kept_same; congruence | done]. }
    set (sb := if slt best_score (sneg r) then (sneg r, Some move)
               else (best_score, best)).
    assert (tt_scores good s → slt alpha beta = true → colours color →
            lower_ok good alpha → upper_ok good beta →
            tt_scores good s2 ∧ good (sneg r) = true ∧
            (best_score = NInf ∨ good best_score = true ∧ is_Some best →
             good (sb.1) = true ∧ is_Some (sb.2))) as Hsb.
    { intros Hfin Hwin Hc Ha Hb.
      destruct Hr as [Hr Hfin2];
        [eapply tt_scores_same; [| exact Hfin]; congruence | by rewrite sneg_slt
         | by apply colours_neg | by apply lower_ok_sneg | by apply upper_ok_sneg |].
      rewrite <- good_sneg in Hr.
      split; [done |]. split; [done |]. subst sb.
      apply good_finite in Hr as Hrfin.
      intros [-> | [Hbs Hbest]].
      - destruct (sneg r); [done | | done]. simpl. by eauto.
      - destruct (slt best_score _); simpl; [by eauto | done]. }
    destruct sb as [best_score' best']. simpl in Hsb.
    destruct (sle beta (smax alpha (sneg r))) eqn:Hcut.
    + apply pwp_ret. split; [done |].
      intros Hfin Hwin Hc Ha Hb.
      destruct (Hsb Hfin Hwin Hc Ha Hb) as (Hfin2 & _ & Hres).
      split; [done |]. intros _ [[-> _] | ?]; apply Hres; auto.
    + eapply pwp_mono; [apply IH |].
      intros v s3 [Hk3 Hv3]. split; [by eapply keys_kept_trans |].
      intros Hfin Hwin Hc Ha Hb.
      destruct (Hsb Hfin Hwin Hc Ha Hb) as (Hfin2 & Hscore & Hres).
      destruct Hv3 as [Hfin3 Hv3];
        [done | by apply sle_false_slt | done | right; by apply good_raise | done |].
      split; [done |]. intros Hnone Hcase. apply Hv3; [done |]. right.
      apply Hres. destruct Hcase as [[-> _] | ?]; auto.
Qed.

Lemma negamax_root_scores (fuel : nat) (board : ref) (depth : nat)
    (start_time : Z) (max_time : option Z) s :
  pwp (_negamax_root clock rand fuel board depth start_time max_time) s
      (λ r s',
         keys_kept s s' ∧
         (tt_scores good s →
          tt_scores good s' ∧
          (max_time = None →
           ∀ b, heap s !! board = Some b → legal_moves b ≠ [] →
                good (r.1) = true ∧ is_Some (r.2)))).
Proof.
  unfold _negamax_root.
  apply pwp_bind, pwp_generate_legal_moves. intros b Hb.
  destruct (legal_moves b) as [|m0 ms] eqn:Hlegal.
  { apply pwp_bind, pwp_evaluate_board. intros e. apply pwp_ret.
    split; [apply keys_kept_refl |]. intros Hfin. split; [done |].
    intros _ b' Hb'. simplify_eq. by rewrite Hlegal. }
  apply pwp_bind. eapply pwp_mono; [apply order_moves_nonempty |].
  intros ordered s1 [Hs1 Hord]. simpl.
  apply pwp_bind. unfold Board_turn.
  apply pwp_bind, pwp_board_of. intros b1 Hb1. apply pwp_ret.
  eapply pwp_mono.
  { apply root_loop_scores. intros child a bt c s'. apply negamax_scores. }
  intros r s2 [Hk2 Hr]. split.
  - apply (keys_kept_trans _ s1); [by apply keys_kept_same | done].
  - intros Hfin.
    destruct Hr as [Hfin2 Hr];
      [by eapply tt_scores_same | done
       | destruct (turn b1); [done | by apply (colours_neg 1)]
       | by left | by left |].
    split; [done |]. intros Hnone b' Hb' _. apply Hr; [done |]. left.
    split; [done |]. by apply Hord.
Qed.

Lemma deepening_loop_scores (fuel : nat) (board : ref)
    (start_time : Z) (max_time : option Z) :
  ∀ (depths : list nat) (best_score : score) (best : option Move) s,
    pwp (deepening_loop clock rand fuel board start_time max_time
                        best_score best depths) s
        (λ _ s', keys_kept s s' ∧ (tt_scores good s → tt_scores good s')).
Proof.
  induction depths as [|d depths IH]; intros best_score best s; simpl.
  - apply pwp_ret. split; [apply keys_kept_refl | done].
  - apply pwp_bind, pwp_time_is_up. intros up s0 Hs0 _.
    destruct up.
    { apply pwp_ret. split; [by apply keys_kept_same | by apply tt_scores_same]. }
    apply pwp_bind. eapply pwp_mono; [apply negamax_root_scores |].
    intros [score move] s1 [Hk1 Hfin1].
    assert (∀ bs bm,
              pwp (deepening_loop clock rand fuel board start_time max_time
                                  bs bm depths) s1
                  (λ _ s', keys_kept s s' ∧ (tt_scores good s → tt_scores good s')))
      as Hnext.
    { intros bs bm. eapply pwp_mono; [apply IH |].
      intros _ s2 [Hk2 Hfin2]. split.
      - apply (keys_kept_trans _ s0); [by apply keys_kept_same |].
        by eapply keys_kept_trans.
      - intros Hfin. apply Hfin2, Hfin1. by eapply tt_scores_same. }
    destruct move; apply Hnext.
Qed.

(** The driver removes no key of the table and keeps its scores in the
    class. *)
Lemma search_best_move_scores (fuel : nat) (board : ref) (depth : Z)
    (max_time : option Z) s :
  pwp (search_best_move clock rand fuel board depth max_time) s
      (λ _ s', keys_kept s s' ∧ (tt_scores good s → tt_scores good s')).
Proof.
  unfold search_best_move.
  apply pwp_bind, wp_pwp, wp_time_time. intros start_time s0 (_ & Hs0 & _).
  apply pwp_bind. unfold Board_turn.
  apply pwp_bind, pwp_board_of. intros b Hb. apply pwp_ret.
  apply pwp_bind. eapply pwp_mono; [apply deepening_loop_scores |].
  intros [best_score best] s1 [Hk1 Hfin1].
  assert (keys_kept s s1) as Hk.
  { apply (keys_kept_trans _ s0); [by apply keys_kept_same | done]. }
  assert (tt_scores good s → tt_scores good s1) as Hfin.
  { intros Hfin. apply Hfin1. by eapply tt_scores_same. }
  destruct best as [m|]; [by apply pwp_ret |].
  apply pwp_bind, pwp_generate_legal_moves. intros b' Hb'.
  destruct (legal_moves b') as [|m0 ms]; [by apply pwp_ret |].
  apply pwp_bind, wp_pwp, wp_choice; [done |]. intros m s2 (_ & Hs2 & _) _.
  apply pwp_ret. split.
  - eapply keys_kept_trans; [exact Hk | by apply keys_kept_same].
  - intros H. eapply tt_scores_same; [exact Hs2 | auto].
Qed.
End ScoreInvariant.

(** *** Finite scores

    The scores other than the two infinities are such a class, for every
    perspective. *)

Section TableFacts.
Context `{R : Rules}.
Variable clock : nat → Z.
Variable rand : nat → nat.

Lemma finite_window_ends (alpha beta : score) :
  slt alpha beta = true → lower_ok is_finite alpha ∧ upper_ok is_finite beta.
Proof.
  intros Hwin. destruct alpha, beta; try discriminate Hwin;
    split; first [by left | by right].
Qed.

Lemma quiescence_table (start_time : Z) (max_time : option Z)
    (fuel : nat) (board : ref) (alpha beta : score) (color : Z) s :
  pwp (_quiescence clock fuel board alpha beta color start_time max_time) s
      (λ v s', TRANSPOSITION_TABLE s' = TRANSPOSITION_TABLE s ∧
               (alpha ≠ PInf → is_finite v = true)).
Proof.
  eapply pwp_mono.
  { apply (quiescence_scores clock is_finite (λ _, True)); auto using is_finite_sneg. }
  intros v s' [Ht Hv]. split; [done |]. intros Halpha. apply Hv; [done | |].
  - destruct alpha; [by left | by right | done].
  - destruct beta; [by left | right; by right | right; by left].
Qed.

Lemma negamax_table (fuel : nat) (start_time : Z) (max_time : option Z)
    (depth : nat) (board : ref) (alpha beta : score) (color : Z) s :
  pwp (_negamax clock rand fuel depth board alpha beta color start_time max_time) s
      (table_kept alpha beta s).
Proof.
  eapply pwp_mono.
  { apply (negamax_scores clock rand is_finite (λ _, True));
      auto using is_finite_sneg. }
  intros v s' [Hk Hv]. split; [done |]. intros Hfin Hwin.
  destruct (finite_window_ends alpha beta Hwin). by apply Hv.
Qed.

Lemma negamax_root_table (fuel : nat) (board : ref) (depth : nat)
    (start_time : Z) (max_time : option Z) s :
  pwp (_negamax_root clock rand fuel board depth start_time max_time) s
      (λ r s',
         keys_kept s s' ∧
         (tt_finite s →
          tt_finite s' ∧
          (max_time = None →
           ∀ b, heap s !! board = Some b → legal_moves b ≠ [] →
                is_finite (r.1) = true ∧ is_Some (r.2)))).
Proof.
  apply (negamax_root_scores clock rand is_finite (λ _, True));
    auto using is_finite_sneg.
Qed.

Lemma search_best_move_table (fuel : nat) (board : ref) (depth : Z)
    (max_time : option Z) s :
  pwp (search_best_move clock rand fuel board depth max_time) s
      (λ _ s', keys_kept s s' ∧ (tt_finite s → tt_finite s')).
Proof.
  apply (search_best_move_scores clock rand is_finite (λ _, True));
    auto using is_finite_sneg.
Qed.
End TableFacts.

(** ** The answer of the driver *)

Lemma tt_finite_empty `{R : Rules} (s : state) :
  TRANSPOSITION_TABLE s = ∅ → tt_finite s.
Proof. intros Ht key e. by rewrite Ht, lookup_empty. Qed.

Section DriverAnswer.
Context `{R : Rules}.
Variable clock : nat → Z.
Variable rand : nat → nat.









End DriverAnswer.



Lemma last_seq_1 (n : nat) : (1 ≤ n)%nat → last (seq 1 n) = Some n.
Proof.
  destruct n as [|n]; [lia |]. intros _. by rewrite seq_S, last_snoc.
Qed.

Section SearchTable.
Context `{R : Rules}.
Variable clock : nat → Z.
Variable rand : nat → nat.

Lemma time_is_up_plain start_time max_time s :
  ∃ s', time_is_up clock start_time max_time s =
          Ok (deadline_passed clock start_time max_time s) s' ∧
        heap s' = heap s ∧ TRANSPOSITION_TABLE s' = TRANSPOSITION_TABLE s.
Proof. destruct max_time; by eexists. Qed.

(** X6.  Once the deadline has passed, [_negamax] and [_quiescence] return
    the static value seen from the side to move, whatever the depth, the
    window and the table hold (the time check comes before the table
    lookup), and [_negamax_root], on a position with at least one legal
    move, returns [-inf] and no move without searching any; no object and
    no table entry changes.  On a position without legal moves
    [_negamax_root] makes no time check: it returns [evaluate(board)] and
    no move. *)
Theorem expired_deadline_static_value (fuel depth : nat) (board : ref) (b : Pos)
    (alpha beta : score) (color : Z) (start_time : Z) (max_time : option Z)
    (s : state) :
  heap s !! board = Some b →
  deadline_passed clock start_time max_time s = true →
  (∃ s', _negamax clock rand fuel depth board alpha beta color start_time max_time s
           = Ok (Fin (color * evaluate b)) s' ∧
         heap s' = heap s ∧ TRANSPOSITION_TABLE s' = TRANSPOSITION_TABLE s) ∧
  (∃ s', _quiescence clock (S fuel) board alpha beta color start_time max_time s
           = Ok (Fin (color * evaluate b)) s' ∧
         heap s' = heap s ∧ TRANSPOSITION_TABLE s' = TRANSPOSITION_TABLE s) ∧
  (legal_moves b ≠ [] →
   ∃ s', _negamax_root clock rand fuel board depth start_time max_time s
           = Ok (NInf, None) s' ∧
         heap s' = heap s ∧ TRANSPOSITION_TABLE s' = TRANSPOSITION_TABLE s) ∧
  (legal_moves b = [] →
   _negamax_root clock rand fuel board depth start_time max_time s
     = Ok (Fin (evaluate b), None) s).
Proof.
  intros Hb Hup. split; [| split; [| split]]; cycle 3.
  { intros Hnone. unfold _negamax_root.
    unfold bind at 1. unfold generate_legal_moves at 1, bind at 1, board_of at 1.
    rewrite Hb. unfold ret at 1. rewrite Hnone.
    unfold evaluate_board, bind, board_of, ret. by rewrite Hb. }
  - eexists. split; [by apply negamax_run_timeout | done].
  - eexists. split; [| split].
    + cbn [_quiescence]. unfold bind at 1. unfold enter at 1. unfold bind at 1.
      rewrite time_is_up_run, Hup.
      unfold evaluate_board, bind, board_of, ret. simpl. by rewrite Hb.
    + done.
    + done.
  - intros Hmoves. unfold _negamax_root.
    unfold bind at 1. unfold generate_legal_moves at 1, bind at 1, board_of at 1.
    rewrite Hb. unfold ret at 1.
    destruct (legal_moves b) as [|m0 ms] eqn:Hlegal; [done |].
    destruct (order_moves_permutation rand board b (m0 :: ms) None s Hb)
      as (ordered & s1 & Hrun & [(Hh1 & Ht1 & _) Hticks] & Hperm).
    unfold bind at 1. rewrite Hrun.
    unfold bind at 1. unfold Board_turn at 1, bind at 1, board_of at 1.
    rewrite Hh1, Hb. unfold ret at 1.
    destruct ordered as [|move ordered].
    { by apply Permutation_nil_l in Hperm. }
    cbn [root_loop]. unfold bind at 1.
    destruct (time_is_up_plain start_time max_time s1) as (s2 & -> & Hh2 & Ht2).
    assert (deadline_passed clock start_time max_time s1 = true) as ->.
    { unfold deadline_passed in *. by rewrite Hticks. }
    exists s2. split; [done |]. split; congruence.
Qed.

Hypothesis same_fen_same_moves : fen_determines_moves.
Hypothesis captures_take_a_piece : captures_decrease.
Variable max_pieces : nat.
Hypothesis pieces_bounded : ∀ b : Pos, (piece_count b ≤ max_pieces)%nat.

(** X7.  A search that follows [clear_tt] needs nothing of the table it
    found: it returns a legal move (none exactly when there is none), and
    the table it leaves holds only what this search stored, [UPPERBOUND]
    entries with finite scores. *)
Theorem search_after_clear_tt (fuel : nat) (board : ref) (b : Pos) (depth : Z)
    (max_time : option Z) (s : state) :
  (max_pieces < fuel)%nat →
  heap s !! board = Some b →
  ∃ (r : option Move) (s' : state),
    (let* _ := clear_tt in
     search_best_move clock rand fuel board depth max_time) s = Ok r s' ∧
    match r with
    | Some m => m ∈ legal_moves b
    | None => legal_moves b = []
    end ∧
    ∀ key e, TRANSPOSITION_TABLE s' !! key = Some e →
             entry_node_type e = UPPERBOUND ∧ is_finite (entry_score e) = true.
Proof.
  intros Hfuel Hb. unfold bind, clear_tt.
  set (s0 := mkState (heap s) ∅ (ticks s) (draws s) (calls s)).
  destruct (wp_run _ _ _
              (wp_and_pwp _ _ _ _
                 (search_best_move_spec clock rand same_fen_same_moves
                    captures_take_a_piece max_pieces pieces_bounded
                    fuel board b depth max_time s0 Hfuel Hb
                    (tt_legal_empty s0 eq_refl))
                 (search_best_move_table clock rand fuel board depth max_time s0)))
    as (r & s' & Hrun & [Hev Hr] & [_ Hfin]).
  exists r, s'. split; [done |]. split; [done |].
  intros key e He. split.
  - destruct (ev_tt _ _ _ Hev key e He) as [He0 | ?]; [| done].
    unfold s0 in He0. simpl in He0. by rewrite lookup_empty in He0.
  - by eapply (Hfin (tt_finite_empty s0 eq_refl)).
Qed.

(** X8.  [_quiescence] neither reads nor writes the transposition table:
    the table after the call is the table before it.  With [alpha] below
    [math.inf] (so with every proper window) the value returned is finite. *)
Theorem quiescence_leaves_table (fuel : nat) (board : ref) (b : Pos)
    (alpha beta : score) (color : Z) (start_time : Z) (max_time : option Z)
    (s : state) :
  heap s !! board = Some b →
  (piece_count b < fuel)%nat →
  ∃ (v : score) (s' : state),
    _quiescence clock fuel board alpha beta color start_time max_time s = Ok v s' ∧
    TRANSPOSITION_TABLE s' = TRANSPOSITION_TABLE s ∧
    (alpha ≠ PInf → ∃ z, v = Fin z).
Proof.
  intros Hb Hfuel.
  destruct (wp_run _ _ _
              (wp_and_pwp _ _ _ _
                 (quiescence_spec clock captures_take_a_piece start_time max_time
                    fuel board b alpha beta color s Hb Hfuel)
                 (quiescence_table clock start_time max_time
                    fuel board alpha beta color s)))
    as (v & s' & Hrun & _ & [Ht Hv]).
  exists v, s'. split; [done |]. split; [done |].
  intros Halpha. specialize (Hv Halpha). destruct v; [done | by eexists | done].
Qed.

(** X9.  From a table whose scores are finite and a proper window,
    [_negamax] returns a finite score and every score in the table is
    still finite: [math.inf] and [-math.inf] never leave the routine. *)
Theorem negamax_scores_finite (fuel depth : nat) (board : ref) (b : Pos)
    (alpha beta : score) (color : Z) (start_time : Z) (max_time : option Z)
    (s : state) :
  (max_pieces < fuel)%nat →
  heap s !! board = Some b →
  tt_legal s →
  tt_finite s →
  slt alpha beta = true →
  ∃ (z : Z) (s' : state),
    _negamax clock rand fuel depth board alpha beta color start_time max_time s
      = Ok (Fin z) s' ∧
    tt_finite s'.
Proof.
  intros Hfuel Hb Htt Hfin Hwin.
  destruct (wp_run _ _ _
              (wp_and_pwp _ _ _ _
                 (negamax_spec clock rand same_fen_same_moves captures_take_a_piece
                    max_pieces pieces_bounded fuel start_time max_time Hfuel
                    depth board b alpha beta color s Hb Htt)
                 (negamax_table clock rand fuel start_time max_time
                    depth board alpha beta color s)))
    as (v & s' & Hrun & _ & [_ Hv]).
  destruct (Hv Hfin Hwin) as [Hz Hfin'].
  destruct v as [| z |]; [done | | done]. by exists z, s'.
Qed.

Lemma deepening_loop_untimed (fuel : nat) (board : ref) (b : Pos) (start_time : Z) :
  (max_pieces < fuel)%nat →
  legal_moves b ≠ [] →
  ∀ (depths : list nat) (best_score : score) (best : option Move) s,
    heap s !! board = Some b →
    tt_legal s →
    tt_finite s →
    wp (deepening_loop clock rand fuel board start_time None best_score best depths) s
       (λ r s',
          match last depths with
          | None => r = (best_score, best) ∧ s' = s
          | Some d =>
            ∃ s_last,
              evolves True s s_last ∧
              _negamax_root clock rand fuel board d start_time None s_last = Ok r s' ∧
              is_finite (r.1) = true ∧ ∃ m, r.2 = Some m ∧ m ∈ legal_moves b
          end).
Proof.
  intros Hfuel Hmoves depths. induction depths as [|d depths IH];
    intros best_score best s Hb Htt Hfin.
  { by apply wp_ret. }
  cbn [deepening_loop time_is_up]. apply wp_bind, wp_ret.
  destruct (wp_run _ _ _
              (wp_and_pwp _ _ _ _
                 (negamax_root_spec clock rand same_fen_same_moves
                    captures_take_a_piece max_pieces pieces_bounded
                    fuel board b d start_time None s Hfuel Hb Htt)
                 (negamax_root_table clock rand fuel board d start_time None s)))
    as ([score move] & s1 & Hrun & [Hev Hlegal] & [_ Hroot]).
  destruct (Hroot Hfin) as [Hfin1 Hres].
  destruct (Hres eq_refl b Hb Hmoves) as [Hscore [m Hmove]].
  simpl in Hscore, Hlegal, Hmove. subst move.
  apply wp_bind. unfold wp at 1. rewrite Hrun.
  eapply wp_mono.
  { apply (IH score (Some m) s1);
      [by eapply evolves_lookup | by eapply evolves_tt_legal | done]. }
  intros r s2 Hr. destruct depths as [|d' depths'].
  - simpl in *. destruct Hr as [-> ->]. exists s.
    split; [apply evolves_refl |]. split; [done |]. split; [done |].
    exists m. auto.
  - rewrite last_cons_cons.
    destruct (last (d' :: depths')) as [dl|] eqn:Hlast.
    + destruct Hr as (s_last & Hev' & Hr). exists s_last.
      split; [by eapply evolves_trans | done].
    + by apply last_None in Hlast.
Qed.

(** X10.  Without a time limit, with [depth >= 1] and a legal move on the
    board, the answer of [search_best_move] is the move of the root search
    at the final depth, which is the last thing it runs and has a finite
    score; [random.choice] is not reached.  [s_last] is the store in which
    that last root search starts, [clock (ticks s)] the start time the
    driver read. *)
Theorem untimed_search_returns_last_iteration (fuel : nat) (board : ref) (b : Pos)
    (depth : Z) (s : state) :
  (max_pieces < fuel)%nat →
  heap s !! board = Some b →
  tt_legal s →
  tt_finite s →
  1 <= depth →
  legal_moves b ≠ [] →
  ∃ (m : Move) (s' s_last : state) (best_score : Z),
    search_best_move clock rand fuel board depth None s = Ok (Some m) s' ∧
    evolves True s s_last ∧
    _negamax_root clock rand fuel board (Z.to_nat depth) (clock (ticks s)) None s_last
      = Ok (Fin best_score, Some m) s' ∧
    m ∈ legal_moves b.
Proof.
  intros Hfuel Hb Htt Hfin Hdepth Hmoves.
  cut (wp (search_best_move clock rand fuel board depth None) s
          (λ r s', ∃ m s_last best_score,
             r = Some m ∧ evolves True s s_last ∧
             _negamax_root clock rand fuel board (Z.to_nat depth) (clock (ticks s))
                           None s_last = Ok (Fin best_score, Some m) s' ∧
             m ∈ legal_moves b)).
  { intros (r & s' & Hrun & m & s_last & sc & -> & Hev & Hroot & Hm)%wp_run.
    by exists m, s', s_last, sc. }
  unfold search_best_move.
  apply wp_bind. unfold wp at 1, time_time.
  set (s0 := mkState (heap s) (TRANSPOSITION_TABLE s) (S (ticks s)) (draws s) (calls s)).
  assert (quiet s s0) as Hs0 by by repeat split.
  apply wp_bind, (wp_Board_turn _ b); [by eapply quiet_lookup |].
  apply wp_bind. eapply wp_mono.
  { apply (deepening_loop_untimed fuel board b (clock (ticks s)) Hfuel Hmoves);
      [by eapply quiet_lookup
      | eapply (evolves_tt_legal True); [by apply quiet_evolves | done]
      | by eapply tt_finite_same]. }
  intros [score move] s1 Hr.
  rewrite last_seq_1 in Hr by lia.
  destruct Hr as (s_last & Hev & Hroot & Hscore & m & Hmove & Hm).
  simpl in Hscore, Hmove. subst move.
  destruct score as [| z |]; [done | | done].
  apply wp_ret. exists m, s_last, z. split; [done |].
  split; [| done]. eapply evolves_trans; [by apply quiet_evolves | done].
Qed.

(** X11.  The search never removes a key of the transposition table: every
    position cached before [search_best_move] is still cached after it, so
    the table only grows until [clear_tt] is called; and a table of finite
    scores is left a table of finite scores. *)
Theorem search_never_evicts (fuel : nat) (board : ref) (b : Pos) (depth : Z)
    (max_time : option Z) (s : state) :
  (max_pieces < fuel)%nat →
  heap s !! board = Some b →
  tt_legal s →
  ∃ (r : option Move) (s' : state),
    search_best_move clock rand fuel board depth max_time s = Ok r s' ∧
    (∀ key, is_Some (TRANSPOSITION_TABLE s !! key) →
            is_Some (TRANSPOSITION_TABLE s' !! key)) ∧
    (tt_finite s → tt_finite s').
Proof.
  intros Hfuel Hb Htt.
  destruct (wp_run _ _ _
              (wp_and_pwp _ _ _ _
                 (search_best_move_spec clock rand same_fen_same_moves
                    captures_take_a_piece max_pieces pieces_bounded
                    fuel board b depth max_time s Hfuel Hb Htt)
                 (search_best_move_table clock rand fuel board depth max_time s)))
    as (r & s' & Hrun & _ & [Hk Hfin]).
  by exists r, s'.
Qed.
End SearchTable.

Lemma expired_deadline_static_value_witness :
  (∃ s', _negamax Toy.toy_clock Toy.toy_rand 5 2 0%nat NInf PInf 1 (-5) (Some 2)
                  (Toy.state0 Toy.full) = Ok (Fin (1 * evaluate Toy.full)) s' ∧
         heap s' = heap (Toy.state0 Toy.full) ∧
         TRANSPOSITION_TABLE s' = TRANSPOSITION_TABLE (Toy.state0 Toy.full)) ∧
  (∃ s', _negamax_root Toy.toy_clock Toy.toy_rand 5 0%nat 2 (-5) (Some 2)
                       (Toy.state0 Toy.full) = Ok (NInf, None) s' ∧
         heap s' = heap (Toy.state0 Toy.full) ∧
         TRANSPOSITION_TABLE s' = TRANSPOSITION_TABLE (Toy.state0 Toy.full)).
Proof.
  destruct (expired_deadline_static_value (R := Toy.rules) Toy.toy_clock Toy.toy_rand
              5 2 0%nat Toy.full NInf PInf 1 (-5) (Some 2) (Toy.state0 Toy.full))
    as (Hnegamax & _ & Hroot & _).
  - reflexivity.
  - reflexivity.
  - split; [exact Hnegamax |]. apply Hroot. discriminate.
Defined.

Lemma search_after_clear_tt_witness :
  ∃ r s',
    (let* _ := clear_tt in
     search_best_move Toy.toy_clock Toy.toy_rand 5 0%nat 2 None)
      (Toy.state_with_entry Toy.full PInf EXACT Toy.Quiet) = Ok r s' ∧
    match r with
    | Some m => m ∈ Toy.toy_legal_moves Toy.full
    | None => Toy.toy_legal_moves Toy.full = []
    end ∧
    ∀ key e, TRANSPOSITION_TABLE s' !! key = Some e →
             entry_node_type e = UPPERBOUND ∧ is_finite (entry_score e) = true.
Proof.
  apply (search_after_clear_tt (R := Toy.rules) Toy.toy_clock Toy.toy_rand
           toy_fen_determines_moves toy_captures_decrease 4 toy_pieces_bounded
           5 0%nat Toy.full 2 None).
  - lia.
  - reflexivity.
Defined.

Lemma quiescence_leaves_table_witness :
  ∃ v s',
    _quiescence Toy.toy_clock 5 0%nat NInf PInf 1 0 None
                (Toy.state_with_entry Toy.full (Fin 7) EXACT Toy.Quiet) = Ok v s' ∧
    TRANSPOSITION_TABLE s' =
      TRANSPOSITION_TABLE (Toy.state_with_entry Toy.full (Fin 7) EXACT Toy.Quiet) ∧
    (NInf ≠ PInf → ∃ z, v = Fin z).
Proof.
  apply (quiescence_leaves_table (R := Toy.rules) Toy.toy_clock
           toy_captures_decrease 5 0%nat Toy.full).
  - reflexivity.
  - vm_compute. lia.
Defined.

Lemma negamax_scores_finite_witness :
  ∃ z s',
    _negamax Toy.toy_clock Toy.toy_rand 5 2 0%nat NInf PInf 1 0 None
             (Toy.state0 Toy.full) = Ok (Fin z) s' ∧
    tt_finite s'.
Proof.
  apply (negamax_scores_finite (R := Toy.rules) Toy.toy_clock Toy.toy_rand
           toy_fen_determines_moves toy_captures_decrease 4 toy_pieces_bounded
           5 2 0%nat Toy.full).
  - lia.
  - reflexivity.
  - apply tt_legal_empty. reflexivity.
  - apply tt_finite_empty. reflexivity.
  - reflexivity.
Defined.

Lemma untimed_search_returns_last_iteration_witness :
  ∃ m s' s_last best_score,
    search_best_move Toy.toy_clock Toy.toy_rand 5 0%nat 2 None (Toy.state0 Toy.full)
      = Ok (Some m) s' ∧
    evolves True (Toy.state0 Toy.full) s_last ∧
    _negamax_root Toy.toy_clock Toy.toy_rand 5 0%nat (Z.to_nat 2)
                  (Toy.toy_clock (ticks (Toy.state0 Toy.full))) None
                  s_last = Ok (Fin best_score, Some m) s' ∧
    m ∈ Toy.toy_legal_moves Toy.full.
Proof.
  apply (untimed_search_returns_last_iteration (R := Toy.rules) Toy.toy_clock
           Toy.toy_rand toy_fen_determines_moves toy_captures_decrease 4
           toy_pieces_bounded 5 0%nat Toy.full 2 (Toy.state0 Toy.full)).
  - lia.
  - reflexivity.
  - apply tt_legal_empty. reflexivity.
  - apply tt_finite_empty. reflexivity.
  - lia.
  - discriminate.
Defined.

Lemma search_never_evicts_witness :
  ∃ r s',
    search_best_move Toy.toy_clock Toy.toy_rand 5 0%nat 2 None
                     (Toy.state_with_entry Toy.full (Fin 7) EXACT Toy.Quiet)
      = Ok r s' ∧
    (∀ key,
       is_Some (TRANSPOSITION_TABLE
                  (Toy.state_with_entry Toy.full (Fin 7) EXACT Toy.Quiet) !! key) →
       is_Some (TRANSPOSITION_TABLE s' !! key)) ∧
    (tt_finite (Toy.state_with_entry Toy.full (Fin 7) EXACT Toy.Quiet) → tt_finite s').
Proof.
  apply (search_never_evicts (R := Toy.rules) Toy.toy_clock Toy.toy_rand
           toy_fen_determines_moves toy_captures_decrease 4 toy_pieces_bounded
           5 0%nat Toy.full 2 None).
  - lia.
  - reflexivity.
  - apply toy_tt_legal_entry. vm_compute. set_solver.
Defined.

Lemma within_mate_finite (x : score) : within_mate x = true → is_finite x = true.
Proof. by destruct x. Qed.

Lemma within_mate_sneg (x : score) : within_mate (sneg x) = within_mate x.
Proof.
  destruct x as [| z |]; [done | | done]. simpl.
  destruct (Z.leb_spec (- MATE_SCORE) (- z)), (Z.leb_spec (- z) MATE_SCORE),
           (Z.leb_spec (- MATE_SCORE) z), (Z.leb_spec z MATE_SCORE);
    simpl; try done; lia.
Qed.

Lemma within_mate_range (z : Z) :
  within_mate (Fin z) = true ↔ - MATE_SCORE <= z <= MATE_SCORE.
Proof. simpl. rewrite andb_true_iff, !Z.leb_le. done. Qed.

Section WithinMate.
Context `{R : Rules}.
Variable clock : nat → Z.
Variable rand : nat → nat.
Hypothesis same_fen_same_moves : fen_determines_moves.
Hypothesis captures_take_a_piece : captures_decrease.
Variable max_pieces : nat.
Hypothesis pieces_bounded : ∀ b : Pos, (piece_count b ≤ max_pieces)%nat.

(** X12.  On boards of at most 64 pieces the search stays within the mate
    score: from a table whose scores lie in [-MATE_SCORE, MATE_SCORE], a
    proper window whose ends lie there or are still infinite, and
    [color] 1 or -1, [_negamax] returns a score in that range and every
    score in the table is still in it; [search_best_move] leaves such a
    table as well. *)
Theorem search_scores_within_mate (fuel depth : nat) (board : ref) (b : Pos)
    (alpha beta : score) (color : Z) (start_time : Z) (max_time : option Z)
    (search_depth : Z) (s : state) :
  (max_pieces < fuel)%nat →
  (max_pieces ≤ 64)%nat →
  heap s !! board = Some b →
  tt_legal s →
  tt_scores within_mate s →
  slt alpha beta = true →
  color = 1 ∨ color = -1 →
  alpha = NInf ∨ within_mate alpha = true →
  beta = PInf ∨ within_mate beta = true →
  (∃ (z : Z) (s' : state),
     _negamax clock rand fuel depth board alpha beta color start_time max_time s
       = Ok (Fin z) s' ∧
     - MATE_SCORE <= z <= MATE_SCORE ∧ tt_scores within_mate s') ∧
  (∃ (r : option Move) (s' : state),
     search_best_move clock rand fuel board search_depth max_time s = Ok r s' ∧
     tt_scores within_mate s').
Proof.
  intros Hfuel Hmax Hb Htt Hfin Hwin Hcolor Halpha Hbeta.
  assert (∀ (b : Pos) c, c = 1 ∨ c = -1 → within_mate (Fin (c * evaluate b)) = true)
    as Hstatic.
  { intros b' c Hc. apply within_mate_range.
    pose proof (evaluate_within_mate b') as Hrange.
    specialize (pieces_bounded b'). destruct Hc as [-> | ->]; lia. }
  assert (∀ c, c = 1 ∨ c = -1 → within_mate (Fin (- c * MATE_SCORE)) = true)
    as Hmate.
  { intros c Hc. apply within_mate_range. unfold MATE_SCORE.
    destruct Hc as [-> | ->]; lia. }
  assert (∀ c, c = 1 ∨ c = -1 → - c = 1 ∨ - c = -1) as Hneg by (intros c; lia).
  assert (pwp (_negamax clock rand fuel depth board alpha beta color
                        start_time max_time) s
              (scores_kept within_mate (λ c, c = 1 ∨ c = -1) alpha beta color s))
    as Hnegamax.
  { apply negamax_scores; auto using within_mate_finite, within_mate_sneg. }
  assert (pwp (search_best_move clock rand fuel board search_depth max_time) s
              (λ _ s', keys_kept s s' ∧
                       (tt_scores within_mate s → tt_scores within_mate s')))
    as Hsearch.
  { apply (search_best_move_scores clock rand within_mate (λ c, c = 1 ∨ c = -1));
      auto using within_mate_finite, within_mate_sneg. }
  split.
  - destruct (wp_run _ _ _
                (wp_and_pwp _ _ _ _
                   (negamax_spec clock rand same_fen_same_moves captures_take_a_piece
                      max_pieces pieces_bounded fuel start_time max_time Hfuel
                      depth board b alpha beta color s Hb Htt)
                   Hnegamax))
      as (v & s' & Hrun & _ & [_ Hv]).
    destruct (Hv Hfin Hwin Hcolor Halpha Hbeta) as [Hz Hfin'].
    destruct v as [| z |]; [done | | done].
    exists z, s'. split; [done |]. split; [by apply within_mate_range | done].
  - destruct (wp_run _ _ _
                (wp_and_pwp _ _ _ _
                   (search_best_move_spec clock rand same_fen_same_moves
                      captures_take_a_piece max_pieces pieces_bounded
                      fuel board b search_depth max_time s Hfuel Hb Htt)
                   Hsearch))
      as (r & s' & Hrun & _ & [_ Hkeep]).
    exists r, s'. split; [done | by apply Hkeep].
Qed.
End WithinMate.

Lemma search_scores_within_mate_witness :
  ∃ z s',
    _negamax Toy.toy_clock Toy.toy_rand 5 2 0%nat NInf PInf 1 0 None
             (Toy.state0 Toy.full) = Ok (Fin z) s' ∧
    - MATE_SCORE <= z <= MATE_SCORE ∧ tt_scores within_mate s'.
Proof.
  apply (search_scores_within_mate (R := Toy.rules) Toy.toy_clock Toy.toy_rand
           toy_fen_determines_moves toy_captures_decrease 4 toy_pieces_bounded
           5 2 0%nat Toy.full NInf PInf 1 0 None 2 (Toy.state0 Toy.full)).
  - lia.
  - lia.
  - reflexivity.
  - apply tt_legal_empty. reflexivity.
  - intros key e He. discriminate He.
  - reflexivity.
  - left. reflexivity.
  - left. reflexivity.
  - left. reflexivity.
Defined.

(** *** The depths of the entries stored *)

Section StoredDepths.
Context `{R : Rules}.
Variable clock : nat → Z.
Variable rand : nat → nat.

Lemma stores_upto_same D s s' :
  TRANSPOSITION_TABLE s' = TRANSPOSITION_TABLE s → stores_upto D s s'.
Proof. intros Ht key e. rewrite Ht. auto. Qed.

Lemma stores_upto_trans D1 D2 D s1 s2 s3 :
  D1 <= D → D2 <= D →
  stores_upto D1 s1 s2 → stores_upto D2 s2 s3 → stores_upto D s1 s3.
Proof.
  intros H1 H2 H12 H23 key e He.
  destruct (H23 key e He) as [He2 | ?]; [| right; lia].
  destruct (H12 key e He2) as [? | ?]; [by left | right; lia].
Qed.

Lemma negamax_loop_depths (rec : ref → score → score → Z → M score)
    (board : ref) (beta : score) (color : Z) (D : Z) :
  (∀ child a bt c s, pwp (rec child a bt c) s (λ _ s', stores_upto D s s')) →
  ∀ (moves : list Move) (value : score) (best : option Move) (alpha : score)
    (s : state),
    pwp (negamax_loop rec board beta color value best alpha moves) s
        (λ _ s', stores_upto D s s').
Proof.
  intros Hrec moves. induction moves as [|move moves IH];
    intros value best alpha s; simpl.
  - apply pwp_ret. by apply stores_upto_same.
  - apply pwp_copy_push. intros child s1 Hs1.
    apply pwp_bind. eapply pwp_mono; [apply Hrec |].
    intros r s2 Hs2. simpl.
    assert (stores_upto D s s2) as Hs.
    { apply (stores_upto_trans D D D s s1 s2); [lia | lia | | done].
      by apply stores_upto_same. }
    destruct (if slt value (sneg r) then (sneg r, Some move) else (value, best))
      as [value' best'].
    destruct (sle beta (smax alpha value')); [by apply pwp_ret |].
    eapply pwp_mono; [apply IH |].
    intros v s3 Hs3. apply (stores_upto_trans D D D s s2 s3); [lia | lia | done..].
Qed.

Lemma negamax_depths (fuel : nat) (start_time : Z) (max_time : option Z) :
  ∀ (depth : nat) (board : ref) (alpha beta : score) (color : Z) s,
    pwp (_negamax clock rand fuel depth board alpha beta color start_time max_time) s
        (λ _ s', stores_upto (Z.of_nat depth) s s').
Proof.
  induction depth as [|depth IH]; intros board alpha beta color s;
    rewrite negamax_unfold.
  all: apply pwp_bind, wp_pwp, wp_enter; intros s1 (_ & Hs1 & _).
  all: apply pwp_bind, wp_pwp, wp_time_is_up; intros up s2 (_ & Hs2 & _).
  all: assert (TRANSPOSITION_TABLE s2 = TRANSPOSITION_TABLE s) as Ht by congruence.
  all: destruct up;
    [apply pwp_bind, pwp_evaluate_board; intros e; apply pwp_ret;
     by apply stores_upto_same |].
  all: apply pwp_bind, pwp_board_of; intros b Hb.
  all: apply pwp_bind, wp_pwp, wp_tt_get.
  all: match goal with
       | |- context [tt_probe ?e ?d ?a ?bt] =>
         destruct (tt_probe e d a bt) as [v | [alpha' beta']]
       end; [apply pwp_ret; by apply stores_upto_same |].
  - eapply pwp_mono; [apply quiescence_table |].
    intros v s3 [Hs3 _]. apply stores_upto_same. congruence.
  - unfold negamax_node.
    apply pwp_bind, pwp_generate_legal_moves. intros b0 Hb0.
    destruct (legal_moves b0) as [|m0 ms].
    { apply pwp_bind, pwp_board_of. intros b' _.
      destruct (is_checkmate b'); apply pwp_ret; by apply stores_upto_same. }
    apply pwp_bind. eapply pwp_mono; [apply order_moves_nonempty |].
    intros ordered s3 [Hs3 _]. simpl.
    apply pwp_bind. eapply pwp_mono.
    { apply (negamax_loop_depths _ board beta' color (Z.of_nat depth)).
      intros child a bt c s'. apply IH. }
    intros [[value best] alpha''] s4 Hs4.
    apply pwp_bind, wp_pwp, wp_tt_put. intros s5 (_ & Hs5 & _).
    apply pwp_ret. intros key e. rewrite Hs5.
    destruct (decide (fen b = key)) as [-> | Hne].
    + rewrite lookup_insert_eq. intros [= <-]. right. simpl. lia.
    + rewrite lookup_insert_ne by done. intros He.
      destruct (Hs4 key e He) as [He3 | ?]; [| right; lia].
      left. by rewrite <- Ht, <- Hs3.
Qed.

Lemma root_loop_depths (rec : ref → score → score → Z → M score)
    (board : ref) (beta : score) (color : Z)
    (start_time : Z) (max_time : option Z) (D : Z) :
  (∀ child a bt c s, pwp (rec child a bt c) s (λ _ s', stores_upto D s s')) →
  ∀ (moves : list Move) (best_score : score) (best : option Move)
    (alpha : score) (s : state),
    pwp (root_loop clock rec board beta color start_time max_time
                   best_score best alpha moves) s
        (λ _ s', stores_upto D s s').
Proof.
  intros Hrec moves. induction moves as [|move moves IH];
    intros best_score best alpha s; simpl.
  - apply pwp_ret. by apply stores_upto_same.
  - apply pwp_bind, pwp_time_is_up. intros up s0 Hs0 _.
    destruct up; [apply pwp_ret; by apply stores_upto_same |].
    apply pwp_copy_push. intros child s1 Hs1.
    apply pwp_bind. eapply pwp_mono; [apply Hrec |].
    intros r s2 Hs2. simpl.
    assert (stores_upto D s s2) as Hs.
    { apply (stores_upto_trans D D D s s1 s2); [lia | lia | | done].
      apply stores_upto_same. congruence. }
    destruct (if slt best_score (sneg r) then (sneg r, Some move)
              else (best_score, best)) as [best_score' best'].
    destruct (sle beta (smax alpha (sneg r))); [by apply pwp_ret |].
    eapply pwp_mono; [apply IH |].
    intros v s3 Hs3. apply (stores_upto_trans D D D s s2 s3); [lia | lia | done..].
Qed.

Lemma negamax_root_depths (fuel : nat) (board : ref) (depth : nat)
    (start_time : Z) (max_time : option Z) s :
  pwp (_negamax_root clock rand fuel board depth start_time max_time) s
      (λ _ s', stores_upto (Z.of_nat (depth - 1)) s s').
Proof.
  unfold _negamax_root.
  apply pwp_bind, pwp_generate_legal_moves. intros b Hb.
  destruct (legal_moves b) as [|m0 ms].
  { apply pwp_bind, pwp_evaluate_board. intros e. apply pwp_ret.
    by apply stores_upto_same. }
  apply pwp_bind. eapply pwp_mono; [apply order_moves_nonempty |].
  intros ordered s1 [Hs1 _]. simpl.
  apply pwp_bind. unfold Board_turn.
  apply pwp_bind, pwp_board_of. intros b1 Hb1. apply pwp_ret.
  eapply pwp_mono.
  { apply (root_loop_depths _ board PInf _ start_time max_time
             (Z.of_nat (depth - 1))).
    intros child a bt c s'. apply negamax_depths. }
  intros r s2 Hs2.
  apply (stores_upto_trans (Z.of_nat (depth - 1)) (Z.of_nat (depth - 1)) _ s s1 s2);
    [lia | lia | by apply stores_upto_same | done].
Qed.

Lemma deepening_loop_depths (fuel : nat) (board : ref)
    (start_time : Z) (max_time : option Z) (D : Z) :
  ∀ (depths : list nat) (best_score : score) (best : option Move) s,
    Forall (λ d, (1 ≤ d)%nat ∧ Z.of_nat d <= D) depths →
    pwp (deepening_loop clock rand fuel board start_time max_time
                        best_score best depths) s
        (λ _ s', stores_upto (D - 1) s s').
Proof.
  induction depths as [|d depths IH]; intros best_score best s Hdepths; simpl.
  - apply pwp_ret. by apply stores_upto_same.
  - apply Forall_cons in Hdepths as [[Hd1 Hd] Hdepths].
    apply pwp_bind, pwp_time_is_up. intros up s0 Hs0 _.
    destruct up; [apply pwp_ret; by apply stores_upto_same |].
    apply pwp_bind. eapply pwp_mono; [apply negamax_root_depths |].
    intros [score move] s1 Hs1.
    assert (stores_upto (D - 1) s s1) as Hs.
    { apply (stores_upto_trans (D - 1) (Z.of_nat (d - 1)) _ s s0 s1);
        [lia | lia | by apply stores_upto_same | done]. }
    assert (∀ bs bm,
              pwp (deepening_loop clock rand fuel board start_time max_time
                                  bs bm depths) s1
                  (λ _ s', stores_upto (D - 1) s s')) as Hnext.
    { intros bs bm. eapply pwp_mono; [by apply IH |].
      intros r s2 Hs2.
      apply (stores_upto_trans (D - 1) (D - 1) _ s s1 s2); [lia | lia | done..]. }
    destruct move; apply Hnext.
Qed.

Lemma search_best_move_depths (fuel : nat) (board : ref) (depth : Z)
    (max_time : option Z) s :
  pwp (search_best_move clock rand fuel board depth max_time) s
      (λ _ s', stores_upto (depth - 1) s s').
Proof.
  unfold search_best_move.
  apply pwp_bind, wp_pwp, wp_time_time. intros start_time s0 (_ & Hs0 & _).
  apply pwp_bind. unfold Board_turn.
  apply pwp_bind, pwp_board_of. intros b Hb. apply pwp_ret.
  apply pwp_bind. eapply pwp_mono.
  { apply (deepening_loop_depths fuel board start_time max_time depth).
    apply Forall_forall. intros d [Hd1 Hd]%elem_of_seq. lia. }
  intros [best_score best] s1 Hs1.
  assert (stores_upto (depth - 1) s s1) as Hs.
  { apply (stores_upto_trans (depth - 1) (depth - 1) _ s s0 s1);
      [lia | lia | by apply stores_upto_same | done]. }
  destruct best as [m|]; [by apply pwp_ret |].
  apply pwp_bind, pwp_generate_legal_moves. intros b' Hb'.
  destruct (legal_moves b') as [|m0 ms]; [by apply pwp_ret |].
  apply pwp_bind, wp_pwp, wp_choice; [done |]. intros m s2 (_ & Hs2 & _) _.
  apply pwp_ret.
  apply (stores_upto_trans (depth - 1) (depth - 1) _ s s1 s2);
    [lia | lia | done | by apply stores_upto_same].
Qed.

Hypothesis same_fen_same_moves : fen_determines_moves.
Hypothesis captures_take_a_piece : captures_decrease.
Variable max_pieces : nat.
Hypothesis pieces_bounded : ∀ b : Pos, (piece_count b ≤ max_pieces)%nat.

(** X13.  A search to [depth] caches only nodes searched to a depth from 1
    to [depth - 1]: every entry of the table after [search_best_move] was
    there before or is such an entry (the root is not cached by its own
    search, and depth-0 nodes go to [_quiescence], which caches nothing).
    So a search with [depth <= 1] leaves the table as it found it. *)
Theorem search_stores_shallower_entries (fuel : nat) (board : ref) (b : Pos)
    (depth : Z) (max_time : option Z) (s : state) :
  (max_pieces < fuel)%nat →
  heap s !! board = Some b →
  tt_legal s →
  ∃ (r : option Move) (s' : state),
    search_best_move clock rand fuel board depth max_time s = Ok r s' ∧
    (∀ key e, TRANSPOSITION_TABLE s' !! key = Some e →
              TRANSPOSITION_TABLE s !! key = Some e ∨
              1 <= entry_depth e <= depth - 1) ∧
    (depth <= 1 → TRANSPOSITION_TABLE s' = TRANSPOSITION_TABLE s).
Proof.
  intros Hfuel Hb Htt.
  destruct (wp_run _ _ _
              (wp_and_pwp _ _ _ _
                 (wp_and_pwp _ _ _ _
                    (search_best_move_spec clock rand same_fen_same_moves
                       captures_take_a_piece max_pieces pieces_bounded
                       fuel board b depth max_time s Hfuel Hb Htt)
                    (search_best_move_table clock rand fuel board depth max_time s))
                 (search_best_move_depths fuel board depth max_time s)))
    as (r & s' & Hrun & [_ [Hkept _]] & Hdepths).
  exists r, s'. split; [done |]. split; [done |].
  intros Hdepth. apply map_eq. intros key.
  destruct (TRANSPOSITION_TABLE s' !! key) as [e|] eqn:He.
  - destruct (Hdepths key e He) as [He0 | ?]; [done | lia].
  - destruct (TRANSPOSITION_TABLE s !! key) as [e|] eqn:He0; [| done].
    destruct (Hkept key) as [e' He']; [by rewrite He0 |]. congruence.
Qed.
End StoredDepths.

Lemma search_stores_shallower_entries_witness :
  ∃ r s',
    search_best_move Toy.toy_clock Toy.toy_rand 5 0%nat 1 None
                     (Toy.state_with_entry Toy.full (Fin 7) EXACT Toy.Quiet)
      = Ok r s' ∧
    TRANSPOSITION_TABLE s' =
      TRANSPOSITION_TABLE (Toy.state_with_entry Toy.full (Fin 7) EXACT Toy.Quiet).
Proof.
  destruct (search_stores_shallower_entries (R := Toy.rules) Toy.toy_clock
              Toy.toy_rand toy_fen_determines_moves toy_captures_decrease 4
              toy_pieces_bounded 5 0%nat Toy.full 1 None
              (Toy.state_with_entry Toy.full (Fin 7) EXACT Toy.Quiet))
    as (r & s' & Hrun & _ & Hsame).
  - lia.
  - reflexivity.
  - apply toy_tt_legal_entry. apply (bool_decide_unpack _). by vm_compute.
  - exists r, s'. split; [exact Hrun |]. apply Hsame. lia.
Defined.

(** ** Bitboards and the position tensor *)

Lemma bit_test (bb : Z) (k : nat) :
  (Z.land (Z.shiftr bb (Z.of_nat k)) 1 =? 0) = negb (Z.testbit bb (Z.of_nat k)).
Proof.
  change 1 with (Z.ones 1). rewrite Z.land_ones by lia.
  change (2 ^ 1) with 2. rewrite <- Z.bit0_mod, Z.shiftr_spec by lia.
  rewrite Z.add_0_l. by destruct (Z.testbit bb (Z.of_nat k)).
Qed.

Lemma cell_set_cell_eq (p : plane) (rank file : nat) (v : Z) (row : list Z) :
  p !! rank = Some row → (file < length row)%nat →
  cell (set_cell p rank file v) rank file = Some v.
Proof.
  intros Hrow Hfile. unfold cell, set_cell.
  rewrite list_lookup_alter_eq, Hrow. simpl. by apply list_lookup_insert_eq.
Qed.

Lemma cell_set_cell_ne (p : plane) (rank file rank' file' : nat) (v : Z) :
  rank' ≠ rank ∨ file' ≠ file →
  cell (set_cell p rank file v) rank' file' = cell p rank' file'.
Proof.
  intros Hne. unfold cell, set_cell.
  destruct (decide (rank = rank')) as [<- | Hrank].
  - rewrite list_lookup_alter_eq. destruct (p !! rank) as [row|]; [| done].
    simpl. apply list_lookup_insert_ne. by destruct Hne.
  - by rewrite list_lookup_alter_ne.
Qed.

Lemma has_shape_set_cell (rows cols : nat) (p : plane) (rank file : nat) (v : Z) :
  has_shape rows cols p → has_shape rows cols (set_cell p rank file v).
Proof.
  intros [Hlen Hrows]. unfold set_cell.
  split; [by rewrite length_alter |].
  apply Forall_lookup. intros i row.
  destruct (decide (rank = i)) as [<- | Hne].
  - rewrite list_lookup_alter_eq. destruct (p !! rank) as [row'|] eqn:Hrow; [| done].
    intros [= <-]. rewrite length_insert.
    by eapply (Forall_lookup_1 _ _ _ _ Hrows).
  - rewrite list_lookup_alter_ne by done. by apply (Forall_lookup_1 _ _ _ _ Hrows).
Qed.

Lemma has_shape_np_full (rows cols : nat) (v : Z) : has_shape rows cols (np_full rows cols v).
Proof.
  split; [apply length_replicate |].
  apply Forall_forall. intros row [-> _]%elem_of_replicate. apply length_replicate.
Qed.

Lemma cell_np_full (rows cols : nat) (v : Z) (rank file : nat) :
  (rank < rows)%nat → (file < cols)%nat → cell (np_full rows cols v) rank file = Some v.
Proof.
  intros Hr Hf. unfold cell, np_full.
  rewrite lookup_replicate_2 by done. simpl. by apply lookup_replicate_2.
Qed.

Lemma has_shape_cell (rows cols : nat) (p : plane) (rank file : nat) :
  has_shape rows cols p → (rank < rows)%nat → (file < cols)%nat →
  ∃ row, p !! rank = Some row ∧ (file < length row)%nat.
Proof.
  intros [Hlen Hrows] Hr Hf.
  destruct (lookup_lt_is_Some_2 p rank) as [row Hrow]; [lia |].
  exists row. split; [done |]. by rewrite (Forall_lookup_1 _ _ _ _ Hrows Hrow).
Qed.

(** Two arrays of the same shape with the same entries are equal. *)
Lemma plane_ext (rows cols : nat) (p q : plane) :
  has_shape rows cols p → has_shape rows cols q →
  (∀ rank file, (rank < rows)%nat → (file < cols)%nat →
                cell p rank file = cell q rank file) →
  p = q.
Proof.
  intros [Hp Hprows] [Hq Hqrows] Hcells. apply list_eq. intros rank.
  destruct (decide (rank < rows)%nat) as [Hr | Hr].
  - destruct (lookup_lt_is_Some_2 p rank) as [row Hrow]; [lia |].
    destruct (lookup_lt_is_Some_2 q rank) as [row' Hrow']; [lia |].
    rewrite Hrow, Hrow'. f_equal. apply list_eq. intros file.
    pose proof (Forall_lookup_1 _ _ _ _ Hprows Hrow) as Hl.
    pose proof (Forall_lookup_1 _ _ _ _ Hqrows Hrow') as Hl'. simpl in Hl, Hl'.
    destruct (decide (file < cols)%nat) as [Hf | Hf].
    + specialize (Hcells rank file Hr Hf). unfold cell in Hcells.
      by rewrite Hrow, Hrow' in Hcells.
    + by rewrite !lookup_ge_None_2 by lia.
  - by rewrite !lookup_ge_None_2 by lia.
Qed.

(** The loop of [bitboard_to_plane] after the squares below [n]. *)
Lemma bitboard_loop (bb : Z) (n : nat) (p : plane) :
  p = foldl (λ plane square,
               if Z.land (Z.shiftr bb (Z.of_nat square)) 1 =? 0 then plane
               else set_cell plane (square / 8) (square mod 8) 1)
            (np_zeros BOARD_SIZE BOARD_SIZE) (seq 0 n) →
  has_shape 8 8 p ∧
  ∀ rank file, (rank < 8)%nat → (file < 8)%nat →
    cell p rank file =
      Some (if (8 * rank + file <? n)%nat && Z.testbit bb (Z.of_nat (8 * rank + file))
            then 1 else 0).
Proof.
  revert p. induction n as [|n IH]; intros p' ->.
  - split; [apply has_shape_np_full |]. intros rank file Hr Hf.
    by apply cell_np_full.
  - rewrite seq_S, foldl_app.
    destruct (IH _ eq_refl) as [IHshape IHcell].
    set (p := foldl _ _ (seq 0 n)) in *. cbn [foldl]. rewrite Nat.add_0_l.
    pose proof (Nat.div_mod_eq n 8) as Hn.
    pose proof (Nat.mod_upper_bound n 8) as Hmod.
    rewrite bit_test.
    destruct (Z.testbit bb (Z.of_nat n)) eqn:Hbit; cbn [negb].
    + split; [by apply has_shape_set_cell |]. intros rank file Hr Hf.
      destruct (decide (8 * rank + file = n)%nat) as [Heq | Hne].
      * assert (rank = n / 8 ∧ file = n mod 8)%nat as [-> ->] by lia.
        rewrite <- Hn, Hbit.
        destruct (Nat.ltb_spec n (S n)); [| lia]. cbn [andb].
        destruct (has_shape_cell 8 8 p (n / 8) (n mod 8)) as (row & Hrow & Hlen);
          [done | lia | lia |].
        by eapply cell_set_cell_eq.
      * rewrite cell_set_cell_ne by lia. rewrite IHcell by done.
        destruct (Nat.ltb_spec (8 * rank + file) n),
                 (Nat.ltb_spec (8 * rank + file) (S n)); try lia; done.
    + split; [done |]. intros rank file Hr Hf. rewrite IHcell by done.
      destruct (decide (8 * rank + file = n)%nat) as [Heq | Hne].
      * rewrite Heq, Hbit. by rewrite !andb_false_r.
      * destruct (Nat.ltb_spec (8 * rank + file) n),
                 (Nat.ltb_spec (8 * rank + file) (S n)); try lia; done.
Qed.

Lemma bitboard_to_plane_shape (bb : Z) : has_shape 8 8 (bitboard_to_plane bb).
Proof. by apply (bitboard_loop bb 64). Qed.

Lemma bitboard_to_plane_cell (bb : Z) (rank file : nat) :
  (rank < 8)%nat → (file < 8)%nat →
  cell (bitboard_to_plane bb) rank file =
    Some (if Z.testbit bb (Z.of_nat (8 * rank + file)) then 1 else 0).
Proof.
  intros Hr Hf. destruct (bitboard_loop bb 64 _ eq_refl) as [_ Hcell].
  unfold bitboard_to_plane. rewrite Hcell by done.
  destruct (Nat.ltb_spec (8 * rank + file) 64); [done | lia].
Qed.

(** X14.  [bitboard_to_plane] gives an 8 x 8 array whose entry at
    [rank, file] is 1 when bit [8 * rank + file] of the bitboard is set and
    0 otherwise. *)
Theorem bitboard_to_plane_cells (bb : Z) (rank file : nat) :
  (rank < 8)%nat → (file < 8)%nat →
  has_shape 8 8 (bitboard_to_plane bb) ∧
  cell (bitboard_to_plane bb) rank file =
    Some (if Z.testbit bb (Z.of_nat (8 * rank + file)) then 1 else 0).
Proof.
  intros Hr Hf. split; [apply bitboard_to_plane_shape |].
  by apply bitboard_to_plane_cell.
Qed.

Lemma bitboard_to_plane_cells_witness :
  cell (bitboard_to_plane 5) 0 2 = Some (if Z.testbit 5 (Z.of_nat (8 * 0 + 2)) then 1 else 0).
Proof. apply (bitboard_to_plane_cells 5 0 2); lia. Defined.

(** X15.  [bitboard_to_plane] looks at the low 64 bits only, and at all of
    them: two integers give the same array exactly when they agree modulo
    2^64 (so no two 64-bit bitboards share an array, and a negative or
    wider integer is read as its low 64 bits). *)
Theorem bitboard_to_plane_low_64_bits (bb bb' : Z) :
  bitboard_to_plane bb = bitboard_to_plane bb' ↔ bb mod 2 ^ 64 = bb' mod 2 ^ 64.
Proof.
  split.
  - intros Heq. apply Z.bits_inj'. intros k Hk.
    destruct (Z.lt_ge_cases k 64) as [Hlow | Hhigh].
    + rewrite !Z.mod_pow2_bits_low by lia.
      set (n := Z.to_nat k).
      pose proof (Nat.div_mod_eq n 8) as Hn.
      pose proof (Nat.mod_upper_bound n 8) as Hmod.
      assert (n < 64)%nat as Hn64 by lia.
      pose proof (bitboard_to_plane_cell bb (n / 8) (n mod 8)) as Hc.
      pose proof (bitboard_to_plane_cell bb' (n / 8) (n mod 8)) as Hc'.
      rewrite Heq, Hc' in Hc by lia. specialize (Hc ltac:(lia) ltac:(lia)). rewrite <- Hn in Hc.
      replace (Z.of_nat n) with k in Hc by lia.
      by destruct (Z.testbit bb k), (Z.testbit bb' k).
    + by rewrite !Z.mod_pow2_bits_high by lia.
  - intros Heq. apply (plane_ext 8 8); [apply bitboard_to_plane_shape.. |].
    intros rank file Hr Hf.
    rewrite !bitboard_to_plane_cell by done.
    rewrite <- (Z.mod_pow2_bits_low bb 64), <- (Z.mod_pow2_bits_low bb' 64) by lia.
    by rewrite Heq.
Qed.

Lemma testbit_1 (k : Z) : Z.testbit 1 k = (k =? 0).
Proof. by destruct k. Qed.

(** Bit [sq] of [int(square_set)] is set exactly for the squares of the set. *)
Lemma square_mask_testbit (squares : list Z) (sq : Z) :
  0 <= sq → Z.testbit (square_mask squares) sq = bool_decide (sq ∈ squares).
Proof.
  intros Hsq. induction squares as [|x squares IH]; simpl.
  - by rewrite Z.bits_0.
  - rewrite Z.lor_spec, Z.shiftl_spec, testbit_1, IH by done.
    destruct (Z.eqb_spec (sq - x) 0) as [Heq | Hne]; simpl.
    + rewrite (bool_decide_eq_true_2 (sq ∈ x :: squares)); [done |].
      replace x with sq by lia. by left.
    + destruct (decide (sq ∈ squares)) as [Hin | Hnot].
      * rewrite !bool_decide_eq_true_2; [done | by right | done].
      * rewrite !bool_decide_eq_false_2; [done | | done].
        intros [? | ?]%elem_of_cons; [lia | done].
Qed.

Lemma cell_set_column (rows cols : nat) (p : plane) (file rank file' : nat) (v : Z) :
  has_shape rows cols p → (rank < rows)%nat → (file' < cols)%nat →
  cell (set_column p file v) rank file' =
    if decide (file' = file) then Some v else cell p rank file'.
Proof.
  intros Hshape Hr Hf.
  destruct (has_shape_cell rows cols p rank file' Hshape Hr Hf) as (row & Hrow & Hlen).
  unfold cell, set_column. rewrite list_lookup_fmap, Hrow. simpl.
  destruct (decide (file' = file)) as [-> | Hne].
  - by apply list_lookup_insert_eq.
  - by apply list_lookup_insert_ne.
Qed.

Section Encoding.
Context `{B : BoardState}.

(** X16.  [encode_position] returns 18 planes of 8 x 8; plane
    [0..5] (White) or [6..11] (Black) of a piece type P, N, B, R, Q, K has
    1 at [rank, file] exactly when a piece of that type and colour stands
    on square [8 * rank + file]. *)
Theorem encode_position_piece_channels (board : Pos) (piece_type : PieceType)
    (color : Color) (rank file : nat) :
  (rank < 8)%nat → (file < 8)%nat →
  length (encode_position board) = 18%nat ∧
  ∃ p : plane,
    encode_position board !! (colour_channel color + piece_channel piece_type)%nat
      = Some p ∧
    has_shape 8 8 p ∧
    cell p rank file =
      Some (if bool_decide (Z.of_nat (8 * rank + file) ∈ pieces board piece_type color)
            then 1 else 0).
Proof.
  intros Hr Hf. split; [done |].
  destruct piece_type, color; (eexists; split; [reflexivity |]);
    (split; [apply bitboard_to_plane_shape |]);
    rewrite bitboard_to_plane_cell by done;
    cbn [from_chess_board white_pawns white_knights white_bishops white_rooks
         white_queens white_king black_pawns black_knights black_bishops
         black_rooks black_queens black_king];
    by rewrite square_mask_testbit by lia.
Qed.

(** X17.  The last six planes of [encode_position] are constant over the
    board except the last: plane 12 is 1 everywhere when White is to move,
    planes 13 to 16 are 1 everywhere when the castling right (White king
    side, White queen side, Black king side, Black queen side) is there,
    and plane 17 has 1 on the whole file of the en-passant square, on every
    rank, and 0 elsewhere (all 0 without an en-passant square). *)
Theorem encode_position_state_channels (board : Pos) (rank file : nat) :
  (rank < 8)%nat → (file < 8)%nat →
  ∃ stm wk wq bk bq ep : plane,
    encode_position board !! 12%nat = Some stm ∧
    encode_position board !! 13%nat = Some wk ∧
    encode_position board !! 14%nat = Some wq ∧
    encode_position board !! 15%nat = Some bk ∧
    encode_position board !! 16%nat = Some bq ∧
    encode_position board !! 17%nat = Some ep ∧
    cell stm rank file = Some (if turn board then 1 else 0) ∧
    cell wk rank file =
      Some (if has_kingside_castling_rights board WHITE then 1 else 0) ∧
    cell wq rank file =
      Some (if has_queenside_castling_rights board WHITE then 1 else 0) ∧
    cell bk rank file =
      Some (if has_kingside_castling_rights board BLACK then 1 else 0) ∧
    cell bq rank file =
      Some (if has_queenside_castling_rights board BLACK then 1 else 0) ∧
    cell ep rank file =
      Some (match board_ep_square board with
            | Some sq =>
              if bool_decide (sq ≠ -1 ∧ Z.of_nat file = sq mod 8) then 1 else 0
            | None => 0
            end).
Proof.
  intros Hr Hf. do 6 eexists.
  repeat (split; [reflexivity |]).
  repeat (split; [by apply cell_np_full |]).
  cbn [from_chess_board en_passant_square].
  destruct (board_ep_square board) as [sq|]; [| by apply cell_np_full].
  destruct (Z.eqb_spec sq (-1)) as [-> | Hne].
  { rewrite bool_decide_eq_false_2 by (intros [? _]; done). by apply cell_np_full. }
  rewrite (cell_set_column 8 8) by (done || apply has_shape_np_full).
  pose proof (Z.mod_pos_bound sq 8 ltac:(lia)) as Hmod.
  destruct (decide (file = Z.to_nat (sq mod 8))) as [-> | Hfile].
  - rewrite bool_decide_eq_true_2; [done |]. split; [done | lia].
  - rewrite bool_decide_eq_false_2 by (intros [_ ?]; lia).
    unfold np_zeros. by apply cell_np_full.
Qed.
End Encoding.

Lemma encode_position_piece_channels_witness :
  ∃ p : plane,
    @encode_position Layout.rules (layout_board_state None) Layout.sample !! 4%nat
      = Some p ∧
    has_shape 8 8 p ∧ cell p 0 3 = Some 1.
Proof.
  destruct (encode_position_piece_channels (B := layout_board_state None)
              Layout.sample QUEEN WHITE 0 3) as [_ Hp]; [lia | lia |].
  exact Hp.
Defined.

Lemma encode_position_state_channels_witness :
  ∃ ep : plane,
    @encode_position Layout.rules (layout_board_state (Some 44)) Layout.sample
      !! 17%nat = Some ep ∧
    cell ep 2 4 = Some 1.
Proof.
  destruct (encode_position_state_channels (B := layout_board_state (Some 44))
              Layout.sample 2 4)
    as (stm & wk & wq & bk & bq & ep & _ & _ & _ & _ & _ & Hep & _ & _ & _ & _ & _ & Hc);
    [lia | lia |].
  exists ep. split; [exact Hep | exact Hc].
Defined.

(** ** Training samples from PGN games *)

Section ParsePgnFacts.
Context `{B : BoardState}.

(** One game under a cap, against the same game without one. *)
Lemma game_samples_cap (mp v : Z) (moves : list Move) :
  ∀ (b : Pos) (c c' : Z),
    let capped := game_samples (Some mp) v b moves c in
    let free := game_samples None v b moves c' in
    capped.1 = take (Z.to_nat (Z.max (mp - c) 1)) (free.1) ∧
    match capped.2 with
    | Running c2 =>
      capped.1 = free.1 ∧ c2 = c + Z.of_nat (length (free.1)) ∧
      (∃ c2', free.2 = Running c2') ∧ (free.1 ≠ [] → c2 < mp)
    | CapReached => length (capped.1) = Z.to_nat (Z.max (mp - c) 1)
    | PushFailed => free.2 = PushFailed ∧ capped.1 = free.1
    end.
Proof.
  induction moves as [|move moves IH]; intros b c c'; cbn zeta.
  { simpl. rewrite take_nil. split; [done |]. split; [done |].
    split; [lia |]. split; [by eexists | done]. }
  cbn [game_samples cap_reached].
  destruct (Z.leb_spec mp (c + 1)) as [Hcap | Hcap].
  { replace (Z.to_nat (Z.max (mp - c) 1)) with 1%nat by lia.
    destruct (bool_decide (move ∈ legal_moves b)).
    - by destruct (game_samples None v (push b move) moves (c' + 1)).
    - done. }
  replace (Z.to_nat (Z.max (mp - c) 1)) with (S (Z.to_nat (Z.max (mp - (c + 1)) 1)))
    by lia.
  destruct (bool_decide (move ∈ legal_moves b)); [| simpl; by rewrite take_nil].
  specialize (IH (push b move) (c + 1) (c' + 1)). cbn zeta in IH.
  destruct (game_samples (Some mp) v (push b move) moves (c + 1)) as [out p].
  destruct (game_samples None v (push b move) moves (c' + 1)) as [out' p'].
  simpl in *. destruct IH as [Hout Hp]. split; [by rewrite Hout |].
  destruct p as [c2 | |].
  - destruct Hp as (-> & -> & Hrun & Hlt). split; [done |].
    split; [lia |]. split; [done |]. intros _.
    destruct out' as [|s out']; [simpl; lia |].
    specialize (Hlt ltac:(done)). simpl in *. lia.
  - by rewrite Hp.
  - destruct Hp as [-> ->]. done.
Qed.

Lemma samples_from_cap (mp : Z) (games : list Game) :
  ∀ c c' : Z,
    (samples_from (Some mp) games c).1 =
    take (Z.to_nat (Z.max (mp - c) 1)) ((samples_from None games c').1).
Proof.
  induction games as [|game games IH]; intros c c'; simpl.
  { by rewrite take_nil. }
  destruct (game_result_value game) as [v|]; [| apply IH].
  pose proof (game_samples_cap mp v (mainline game) (game_board game) c c') as Hgame.
  cbn zeta in Hgame.
  destruct (game_samples (Some mp) v (game_board game) (mainline game) c) as [out p].
  destruct (game_samples None v (game_board game) (mainline game) c') as [out' p'].
  simpl in Hgame. destruct Hgame as [Hout Hp].
  destruct p as [c2 | |].
  - destruct Hp as (-> & -> & [c2' ->] & Hlt).
    specialize (IH (c + Z.of_nat (length out')) c2').
    destruct (samples_from (Some mp) games _) as [rest q].
    destruct (samples_from None games c2') as [rest' q'].
    simpl in *. rewrite IH, take_app.
    destruct out' as [|s out'].
    + rewrite take_nil. simpl. f_equal. lia.
    + specialize (Hlt ltac:(done)). rewrite <- Hout.
      set (len := length (s :: out')) in *. do 2 f_equal. lia.
  - simpl. rewrite Hout.
    destruct p' as [c2' | |]; [| done | done].
    destruct (samples_from None games c2') as [rest' q']. simpl.
    rewrite take_app_le; [done |].
    rewrite Hout, length_take in Hp. lia.
  - destruct Hp as [-> ->]. simpl. by rewrite Hout at 1.
Qed.

(** X18.  With [max_positions] the generator yields the first
    [max(max_positions, 1)] pairs of what it yields without a cap, and all
    of them when there are fewer: the count is compared after the
    [yield], so a cap of 0 or less still lets one pair through. *)
Theorem value_samples_capped (games : list Game) (max_positions : Z) :
  (generate_value_samples_from_pgn games (Some max_positions)).1 =
  take (Z.to_nat (Z.max max_positions 1))
       ((generate_value_samples_from_pgn games None).1).
Proof.
  unfold generate_value_samples_from_pgn.
  rewrite (samples_from_cap max_positions games 0 0). by rewrite Z.sub_0_r.
Qed.

Lemma game_samples_legal (v : Z) (moves : list Move) :
  ∀ (b : Pos) (c : Z),
    mainline_legal b moves →
    game_samples None v b moves c =
      ((λ board, (encode_position board, if turn board then v else - v))
         <$> positions_before b moves,
       Running (c + Z.of_nat (length moves))).
Proof.
  induction moves as [|move moves IH]; intros b c Hlegal; simpl.
  { by rewrite Z.add_0_r. }
  destruct Hlegal as [Hmove Hlegal].
  rewrite bool_decide_eq_true_2 by done.
  rewrite (IH _ _ Hlegal). do 2 f_equal. lia.
Qed.

(** X19.  Without a cap, and with main lines of legal moves, the generator
    yields, game by game in file order, one pair for each position before
    a move of each game whose [Result] header is "1-0", "0-1" or
    "1/2-1/2": the encoded position and the game's value seen by the side
    to move.  Games with any other result (or none) give nothing, the
    position after the last move of a game is not among the pairs, and the
    generator ends by running out of games. *)
Theorem value_samples_uncapped (games : list Game) :
  Forall (λ game, mainline_legal (game_board game) (mainline game)) games →
  ∃ count : Z,
    generate_value_samples_from_pgn games None =
      (concat (labelled_positions <$> games), Running count).
Proof.
  unfold generate_value_samples_from_pgn. generalize 0.
  induction games as [|game games IH]; intros c Hlegal; simpl.
  { by eexists. }
  apply Forall_cons in Hlegal as [Hgame Hlegal].
  unfold labelled_positions at 1.
  destruct (game_result_value game) as [v|]; [| by apply IH].
  rewrite (game_samples_legal v _ _ c Hgame).
  destruct (IH (c + Z.of_nat (length (mainline game))) Hlegal) as [count ->].
  by eexists.
Qed.

Lemma game_samples_labels (max_positions : option Z) (v : Z) (moves : list Move) :
  v = -1 ∨ v = 0 ∨ v = 1 →
  ∀ (b : Pos) (c : Z),
    Forall (λ s : value_sample,
              length (s.1) = 18%nat ∧ (s.2 = -1 ∨ s.2 = 0 ∨ s.2 = 1))
           ((game_samples max_positions v b moves c).1).
Proof.
  intros Hv. induction moves as [|move moves IH]; intros b c; simpl; [done |].
  assert (length (encode_position b) = 18%nat ∧
          ((if turn b then v else - v) = -1 ∨ (if turn b then v else - v) = 0 ∨
           (if turn b then v else - v) = 1)) as Hs.
  { split; [done |]. destruct (turn b); lia. }
  destruct (cap_reached max_positions (c + 1)); [by apply Forall_singleton |].
  destruct (bool_decide (move ∈ legal_moves b)); [| by apply Forall_singleton].
  specialize (IH (push b move) (c + 1)).
  destruct (game_samples max_positions v (push b move) moves (c + 1)) as [rest p].
  by constructor.
Qed.

(** X20.  Whatever the cap and the games, every pair the generator yields
    holds a tensor of 18 planes and a label that is -1, 0 or 1. *)
Theorem value_sample_labels (games : list Game) (max_positions : option Z) :
  Forall (λ s : value_sample,
            length (s.1) = 18%nat ∧ (s.2 = -1 ∨ s.2 = 0 ∨ s.2 = 1))
         ((generate_value_samples_from_pgn games max_positions).1).
Proof.
  unfold generate_value_samples_from_pgn.
  cut (∀ c : Z,
         Forall (λ s : value_sample,
                   length (s.1) = 18%nat ∧ (s.2 = -1 ∨ s.2 = 0 ∨ s.2 = 1))
                ((samples_from max_positions games c).1)); [by intros H |].
  induction games as [|game games IH]; intros c; simpl; [done |].
  destruct (game_result_value game) as [v|] eqn:Hv; [| apply IH].
  assert (v = -1 ∨ v = 0 ∨ v = 1) as Hrange.
  { unfold game_result_value in Hv.
    repeat (destruct (String.eqb _ _); [injection Hv; lia |]). done. }
  pose proof (game_samples_labels max_positions v (mainline game) Hrange
                (game_board game) c) as Hgame.
  destruct (game_samples max_positions v (game_board game) (mainline game) c)
    as [out p].
  destruct p as [c2 | |]; [| done | done].
  specialize (IH c2). destruct (samples_from max_positions games c2) as [rest q].
  simpl in *. by apply Forall_app.
Qed.
End ParsePgnFacts.

Lemma value_samples_uncapped_witness :
  ∃ count : Z,
    @generate_value_samples_from_pgn Toy.rules toy_board_state
      [toy_game "0-1"; toy_game "*"] None =
    (concat (@labelled_positions Toy.rules toy_board_state
               <$> [toy_game "0-1"; toy_game "*"]), Running count).
Proof.
  apply (value_samples_uncapped (B := toy_board_state)).
  repeat constructor; apply (bool_decide_unpack _); by vm_compute.
Defined.

(** ** Trimming a PGN file *)

Lemma string_app_assoc (a b c : string) : (a +:+ b) +:+ c = a +:+ b +:+ c.
Proof.
  induction a as [|x a IH]; [done |].
  change (String x ((a +:+ b) +:+ c) = String x (a +:+ b +:+ c)). by f_equal.
Qed.

Lemma string_app_nil_r (a : string) : a +:+ "" = a.
Proof.
  induction a as [|x a IH]; [done |].
  change (String x (a +:+ "") = String x a). by f_equal.
Qed.

Section TrimPgnFacts.
Context {G : Type}.
Variable str : G → string.

Lemma trim_loop_prefix (max_games : Z) (fin : list G) :
  ∀ (fout : string) (count : Z),
    let n := (Z.to_nat (max_games - count) `min` length fin)%nat in
    trim_loop str max_games fin fout count =
      (drop n fin,
       fout +:+ foldr (λ game text, str game +:+ newline +:+ newline +:+ text) ""
                      (take n fin),
       count + Z.of_nat n).
Proof.
  induction fin as [|game fin IH]; intros fout count; cbn zeta.
  - simpl. rewrite Nat.min_0_r. simpl. rewrite string_app_nil_r, Z.add_0_r.
    by destruct (count <? max_games).
  - cbn [trim_loop]. destruct (Z.ltb_spec count max_games) as [Hlt | Hge].
    + rewrite IH. cbn zeta.
      replace (Z.to_nat (max_games - count) `min` length (game :: fin))%nat
        with (S (Z.to_nat (max_games - (count + 1)) `min` length fin))%nat
        by (simpl; lia).
      simpl. rewrite !string_app_assoc. f_equal. lia.
    + replace (Z.to_nat (max_games - count)) with 0%nat by lia.
      simpl. by rewrite string_app_nil_r, Z.add_0_r.
Qed.

(** X21.  [trim_pgn] copies the first [max_games] games of the input, or
    all of them when there are fewer (none when [max_games <= 0]), each
    followed by a blank line, reports that number, and reads no game
    beyond the ones it writes. *)
Theorem trim_pgn_writes_prefix (fin : list G) (max_games : Z) :
  trim_pgn str fin max_games =
    (drop (Z.to_nat max_games `min` length fin) fin,
     foldr (λ game text, str game +:+ newline +:+ newline +:+ text) ""
           (take (Z.to_nat max_games `min` length fin) fin),
     Z.of_nat (Z.to_nat max_games `min` length fin)).
Proof.
  unfold trim_pgn. rewrite trim_loop_prefix. cbn zeta.
  by rewrite Z.sub_0_r, Z.add_0_l.
Qed.
End TrimPgnFacts.

(** ** The bot's move choice *)

Section LichessBotFacts.
Context `{F : FenReader}.
Variable clock : nat → Z.
Variable rand : nat → nat.
Hypothesis same_fen_same_moves : fen_determines_moves.
Hypothesis captures_take_a_piece : captures_decrease.
Variable max_pieces : nat.
Hypothesis pieces_bounded : ∀ b : Pos, (piece_count b ≤ max_pieces)%nat.

(** X22.  [pick_move] answers with a legal move of the live board, and
    with [None] only when there is none: the engine searches a fresh
    [Board] read back from the FEN, which has the same legal moves.  The
    transposition table is carried over from call to call (the bot never
    clears it): every key is kept, and the table still suggests legal
    moves only, so the same holds for the next call. *)
Theorem pick_move_legal (fuel : nat) (board : Pos) (s : state) :
  (max_pieces < fuel)%nat →
  fen (Board_of_fen (fen board)) = fen board →
  tt_legal s →
  ∃ (r : option Move) (s' : state),
    pick_move clock rand fuel board s = Ok r s' ∧
    match r with
    | Some m => m ∈ legal_moves board
    | None => legal_moves board = []
    end ∧
    tt_legal s' ∧
    (∀ key, is_Some (TRANSPOSITION_TABLE s !! key) →
            is_Some (TRANSPOSITION_TABLE s' !! key)).
Proof.
  intros Hfuel Hfen Htt. unfold pick_move, bind, Board_init.
  set (b' := Board_of_fen (fen board)).
  set (s0 := mkState (heap s ++ [b']) (TRANSPOSITION_TABLE s) (ticks s) (draws s)
                     (calls s)).
  assert (heap s0 !! length (heap s) = Some b') as Hb'.
  { unfold s0. simpl. by rewrite lookup_app_r, Nat.sub_diag. }
  assert (tt_legal s0) as Htt0 by by apply (tt_legal_same s).
  destruct (wp_run _ _ _
              (wp_and_pwp _ _ _ _
                 (search_best_move_spec clock rand same_fen_same_moves
                    captures_take_a_piece max_pieces pieces_bounded
                    fuel _ b' 3 None s0 Hfuel Hb' Htt0)
                 (search_best_move_table clock rand fuel (length (heap s)) 3 None s0)))
    as (r & s' & Hrun & [Hev Hr] & [Hk _]).
  exists r, s'. split; [done |].
  rewrite <- (same_fen_same_moves b' board Hfen).
  split; [done |]. split; [by eapply evolves_tt_legal | done].
Qed.
End LichessBotFacts.

Lemma pick_move_legal_witness :
  ∃ r s',
    pick_move (F := toy_fen_reader) Toy.toy_clock Toy.toy_rand 5 Toy.full
              (Toy.state0 Toy.lone_white) = Ok r s' ∧
    match r with
    | Some m => m ∈ Toy.toy_legal_moves Toy.full
    | None => Toy.toy_legal_moves Toy.full = []
    end.
Proof.
  destruct (pick_move_legal (F := toy_fen_reader) Toy.toy_clock Toy.toy_rand
              toy_fen_determines_moves toy_captures_decrease 4 toy_pieces_bounded
              5 Toy.full (Toy.state0 Toy.lone_white))
    as (r & s' & Hrun & Hr & _).
  - lia.
  - reflexivity.
  - apply tt_legal_empty. reflexivity.
  - exists r, s'. split; [exact Hrun | exact Hr].
Defined.
